(** * SIRF MR data containers: k-space sorting, acquisition algebra,
      image geometry and coil-sensitivity application

    Shallow embedding of
      - [src/xGadgetron/cGadgetron/include/sirf/Gadgetron/gadgetron_data_containers.h]
      - [src/xGadgetron/cGadgetron/gadgetron_data_containers.cpp]

    Conventions.
      - C++ integers are [Z]; positions in a [std::vector] are [nat].
      - [float] is IEEE binary32, taken from the Standard Library's
        [SpecFloat] with precision 24 and maximal exponent 128; every
        operation rounds to nearest-even on its own (no contraction).
      - A member function that mutates [*this] is a computation in the
        state-and-exception monad [M]: it returns either a value or the
        exception thrown, together with the state of the object at that
        point.  A [const] member function is a function into [result].
      - Behaviour the C++ standard leaves undefined (reading a vector past
        its end with [operator[]], signed overflow) is the outcome
        [Throw undefined_behaviour]: nothing is claimed about such runs. *)

From Stdlib Require Import ZArith List Bool Lia String Sorted.
From Stdlib Require Import Floats.SpecFloat.
From stdpp Require Import base option list.

(** ** Exceptions and the two monads *)

Inductive exn : Type :=
  | LocalisedException (what : string)   (* [THROW(...)], [throw LocalisedException(...)] *)
  | runtime_error (what : string)        (* [throw std::runtime_error(...)] *)
  | out_of_range                         (* thrown by [std::vector::at] *)
  | undefined_behaviour.

Inductive result (A : Type) : Type :=
  | Ok (a : A)
  | Throw (e : exn).
Arguments Ok {A} a.
Arguments Throw {A} e.

#[global] Instance result_ret : MRet result := fun A a => Ok a.
#[global] Instance result_bind : MBind result := fun A B f r =>
  match r with
  | Ok a => f a
  | Throw e => Throw e
  end.

(** [M S A]: a member function of an object whose fields are [S]. *)
Definition M (S A : Type) : Type := S -> result A * S.

#[global] Instance M_ret {S} : MRet (M S) := fun A a s => (Ok a, s).
#[global] Instance M_bind {S} : MBind (M S) := fun A B f m s =>
  match m s with
  | (Ok a, s') => f a s'
  | (Throw e, s') => (Throw e, s')
  end.

Definition gets {S A} (f : S -> A) : M S A := fun s => (Ok (f s), s).
Definition modify {S} (f : S -> S) : M S unit := fun s => (Ok tt, f s).
Definition throw {S A} (e : exn) : M S A := fun s => (Throw e, s).
Definition lift {S A} (r : result A) : M S A := fun s => (r, s).

(** [for (x : l) body(x);] *)
Fixpoint for_each {S A} (l : list A) (body : A -> M S unit) : M S unit :=
  match l with
  | [] => mret tt
  | a :: l' => body a ;; for_each l' body
  end.

(** The same loop in a [const] member function, collecting one value per
    iteration. *)
Fixpoint collect {A B} (l : list A) (body : A -> result B) : result (list B) :=
  match l with
  | [] => Ok []
  | a :: l' => b ← body a; bs ← collect l' body; Ok (b :: bs)
  end.

(** [for (int i = 0; i < n; i++)] over an [int] bound. *)
Definition int_range (n : Z) : list Z := Z.of_nat <$> seq 0 (Z.to_nat n).

(** The [int] type: a result outside [-2^31, 2^31) is signed overflow. *)
Definition INT_MIN : Z := - 2 ^ 31.
Definition INT_MAX : Z := 2 ^ 31 - 1.
Definition int_ (z : Z) : result Z :=
  if (INT_MIN <=? z)%Z && (z <=? INT_MAX)%Z then Ok z else Throw undefined_behaviour.

(** [std::stable_sort(first, last, comp)]: the sorted rearrangement in which
    elements that [comp] does not order keep their relative position.  It is
    computed here by insertion from the right, which has that property. *)
Fixpoint stable_insert {A} (comp : A -> A -> bool) (x : A) (l : list A) : list A :=
  match l with
  | [] => [x]
  | y :: l' => if comp y x then y :: stable_insert comp x l' else x :: y :: l'
  end.

Definition stable_sort {A} (comp : A -> A -> bool) (l : list A) : list A :=
  foldr (stable_insert comp) [] l.

(** ** IEEE binary32 and [complex_float_t] *)

Module Float32.
Definition prec : Z := 24.
Definition emax : Z := 128.
Definition float : Type := spec_float.

Definition add : float -> float -> float := SFadd prec emax.
Definition sub : float -> float -> float := SFsub prec emax.
Definition mul : float -> float -> float := SFmul prec emax.
Definition div : float -> float -> float := SFdiv prec emax.
Definition opp : float -> float := SFopp.
Definition abs : float -> float := SFabs.
Definition ltb : float -> float -> bool := SFltb.
Definition gtb (a b : float) : bool := SFltb b a.

  (** Conversion of an integer (round to nearest even). *)
Definition of_Z (z : Z) : float := binary_normalize prec emax z 0 false.

Definition zero : float := S754_zero false.
Definition one : float := of_Z 1.
Definition two : float := of_Z 2.
  (** The literal [1.e-4F] (bits 0x38D1B717). *)
Definition lit_1em4 : float := S754_finite false 13743895 (-37).

  (** [INFINITY], [isnan], [isinf] and [copysign].  [spec_float] keeps no
      sign for a NaN; [false] stands for it, and [mul_signed_eq] shows
      that the complex product does not depend on it. *)
Definition infinity : float := S754_infinity false.
Definition isnan (x : float) : bool :=
    match x with S754_nan => true | _ => false end.
Definition isinf (x : float) : bool :=
    match x with S754_infinity _ => true | _ => false end.
Definition signbit (x : float) : bool :=
    match x with
    | S754_zero s | S754_infinity s | S754_finite s _ _ => s
    | S754_nan => false
    end.
Definition copysign (x y : float) : float :=
    match x with
    | S754_zero _ => S754_zero (signbit y)
    | S754_infinity _ => S754_infinity (signbit y)
    | S754_finite _ m e => S754_finite (signbit y) m e
    | S754_nan => S754_nan
    end.
End Float32.

Definition complex_float_t : Type := Float32.float * Float32.float.

Module Complex.
Import Float32.
Definition zero : complex_float_t := (Float32.zero, Float32.zero).
Definition add (a b : complex_float_t) : complex_float_t :=
    (Float32.add (fst a) (fst b), Float32.add (snd a) (snd b)).
  (** [copysign(isinf(x) ? 1 : 0, x)] and
      [if (isnan(x)) x = copysign(0, x)]. *)
Definition box (x : float) : float :=
    copysign (if isinf x then one else Float32.zero) x.
Definition nan_to_zero (x : float) : float :=
    if isnan x then copysign Float32.zero x else x.

  (** [operator*] of [std::complex<float>]: the product of two
      [float _Complex] values as the compiler's runtime computes it
      ([__mulsc3], C99 Annex G.5.1).  The four products give the real part
      [ac - bd] and the imaginary part [ad + bc]; when both come out as
      NaN, an infinite operand is replaced by 1 or 0 with its sign, a NaN
      in an operand by 0, and the parts are computed again and multiplied
      by infinity. *)
Definition mul (z w : complex_float_t) : complex_float_t :=
    let a := fst z in
    let b := snd z in
    let c := fst w in
    let d := snd w in
    let ac := Float32.mul a c in
    let bd := Float32.mul b d in
    let ad := Float32.mul a d in
    let bc := Float32.mul b c in
    let x := Float32.sub ac bd in
    let y := Float32.add ad bc in
    if isnan x && isnan y
    then
      let '(a, b, c, d, recalc) :=
        if isinf a || isinf b
        then (box a, box b, nan_to_zero c, nan_to_zero d, true)
        else (a, b, c, d, false) in
      let '(a, b, c, d, recalc) :=
        if isinf c || isinf d
        then (nan_to_zero a, nan_to_zero b, box c, box d, true)
        else (a, b, c, d, recalc) in
      let '(a, b, c, d, recalc) :=
        if negb recalc && (isinf ac || isinf bd || isinf ad || isinf bc)
        then (nan_to_zero a, nan_to_zero b, nan_to_zero c, nan_to_zero d, true)
        else (a, b, c, d, recalc) in
      if recalc : bool
      then (Float32.mul infinity
              (Float32.sub (Float32.mul a c) (Float32.mul b d)),
            Float32.mul infinity
              (Float32.add (Float32.mul a d) (Float32.mul b c)))
      else (x, y)
    else (x, y).
Definition conj (a : complex_float_t) : complex_float_t :=
    (fst a, Float32.opp (snd a)).
End Complex.

(** ** The parts of the ISMRMRD library the containers use *)

Module ISMRMRD.
Local Open Scope Z_scope.

  (** [enum ISMRMRD_AcquisitionFlags] (ismrmrd.h). *)
Definition ISMRMRD_ACQ_IS_NOISE_MEASUREMENT : Z := 19.
Definition ISMRMRD_ACQ_IS_PARALLEL_CALIBRATION : Z := 20.
Definition ISMRMRD_ACQ_IS_PARALLEL_CALIBRATION_AND_IMAGING : Z := 21.
Definition ISMRMRD_ACQ_IS_REVERSE : Z := 22.
Definition ISMRMRD_ACQ_LAST_IN_MEASUREMENT : Z := 25.

Definition ISMRMRD_USER_INTS : nat := 8.
  (** [enum ISMRMRD_DataTypes]. *)
Definition ISMRMRD_CXFLOAT : Z := 7.

  (** [ismrmrd_is_flag_set]: [(flags & (1 << (val - 1))) > 0]. *)
Definition is_flag_set (flags val : Z) : bool :=
    0 <? Z.land flags (Z.shiftl 1 (val - 1)).

Module EncodingCounters.
Record t : Type := mk {
      kspace_encode_step_1 : Z;
      kspace_encode_step_2 : Z;
      average : Z;
      slice : Z;
      contrast : Z;
      phase : Z;
      repetition : Z;
      set : Z;
      segment : Z }.
End EncodingCounters.

  (** [ISMRMRD::Acquisition]: the header fields the containers read, and
      the samples in storage order (sample index fastest, then channel). *)
Record Acquisition : Type := mkAcquisition {
    flags : Z;
    acquisition_time_stamp : Z;
    idx : EncodingCounters.t;
    data : list complex_float_t }.

Definition isFlagSet (acq : Acquisition) (val : Z) : bool :=
    is_flag_set (flags acq) val.

Record Limit : Type := mkLimit {
    minimum : Z;
    maximum : Z;
    center : Z }.

Module EncodingLimits.
Record t : Type := mk {
      average : option Limit;
      slice : option Limit;
      contrast : option Limit;
      phase : option Limit;
      repetition : option Limit;
      set : option Limit;
      segment : option Limit }.
End EncodingLimits.

Inductive TrajectoryType : Type :=
    CARTESIAN | EPI | RADIAL | GOLDENANGLE | SPIRAL | OTHER.

Record Encoding : Type := mkEncoding {
    trajectory : TrajectoryType;
    encodingLimits : EncodingLimits.t }.

Record IsmrmrdHeader : Type := mkHeader {
    encoding : list Encoding }.

Local Close Scope Z_scope.

  (** A C array of three elements and [v[i]]. *)
Definition array3 (A : Type) : Type := (A * A * A)%type.
Definition nth3 {A} (v : array3 A) (i : nat) : A :=
    match i with
    | O => v.1.1
    | S O => v.1.2
    | _ => v.2
    end.

Module ImageHeader.
Record t : Type := mk {
      data_type : Z;
      matrix_size : array3 Z;
      field_of_view : array3 Float32.float;
      channels : Z;
      position : array3 Float32.float;
      read_dir : array3 Float32.float;
      phase_dir : array3 Float32.float;
      slice_dir : array3 Float32.float;
      average : Z;
      slice : Z;
      contrast : Z;
      phase : Z;
      repetition : Z;
      set : Z }.

Definition with_channels (n : Z) (h : t) : t :=
      mk (data_type h) (matrix_size h) (field_of_view h) n (position h)
         (read_dir h) (phase_dir h) (slice_dir h) (average h) (slice h)
         (contrast h) (phase h) (repetition h) (set h).
End ImageHeader.

  (** [ISMRMRD::Image<complex_float_t>]: the header and the pixels in
      storage order (x fastest, then y, z, channel). *)
Module Image.
Record t : Type := mk {
      head : ImageHeader.t;
      data : list complex_float_t }.

Definition getHead (im : t) : ImageHeader.t := head im.
Definition getMatrixSizeX (im : t) : Z := nth3 (ImageHeader.matrix_size (head im)) 0.
Definition getMatrixSizeY (im : t) : Z := nth3 (ImageHeader.matrix_size (head im)) 1.
Definition getMatrixSizeZ (im : t) : Z := nth3 (ImageHeader.matrix_size (head im)) 2.
Definition getNumberOfChannels (im : t) : Z := ImageHeader.channels (head im).
Definition getAverage (im : t) : Z := ImageHeader.average (head im).
Definition getSlice (im : t) : Z := ImageHeader.slice (head im).
Definition getContrast (im : t) : Z := ImageHeader.contrast (head im).
Definition getPhase (im : t) : Z := ImageHeader.phase (head im).
Definition getRepetition (im : t) : Z := ImageHeader.repetition (head im).
Definition getSet (im : t) : Z := ImageHeader.set (head im).

Definition getNumberOfDataElements (im : t) : nat :=
      Z.to_nat (getMatrixSizeX im * getMatrixSizeY im * getMatrixSizeZ im *
                getNumberOfChannels im).

    (** The offset [operator()(ix, iy, iz, channel)] computes. *)
Definition offset (im : t) (ix iy iz channel : nat) : nat :=
      let sx := Z.to_nat (getMatrixSizeX im) in
      let sy := Z.to_nat (getMatrixSizeY im) in
      let sz := Z.to_nat (getMatrixSizeZ im) in
      ix + sx * iy + sx * sy * iz + sx * sy * sz * channel.

    (** Reading and writing through a pointer into the pixel storage. *)
Definition read (im : t) (k : nat) : result complex_float_t :=
      match data im !! k with
      | Some v => Ok v
      | None => Throw undefined_behaviour
      end.
Definition write (k : nat) (v : complex_float_t) (im : t) : result t :=
      if k <? length (data im)
      then Ok (mk (head im) (<[k := v]> (data im)))
      else Throw undefined_behaviour.

Definition at_ (im : t) (ix iy iz channel : nat) : result complex_float_t :=
      read im (offset im ix iy iz channel).
Definition set_at (ix iy iz channel : nat) (v : complex_float_t) (im : t)
      : result t :=
      write (offset im ix iy iz channel) v im.

Section Storage.
      (** What [malloc] and [realloc] leave in storage they do not
          initialise.  Every result below is stated for all its values. *)
Variable indeterminate : complex_float_t.

      (** [ismrmrd_make_consistent_image]: the storage is reallocated to
          the size the header gives, unless that size is zero. *)
Definition make_consistent (im : t) : t :=
        let n := getNumberOfDataElements im in
        if 0 <? n then mk (head im) (resize n indeterminate (data im)) else im.

      (** [Image(matrix_size_x, matrix_size_y, matrix_size_z, channels)] *)
Definition new (sx sy sz nc : Z) : t :=
        make_consistent
          (mk (ImageHeader.mk ISMRMRD_CXFLOAT (sx, sy, sz)
                 (Float32.zero, Float32.zero, Float32.zero) nc
                 (Float32.zero, Float32.zero, Float32.zero)
                 (Float32.zero, Float32.zero, Float32.zero)
                 (Float32.zero, Float32.zero, Float32.zero)
                 (Float32.zero, Float32.zero, Float32.zero)
                 0%Z 0%Z 0%Z 0%Z 0%Z 0%Z) []).

Definition setHead (other : ImageHeader.t) (im : t) : result t :=
        if (ImageHeader.data_type other =? ImageHeader.data_type (head im))%Z
        then Ok (make_consistent (mk other (data im)))
        else Throw (runtime_error "Cannot assign a header of a different data type.").

Definition setNumberOfChannels (n : Z) (im : t) : t :=
        make_consistent (mk (ImageHeader.with_channels n (head im)) (data im)).
End Storage.
End Image.
End ISMRMRD.
Import ISMRMRD.

(** [AcquisitionsInfo] caches the header its XML text deserialises to; the
    text is identified with that header. *)
Definition AcquisitionsInfo : Type := IsmrmrdHeader.

(** [TO_BE_IGNORED(acq)] *)
Definition TO_BE_IGNORED (acq : Acquisition) : bool :=
  negb (isFlagSet acq ISMRMRD_ACQ_IS_PARALLEL_CALIBRATION) &&
  negb (isFlagSet acq ISMRMRD_ACQ_IS_PARALLEL_CALIBRATION_AND_IMAGING) &&
  negb (isFlagSet acq ISMRMRD_ACQ_LAST_IN_MEASUREMENT) &&
  negb (isFlagSet acq ISMRMRD_ACQ_IS_REVERSE) &&
  (flags acq >=? Z.shiftl 1 (ISMRMRD_ACQ_IS_NOISE_MEASUREMENT - 1))%Z.

(** ** KSpaceSubset *)

Module KSpaceSubset.
Definition num_kspace_dims_ : nat := 7 + ISMRMRD_USER_INTS.

  (** [std::array<int, num_kspace_dims_>] and [std::vector<int>]; the
      index set only ever receives values of a loop counter. *)
Definition TagType : Type := list Z.
Definition SetType : Type := list nat.

Record t : Type := mk {
    tag_ : TagType;
    idx_set_ : SetType }.

  (** [KSpaceSubset(TagType tag)] *)
Definition of_tag (tag : TagType) : t := mk tag [].

  (** [tag[k]] *)
Definition tag_at (tag : TagType) (k : nat) : Z := tag !!! k.

Definition get_tag (s : t) : TagType := tag_ s.
Definition get_idx_set (s : t) : SetType := idx_set_ s.
Definition add_idx_to_set (idx : nat) (s : t) : t :=
    mk (tag_ s) (idx_set_ s ++ [idx]).

Definition get_tag_from_acquisition (acq : Acquisition) : TagType :=
    [ EncodingCounters.average (idx acq);
      EncodingCounters.slice (idx acq);
      EncodingCounters.contrast (idx acq);
      EncodingCounters.phase (idx acq);
      EncodingCounters.repetition (idx acq);
      EncodingCounters.set (idx acq);
      0%Z ] ++ replicate ISMRMRD_USER_INTS 0%Z.

Definition get_tag_from_img (img : Image.t) : TagType :=
    [ Image.getAverage img;
      Image.getSlice img;
      Image.getContrast img;
      Image.getPhase img;
      Image.getRepetition img;
      Image.getSet img;
      0%Z ] ++ replicate ISMRMRD_USER_INTS 0%Z.
  (** [is_first_set() const] *)
Definition is_first_set (s : t) : bool :=
    let is_first := (tag_at (tag_ s) 0 =? 0)%Z in
    if is_first
    then foldl (fun is_first dim => is_first && (tag_at (tag_ s) dim =? 0)%Z)
               is_first (seq 2 (num_kspace_dims_ - 2))
    else is_first.
End KSpaceSubset.

(** ** MRAcquisitionData, with the storage of AcquisitionsVector *)

Module MRAcquisitionData.
Import KSpaceSubset.

Record t : Type := mk {
    sorted_ : bool;
    index_ : list nat;             (* [std::vector<int>], filled by [std::iota] *)
    sorting_ : list KSpaceSubset.t;
    acqs_info_ : AcquisitionsInfo;
    acqs_ : list Acquisition }.

Definition with_sorted_ (b : bool) (c : t) : t :=
    mk b (index_ c) (sorting_ c) (acqs_info_ c) (acqs_ c).
Definition with_index_ (ix : list nat) (c : t) : t :=
    mk (sorted_ c) ix (sorting_ c) (acqs_info_ c) (acqs_ c).
Definition with_sorting_ (s : list KSpaceSubset.t) (c : t) : t :=
    mk (sorted_ c) (index_ c) s (acqs_info_ c) (acqs_ c).
Definition with_acqs_info_ (i : AcquisitionsInfo) (c : t) : t :=
    mk (sorted_ c) (index_ c) (sorting_ c) i (acqs_ c).
Definition with_acqs_ (a : list Acquisition) (c : t) : t :=
    mk (sorted_ c) (index_ c) (sorting_ c) (acqs_info_ c) a.

  (** [AcquisitionsVector(const AcquisitionsInfo& info)] *)
Definition AcquisitionsVector (info : AcquisitionsInfo) : t :=
    mk false [] [] info [].

Definition number (c : t) : nat := length (acqs_ c).
Definition sorted (c : t) : bool := sorted_ c.
Definition set_sorted (b : bool) : M t unit := modify (with_sorted_ b).
Definition acquisitions_info (c : t) : AcquisitionsInfo := acqs_info_ c.
Definition set_acquisitions_info (i : AcquisitionsInfo) : M t unit :=
    modify (with_acqs_info_ i).

  (** [int index(int i) const].  The argument is never negative here: it
      is a loop counter or an element of an index list. *)
Definition index (c : t) (i : nat) : result nat :=
    let ni := length (index_ c) in
    if ((0 <? ni) && (ni <=? i)) || (number c <=? i)
    then Throw (LocalisedException "Aquisition number is out of range")
    else if 0 <? ni
         then match index_ c !! i with
              | Some v => Ok v
              | None => Throw undefined_behaviour
              end
         else Ok i.

  (** [AcquisitionsVector::get_acquisition(num, acq)]: the returned [int]
      and the value left in the out-parameter [acq]. *)
Definition get_acquisition (c : t) (num : nat) : result (Z * Acquisition) :=
    ind ← index c num;
    match acqs_ c !! ind with
    | None => Throw undefined_behaviour
    | Some acq =>
        if negb (isFlagSet acq ISMRMRD_ACQ_IS_PARALLEL_CALIBRATION) &&
           negb (isFlagSet acq ISMRMRD_ACQ_IS_PARALLEL_CALIBRATION_AND_IMAGING) &&
           negb (isFlagSet acq ISMRMRD_ACQ_LAST_IN_MEASUREMENT) &&
           negb (isFlagSet acq ISMRMRD_ACQ_IS_REVERSE) &&
           (flags acq >=? Z.shiftl 1 (ISMRMRD_ACQ_IS_NOISE_MEASUREMENT - 1))%Z
        then Ok (0%Z, acq)
        else Ok (1%Z, acq)
    end.

Definition set_acquisition (num : nat) (acq : Acquisition) : M t unit :=
    fun c =>
      match index c num with
      | Throw e => (Throw e, c)
      | Ok ind =>
          if ind <? length (acqs_ c)
          then (Ok tt, with_acqs_ (<[ind := acq]> (acqs_ c)) c)
          else (Throw undefined_behaviour, c)
      end.

Definition append_acquisition (acq : Acquisition) : M t unit :=
    modify (fun c => with_acqs_ (acqs_ c ++ [acq]) c).

  (** [AcquisitionsVector::empty()] *)
Definition empty : M t unit :=
    modify (fun c => with_index_ [] (with_acqs_ [] c)).

  (** *** organise_kspace *)

Definition get_num_enc_states (enc_lim : option Limit) : Z :=
    match enc_lim with
    | Some lim => (maximum lim - minimum lim + 1)%Z
    | None => 1%Z
    end.

  (** The seven nested [for] loops: one [push_back] per combination. *)
Definition candidate_subsets (NAvg NSlice NCont NPhase NRep NSet NSegm : Z)
    : list KSpaceSubset.t :=
    ia ← int_range NAvg;
    isl ← int_range NSlice;
    ic ← int_range NCont;
    ip ← int_range NPhase;
    ir ← int_range NRep;
    iset ← int_range NSet;
    iseg ← int_range NSegm;
    [ KSpaceSubset.of_tag
        ([ia; isl; ic; ip; ir; iset; iseg] ++ replicate ISMRMRD_USER_INTS 0%Z) ].

  (** [(((((tag[0]*NSlice + tag[1])*NCont + tag[2])*NPhase + tag[3])*NRep
        + tag[4])*NSet + tag[5])*NSegm + tag[6]], evaluated in [int]. *)
Definition access_idx (tag : TagType) (NSlice NCont NPhase NRep NSet NSegm : Z)
    : result Z :=
    v ← int_ (tag_at tag 0 * NSlice)%Z;
    v ← int_ (v + tag_at tag 1)%Z;
    v ← int_ (v * NCont)%Z;
    v ← int_ (v + tag_at tag 2)%Z;
    v ← int_ (v * NPhase)%Z;
    v ← int_ (v + tag_at tag 3)%Z;
    v ← int_ (v * NRep)%Z;
    v ← int_ (v + tag_at tag 4)%Z;
    v ← int_ (v * NSet)%Z;
    v ← int_ (v + tag_at tag 5)%Z;
    v ← int_ (v * NSegm)%Z;
    int_ (v + tag_at tag 6)%Z.

  (** [this->sorting_.at(access_idx).add_idx_to_set(i)] *)
Definition sorting_at_add (access : Z) (i : nat) : M t unit :=
    fun c =>
      if (0 <=? access)%Z && (access <? Z.of_nat (length (sorting_ c)))%Z
      then (Ok tt,
            with_sorting_ (alter (add_idx_to_set i) (Z.to_nat access) (sorting_ c)) c)
      else (Throw out_of_range, c).

  (** The body of the loop over the logical elements. *)
Definition assign_to_subset (NSlice NCont NPhase NRep NSet NSegm : Z) (i : nat)
    : M t unit :=
    c ← gets id;
    ra ← lift (get_acquisition c i);
    let tag := get_tag_from_acquisition ra.2 in
    access ← lift (access_idx tag NSlice NCont NPhase NRep NSet NSegm);
    sorting_at_add access i.

  (** The predicate of the final [std::remove_if] is the negation of this. *)
Definition non_empty (s : KSpaceSubset.t) : Prop := get_idx_set s ≠ [].
#[global] Instance non_empty_dec s : Decision (non_empty s).
Proof. unfold non_empty. apply _. Defined.

Definition organise_kspace : M t unit :=
    modify (with_sorting_ []) ;;
    header ← gets acquisitions_info;
    match encoding header with
    | [] => throw undefined_behaviour               (* [encoding_vector[0]] *)
    | _ :: _ :: _ =>
        throw (LocalisedException
          "Curerntly only one encoding is supported. You supplied multiple in one ismrmrd file.")
    | [enc] =>
        let enc_lims := encodingLimits enc in
        let NAvg := get_num_enc_states (EncodingLimits.average enc_lims) in
        let NSlice := get_num_enc_states (EncodingLimits.slice enc_lims) in
        let NCont := get_num_enc_states (EncodingLimits.contrast enc_lims) in
        let NPhase := get_num_enc_states (EncodingLimits.phase enc_lims) in
        let NRep := get_num_enc_states (EncodingLimits.repetition enc_lims) in
        let NSet := get_num_enc_states (EncodingLimits.set enc_lims) in
        let NSegm := 1%Z in
        modify (with_sorting_
                  (candidate_subsets NAvg NSlice NCont NPhase NRep NSet NSegm)) ;;
        n ← gets number;
        for_each (seq 0 n) (assign_to_subset NSlice NCont NPhase NRep NSet NSegm) ;;
        modify (fun c => with_sorting_ (filter non_empty (sorting_ c)) c)
    end.

  (** *** sort_by_time *)

Definition sort_by_time : M t unit :=
    N ← gets number;
    modify (fun c => with_index_ (resize N 0 (index_ c)) c) ;;
    (if N =? 0
     then mret tt     (* only a warning on [std::cerr] *)
     else
       c ← gets id;
       a ← lift (collect (seq 0 N)
                   (fun i => ra ← get_acquisition c i;
                             Ok (acquisition_time_stamp ra.2)));
       modify (with_index_
                 (stable_sort (fun i j => (a !!! i <? a !!! j)%Z) (seq 0 N)))) ;;
    organise_kspace ;;
    modify (with_sorted_ true).

Definition sort : M t unit := sort_by_time.

  (** [get_kspace_order() const] *)
Definition get_kspace_order (c : t) : result (list SetType) :=
    if number c =? 0
    then Throw (LocalisedException
      "Your acquisition data object contains no data, so no order is determined.")
    else if length (sorting_ c) =? 0
    then Throw (LocalisedException
      "The kspace is not sorted yet. Please call organise_kspace(), sort() or sort_by_time() first.")
    else Ok (filter (fun s : SetType => s ≠ []) (get_idx_set <$> sorting_ c)).

  (** *** Sub-containers *)

Definition get_flagged_acquisitions_index (c : t) (flags : list Z)
    : result (list nat) :=
    match flags with
    | [] => Ok []
    | _ =>
        hits ← collect (seq 0 (number c))
                 (fun i => ra ← get_acquisition c i;
                           Ok (i, foldl (fun one_flag_is_set it =>
                                           one_flag_is_set || isFlagSet ra.2 it)
                                        false flags));
        Ok ((filter (fun p : nat * bool => p.2 = true) hits).*1)
    end.

  (** [this->get_subset(subset, subset_idx)]: the state is [subset]. *)
Definition get_subset (this : t) (subset_idx : list nat) : M t unit :=
    set_acquisitions_info (acquisitions_info this) ;;
    n ← gets number;
    if 0 <? n
    then throw (LocalisedException
      "Please pass an empty MRAcquisitionnData container to store the subset in")
    else for_each subset_idx
           (fun i => ra ← lift (get_acquisition this i); append_acquisition ra.2).

  (** [AcquisitionsVector::clone_impl() const] *)
Definition clone_impl (c : t) : result t :=
    let body : M t unit :=
      for_each (seq 0 (number c))
        (fun i => ra ← lift (get_acquisition c i); append_acquisition ra.2) ;;
      set_sorted (sorted c) ;;
      if sorted c then organise_kspace else mret tt in
    match body (AcquisitionsVector (acqs_info_ c)) with
    | (Ok _, ptr_ad) => Ok ptr_ad
    | (Throw e, _) => Throw e
    end.

Definition clone (c : t) : result t := clone_impl c.

  (** [get_trajectory_type() const] *)
Definition get_trajectory_type (c : t) : result TrajectoryType :=
    match encoding (acquisitions_info c) with
    | [] => Throw undefined_behaviour             (* [hdr.encoding[0]] *)
    | enc :: _ => Ok (trajectory enc)
    end.

  (** *** Acquisition algebra *)

  (** The pointer loop of the static [binary_op(acq_x, acq_y, f)]. *)
Fixpoint binary_op_data (f : complex_float_t -> complex_float_t -> complex_float_t)
      (px py : list complex_float_t) : list complex_float_t :=
    match px, py with
    | x :: px', y :: py' => f x y :: binary_op_data f px' py'
    | _, _ => py
    end.

Definition acq_binary_op (f : complex_float_t -> complex_float_t -> complex_float_t)
      (acq_x acq_y : Acquisition) : Acquisition :=
    mkAcquisition (flags acq_y) (acquisition_time_stamp acq_y) (idx acq_y)
                  (binary_op_data f (data acq_x) (data acq_y)).

  (** The static [multiply(acq_x, acq_y)], with [DataContainer::product]. *)
Definition acq_multiply : Acquisition -> Acquisition -> Acquisition :=
    acq_binary_op Complex.mul.

  (** The loop of [binary_op(a_x, a_y, f)].  Every iteration advances one
      of [ix], [iy], [k], so [fuel] bounds the number of iterations. *)
Fixpoint binary_op_loop (fuel : nat) (f : Acquisition -> Acquisition -> Acquisition)
      (x y : t) (nx ny : nat) (isempty : bool) (ix iy k : nat) : M t unit :=
    match fuel with
    | O => throw undefined_behaviour
    | S fuel' =>
        if (ix <? nx) && (iy <? ny) then
          rx ← lift (get_acquisition x ix);
          if (rx.1 =? 0)%Z
          then binary_op_loop fuel' f x y nx ny isempty (S ix) iy k
          else
            ry ← lift (get_acquisition y iy);
            if (ry.1 =? 0)%Z
            then binary_op_loop fuel' f x y nx ny isempty ix (S iy) k
            else
              let apply : M t unit :=
                let ay := f rx.2 ry.2 in
                (if isempty then append_acquisition ay else set_acquisition k ay) ;;
                binary_op_loop fuel' f x y nx ny isempty (S ix) (S iy) (S k) in
              if isempty then apply
              else
                c ← gets id;
                racq ← lift (get_acquisition c k);
                if (racq.1 =? 0)%Z
                then binary_op_loop fuel' f x y nx ny isempty ix iy (S k)
                else apply
        else mret tt
    end.

Definition binary_op (x y : t) (f : Acquisition -> Acquisition -> Acquisition)
    : M t unit :=
    if negb (sorted x) || negb (sorted y)
    then throw (LocalisedException
      "binary algebraic operations cannot be applied to unsorted data")
    else
      let nx := number x in
      let ny := number y in
      n ← gets number;
      let isempty := n <? 1 in
      binary_op_loop (S (nx + ny + n)) f x y nx ny isempty 0 0 0 ;;
      set_sorted true ;;
      organise_kspace.

  (** [multiply(const DataContainer& a_x, const DataContainer& a_y)] *)
Definition multiply (x y : t) : M t unit := binary_op x y acq_multiply.
  (** *** Access to the samples *)

  (** The acquisition [acq] with its samples replaced. *)
Definition with_data (d : list complex_float_t) (acq : Acquisition) : Acquisition :=
    mkAcquisition (flags acq) (acquisition_time_stamp acq) (idx acq) d.

  (** [set_subset(subset, subset_idx)] *)
Definition set_subset (subset : t) (subset_idx : list nat) : M t unit :=
    if negb (number subset =? length subset_idx)
    then throw (LocalisedException
      "Number of subset positions and number of acquisitions in subset don't match.")
    else for_each (seq 0 (length subset_idx)) (fun i =>
           ra ← lift (get_acquisition subset i);
           match subset_idx !! i with
           | Some num => set_acquisition num ra.2
           | None => throw undefined_behaviour
           end).




  (** [AcquisitionsVector::conjugate_impl()] *)
Definition conjugate_impl : M t unit :=
    na ← gets number;
    for_each (seq 0 na) (fun a =>
      c ← gets id;
      ia ← lift (index c a);
      match acqs_ c !! ia with
      | None => throw undefined_behaviour
      | Some acq =>
          modify (fun c =>
            with_acqs_ (<[ia := with_data (Complex.conj <$> data acq) acq]> (acqs_ c)) c)
      end).

  (** The static [max(acq_a)] and [max(void* ptr) const]: the value stored
      through [ptr]. *)
Definition larger (z zi : complex_float_t) : complex_float_t :=
    let r := fst z in
    let ri := fst zi in
    if Float32.gtb ri r then zi else z.

Definition acq_max (acq_a : Acquisition) : complex_float_t :=
    foldl larger Complex.zero (data acq_a).

Fixpoint max_loop (c : t) (positions : list nat) (z : complex_float_t)
    : result complex_float_t :=
    match positions with
    | [] => Ok z
    | i :: positions' =>
        ra ← get_acquisition c i;
        if (ra.1 =? 0)%Z
        then max_loop c positions' z
        else max_loop c positions' (larger z (acq_max ra.2))
    end.

Definition max (c : t) : result complex_float_t :=
    max_loop c (seq 0 (number c)) Complex.zero.
End MRAcquisitionData.

(** ** ImageWrap and the voxel geometry *)

(** Modelled from the spec: [ImageWrap] (gadgetron_image_wrap.h) is not
    among the sources.  It is the type-erased wrapper of the spec's data
    model: a pixel-type tag and the image it owns; [get_dim] yields the
    pixel dimensions x, y, z and the number of channels. *)
Module ImageWrap.
Record t : Type := mk {
    type_ : Z;
    image : Image.t }.

Definition type (iw : t) : Z := type_ iw.
Definition head (iw : t) : ImageHeader.t := Image.head (image iw).
Definition get_dim (iw : t) : list Z :=
    [ Image.getMatrixSizeX (image iw); Image.getMatrixSizeY (image iw);
      Image.getMatrixSizeZ (image iw); Image.getNumberOfChannels (image iw) ].

  (** [static_cast<const CFImage*>(iw.ptr_image())]: defined only when the
      wrapped image has complex float pixels. *)
Definition as_CFImage (iw : t) : result Image.t :=
    if (type_ iw =? ISMRMRD_CXFLOAT)%Z then Ok (image iw) else Throw undefined_behaviour.
End ImageWrap.

(** Modelled from the spec: [VoxelisedGeometricalInfo3D]
    (sirf/common/GeometricalInfo.h) is not among the sources.  It is the
    spec's voxel grid descriptor: offset, spacing, size and direction
    matrix. *)
Record VoxelisedGeometricalInfo3D : Type := mkGeom {
  geom_offset : array3 Float32.float;
  geom_spacing : array3 Float32.float;
  geom_size : array3 Z;
  geom_direction : array3 (array3 Float32.float) }.

(** Modelled from the spec: [Multisort::sort] (sirf/common/multisort.h) is
    not among the sources.  Per the spec the sort is "a single
    combined-tuple stable sort": [index[i]] is the position of the tuple
    that is i-th in ascending lexicographic order, ties keeping their
    order. *)
Module Multisort.
Definition less (a b : array3 Float32.float) : bool :=
    if Float32.ltb a.1.1 b.1.1 then true
    else if Float32.gtb a.1.1 b.1.1 then false
    else if Float32.ltb a.1.2 b.1.2 then true
    else if Float32.gtb a.1.2 b.1.2 then false
    else Float32.ltb a.2 b.2.

Definition sort (vt : list (array3 Float32.float)) : list nat :=
    stable_sort (fun i j => match vt !! i, vt !! j with
                            | Some a, Some b => less a b
                            | _, _ => false
                            end)
                (seq 0 (length vt)).
End Multisort.

(** ** GadgetronImageData, with the storage of GadgetronImagesVector *)

Module GadgetronImagesVector.
Record t : Type := mk {
    sorted_ : bool;
    index_ : list nat;
    acqs_info_ : AcquisitionsInfo;
    images_ : list ImageWrap.t;
    geom_info_ : option VoxelisedGeometricalInfo3D }.

Definition with_sorted_ (b : bool) (c : t) : t :=
    mk b (index_ c) (acqs_info_ c) (images_ c) (geom_info_ c).
Definition with_index_ (ix : list nat) (c : t) : t :=
    mk (sorted_ c) ix (acqs_info_ c) (images_ c) (geom_info_ c).
Definition with_acqs_info_ (i : AcquisitionsInfo) (c : t) : t :=
    mk (sorted_ c) (index_ c) i (images_ c) (geom_info_ c).
Definition with_images_ (im : list ImageWrap.t) (c : t) : t :=
    mk (sorted_ c) (index_ c) (acqs_info_ c) im (geom_info_ c).
Definition with_geom_info_ (g : option VoxelisedGeometricalInfo3D) (c : t) : t :=
    mk (sorted_ c) (index_ c) (acqs_info_ c) (images_ c) g.

Definition number (c : t) : nat := length (images_ c).
Definition items (c : t) : nat := length (images_ c).
Definition sorted (c : t) : bool := sorted_ c.
Definition get_meta_data (c : t) : AcquisitionsInfo := acqs_info_ c.
Definition set_geom_info (g : VoxelisedGeometricalInfo3D) : M t unit :=
    modify (with_geom_info_ (Some g)).

Definition index (c : t) (i : nat) : result nat :=
    let ni := length (index_ c) in
    if ((0 <? ni) && (ni <=? i)) || (number c <=? i)
    then Throw (LocalisedException
      "Image number is out of range. You tried to look up an image number that is not inside the container.")
    else if 0 <? ni
         then match index_ c !! i with
              | Some v => Ok v
              | None => Throw undefined_behaviour
              end
         else Ok i.

  (** [sptr_image_wrap(im_num)]: [images_.at(index(im_num))] *)
Definition sptr_image_wrap (c : t) (im_num : nat) : result ImageWrap.t :=
    i ← index c im_num;
    match images_ c !! i with
    | Some iw => Ok iw
    | None => Throw out_of_range
    end.
Definition image_wrap (c : t) (im_num : nat) : result ImageWrap.t :=
    sptr_image_wrap c im_num.

Definition append (iw : ImageWrap.t) : M t unit :=
    modify (fun c => with_images_ (images_ c ++ [iw]) c).
Definition clear_data : M t unit := modify (with_images_ []).

  (** [get_image_dimensions(im_num, dim)]: the four values left in [dim]. *)
Definition get_image_dimensions (c : t) (im_num : nat) : result (list Z) :=
    iw ← image_wrap c im_num;
    Ok (ImageWrap.get_dim iw).

  (** The [for (int i = 1; i < number(); ++i)] loop of
      [check_dimension_consistency]. *)
Fixpoint dims_match_loop (c : t) (first_img_dims : list Z) (ims : list nat)
      (dims_match : bool) : result bool :=
    match ims with
    | [] => Ok dims_match
    | i :: ims' =>
        temp_img_dims ← get_image_dimensions c 0;
        dims_match_loop c first_img_dims ims'
          (dims_match && bool_decide (first_img_dims = temp_img_dims))
    end.

Definition check_dimension_consistency (c : t) : result bool :=
    first_img_dims ← get_image_dimensions c 0;
    dims_match_loop c first_img_dims (seq 1 (number c - 1)) true.

  (** [dimensions()["c"]] *)
Definition dimensions_c (c : t) : result Z :=
    iw ← image_wrap c 0;
    Ok (ImageWrap.get_dim iw !!! 3).

  (** *** sort *)

Definition sort_key (head : ImageHeader.t) : array3 Float32.float :=
    let p := ImageHeader.position head in
    let s := ImageHeader.slice_dir head in
    (Float32.opp
       (Float32.add
          (Float32.add (Float32.mul (nth3 p 0) (nth3 s 0))
                       (Float32.mul (nth3 p 1) (nth3 s 1)))
          (Float32.mul (nth3 p 2) (nth3 s 2))),
     Float32.of_Z (ImageHeader.contrast head),
     Float32.of_Z (ImageHeader.repetition head)).

Definition sort : M t unit :=
    c ← gets id;
    let ni := number c in
    vt ← lift (collect (seq 0 ni)
                 (fun i => iw ← image_wrap c i; Ok (sort_key (ImageWrap.head iw))));
    modify (with_index_ (Multisort.sort vt)) ;;
    modify (with_sorted_ true) ;;
    c ← gets id;
    sorted_images ← lift (collect (seq 0 ni) (sptr_image_wrap c));
    modify (with_images_ sorted_images) ;;
    modify (with_index_ []).

  (** *** set_up_geom_info *)

Definition is_unit_vector (vec : array3 Float32.float) : bool :=
    Float32.ltb
      (Float32.abs
         (Float32.sub
            (Float32.add
               (Float32.add (Float32.mul (nth3 vec 0) (nth3 vec 0))
                            (Float32.mul (nth3 vec 1) (nth3 vec 1)))
               (Float32.mul (nth3 vec 2) (nth3 vec 2)))
            Float32.one))
      Float32.lit_1em4.

Definition are_vectors_equal (vec1 vec2 : array3 Float32.float) : bool :=
    forallb (fun i => negb (Float32.gtb
                              (Float32.abs (Float32.sub (nth3 vec1 i) (nth3 vec2 i)))
                              Float32.lit_1em4))
            [0; 1; 2].

Definition get_projection_of_position_in_slice (ih : ImageHeader.t) : Float32.float :=
    let p := ImageHeader.position ih in
    let s := ImageHeader.slice_dir ih in
    Float32.add
      (Float32.add (Float32.mul (nth3 p 0) (nth3 s 0))
                   (Float32.mul (nth3 p 1) (nth3 s 1)))
      (Float32.mul (nth3 p 2) (nth3 s 2)).

Definition get_slice_spacing (ih1 ih2 : ImageHeader.t) : Float32.float :=
    Float32.abs (Float32.sub (get_projection_of_position_in_slice ih1)
                             (get_projection_of_position_in_slice ih2)).

  (** The loop "check that the read, phase and slice directions are
      constant": [None] when it leaves the function through [return],
      otherwise the largest slice index seen. *)
Fixpoint directions_loop (c : t) (ih1 : ImageHeader.t) (ims : list nat)
      (number_slices : Z) : result (option Z) :=
    match ims with
    | [] => Ok (Some number_slices)
    | im :: ims' =>
        iw ← image_wrap c im;
        let ih := ImageWrap.head iw in
        let number_slices :=
          if (ImageHeader.slice ih >? number_slices)%Z
          then ImageHeader.slice ih else number_slices in
        if negb (are_vectors_equal (ImageHeader.read_dir ih1) (ImageHeader.read_dir ih) &&
                 are_vectors_equal (ImageHeader.phase_dir ih1) (ImageHeader.phase_dir ih) &&
                 are_vectors_equal (ImageHeader.slice_dir ih1) (ImageHeader.slice_dir ih))
        then Ok None
        else directions_loop c ih1 ims' number_slices
    end.

  (** The loop "check that spacing is constant": [false] when it leaves
      the function through [return]. *)
Fixpoint spacing_loop (c : t) (spacing2 : Float32.float) (ims : list nat)
    : result bool :=
    match ims with
    | [] => Ok true
    | im :: ims' =>
        iw1 ← image_wrap c im;
        iw2 ← image_wrap c (im + 1);
        let new_spacing := get_slice_spacing (ImageWrap.head iw1) (ImageWrap.head iw2) in
        if Float32.gtb (Float32.abs (Float32.sub spacing2 new_spacing)) Float32.lit_1em4
        then Ok false
        else spacing_loop c spacing2 ims'
    end.

Definition geometry_of (ih1 : ImageHeader.t) (spacing : array3 Float32.float)
      (size : array3 Z) : VoxelisedGeometricalInfo3D :=
    let row (axis : nat) : array3 Float32.float :=
      (Float32.opp (nth3 (ImageHeader.read_dir ih1) axis),
       Float32.opp (nth3 (ImageHeader.phase_dir ih1) axis),
       Float32.opp (nth3 (ImageHeader.slice_dir ih1) axis)) in
    let direction : array3 (array3 Float32.float) := (row 0, row 1, row 2) in
    let fov := ImageHeader.field_of_view ih1 in
    let off (i : nat) : Float32.float :=
      Float32.sub
        (Float32.sub
           (Float32.sub (nth3 (ImageHeader.position ih1) i)
              (Float32.mul (nth3 (nth3 direction i) 0)
                           (Float32.div (nth3 fov 0) Float32.two)))
           (Float32.mul (nth3 (nth3 direction i) 1)
                        (Float32.div (nth3 fov 1) Float32.two)))
        (Float32.mul (nth3 (nth3 direction i) 2)
                     (Float32.div (nth3 fov 2) Float32.two)) in
    mkGeom (off 0, off 1, off 2) spacing size direction.

Definition set_up_geom_info : M t unit :=
    n ← gets number;
    if n <? 1 then mret tt
    else
      is_sorted ← gets sorted;
      (if is_sorted : bool then mret tt else sort) ;;
      c ← gets id;
      iw1 ← lift (image_wrap c 0);
      let ih1 := ImageWrap.head iw1 in
      if negb (is_unit_vector (ImageHeader.read_dir ih1) &&
               is_unit_vector (ImageHeader.phase_dir ih1) &&
               is_unit_vector (ImageHeader.slice_dir ih1))
      then mret tt
      else
        ns ← lift (directions_loop c ih1 (seq 1 (n - 1)) (ImageHeader.slice ih1));
        match ns with
        | None => mret tt
        | Some number_slices =>
            let number_slices := ((number_slices + 1) mod 2 ^ 16)%Z in   (* uint16_t *)
            let size := ImageHeader.matrix_size ih1 in
            let fov := ImageHeader.field_of_view ih1 in
            let spacing : array3 Float32.float :=
              (Float32.div (nth3 fov 0) (Float32.of_Z (nth3 size 0)),
               Float32.div (nth3 fov 1) (Float32.of_Z (nth3 size 1)),
               Float32.div (nth3 fov 2) (Float32.of_Z (nth3 size 2))) in
            let is_2d_stack := (number_slices >? 1)%Z && (nth3 size 2 =? 1)%Z in
            if (number_slices >? 1)%Z && (nth3 size 2 >? 1)%Z
            then throw (LocalisedException
              "You try to set up the geometry information for 3D data that contains multiple slices. This special case is unavailable.")
            else if is_2d_stack then
              let size : array3 Z := (size.1.1, size.1.2, number_slices) in
              iw2 ← lift (image_wrap c 1);
              let ih2 := ImageWrap.head iw2 in
              (* the comparison with [tolerance_mm] only prints a warning *)
              let spacing : array3 Float32.float :=
                (spacing.1.1, spacing.1.2, get_slice_spacing ih1 ih2) in
              ok ← lift (spacing_loop c (nth3 spacing 2) (seq 0 (n - 1)));
              if ok : bool
              then set_geom_info (geometry_of ih1 spacing size)
              else mret tt
            else set_geom_info (geometry_of ih1 spacing size)
        end.

  (** [GadgetronImageData::set_meta_data] *)
Definition set_meta_data (acqs_info : AcquisitionsInfo) : M t unit :=
    modify (with_acqs_info_ acqs_info) ;;
    set_up_geom_info.
End GadgetronImagesVector.

(** Running a member function on an object that is then handed on: an
    exception discards the object. *)
Definition run {S} (m : M S unit) (s : S) : result S :=
  match m s with
  | (Ok _, s') => Ok s'
  | (Throw e, _) => Throw e
  end.

(** ** CoilImagesVector *)

Module CoilImagesVector.
Import MRAcquisitionData.

Definition calibration_flags : list Z :=
    [ ISMRMRD_ACQ_IS_PARALLEL_CALIBRATION;
      ISMRMRD_ACQ_IS_PARALLEL_CALIBRATION_AND_IMAGING ].

Definition extract_calibration_data (ad : MRAcquisitionData.t)
    : result MRAcquisitionData.t :=
    uptr_calib_ad ← clone ad;
    traj ← get_trajectory_type ad;
    match traj with
    | CARTESIAN =>
        idx_calib_acquisitions ← get_flagged_acquisitions_index ad calibration_flags;
        if length idx_calib_acquisitions <? 1
        then Ok uptr_calib_ad
        else run (empty ;;
                  get_subset ad idx_calib_acquisitions ;;
                  sort_by_time) uptr_calib_ad
    | _ => Ok uptr_calib_ad
    end.
End CoilImagesVector.

(** ** CoilSensitivitiesVector

    The object itself ([this], the stored sensitivity maps) is only read;
    the state of [forward] and [backward] is the destination container,
    an object distinct from both other containers. *)

Module CoilSensitivitiesVector.
Import KSpaceSubset GadgetronImagesVector.

  (** [get_csm_as_cfimage(size_t const i)] *)
Definition get_csm_as_cfimage_at (this : t) (i : nat) : result Image.t :=
    sptr_iw ← sptr_image_wrap this i;
    if negb (ImageWrap.type sptr_iw =? ISMRMRD_CXFLOAT)%Z
    then Throw (LocalisedException
      "The coilmaps must be supplied as a complex float ismrmrd image, i.e. type = ISMRMRD::ISMRMRD_CXFLOAT.")
    else Ok (ImageWrap.image sptr_iw).

  (** The loop of [get_csm_as_cfimage(tag, offset)]. *)
Fixpoint csm_search (this : t) (tag : TagType) (offset : nat) (idxs : list nat)
    : result Image.t :=
    match idxs with
    | [] => Throw (LocalisedException
        "No coilmap with this tag was in the coilsensitivity container.")
    | i :: idxs' =>
        let access_idx := (offset + i) mod items this in
        csm_img ← get_csm_as_cfimage_at this access_idx;
        let tag_csm := get_tag_from_img csm_img in
        if (tag_at tag_csm 1 =? tag_at tag 1)%Z && (tag_at tag_csm 2 =? 0)%Z
        then Ok csm_img
        else csm_search this tag offset idxs'
    end.

Definition get_csm_as_cfimage (this : t) (tag : TagType) (offset : nat)
    : result Image.t :=
    csm_search this tag offset (seq 0 (items this)).

  (** The four nested voxel loops, channel outermost and x innermost. *)
Definition voxels (Nx Ny Nz Nc : nat) : list (nat * nat * nat * nat) :=
    nc ← seq 0 Nc; nz ← seq 0 Nz; ny ← seq 0 Ny; nx ← seq 0 Nx; [(nx, ny, nz, nc)].

  (** A statement that reads and then updates one image. *)
Definition update {S} (f : S -> result S) : M S unit :=
    fun s => match f s with
             | Ok s' => (Ok tt, s')
             | Throw e => (Throw e, s)
             end.

  (** The iterator loop from [im.begin()] to [im.end()] that replaces every
      element [e] by [f e]. *)
Definition map_elements (f : complex_float_t -> complex_float_t) (im : Image.t)
    : result Image.t :=
    let n := Image.getNumberOfDataElements im in
    if n <=? length (Image.data im)
    then Ok (Image.mk (Image.head im)
               ((f <$> take n (Image.data im)) ++ drop n (Image.data im)))
    else Throw undefined_behaviour.

  (** [std::transform(im.begin(), im.end(), ptr, im.begin(),
                      std::multiplies<complex_float_t>())] *)
Definition multiply_elements (ptr : list complex_float_t) (im : Image.t)
    : result Image.t :=
    let n := Image.getNumberOfDataElements im in
    if (n <=? length (Image.data im)) && (n <=? length ptr)
    then Ok (Image.mk (Image.head im)
               (zip_with Complex.mul (take n (Image.data im)) (take n ptr)
                ++ drop n (Image.data im)))
    else Throw undefined_behaviour.

Section Storage.
Variable indeterminate : complex_float_t.

    (** The body of the voxel loops of [coilchannels_from_combined_image]. *)
Definition distribute_voxel (ptr_src_img coilmap : Image.t) (Nx Ny : nat)
        (v : nat * nat * nat * nat) : M Image.t unit :=
      let '(nx, ny, nz, nc) := v in
      update (fun ptr_dst_img =>
        s ← Image.read ptr_src_img (nx + Nx * (ny + Ny * nz));
        m ← Image.at_ coilmap nx ny nz nc;
        Image.set_at nx ny nz nc (Complex.mul s m) ptr_dst_img).

Definition coilchannels_from_combined_image (this combined_img : t) : M t unit :=
      for_each (seq 0 (items combined_img)) (fun i_img =>
        iw_src ← lift (image_wrap combined_img i_img);
        ptr_src_img ← lift (ImageWrap.as_CFImage iw_src);
        coilmap ← lift (get_csm_as_cfimage this (get_tag_from_img ptr_src_img) i_img);
        dst ← lift (Image.setHead indeterminate (Image.getHead ptr_src_img) coilmap);
        let dst :=
          Image.setNumberOfChannels indeterminate (Image.getNumberOfChannels coilmap) dst in
        let Nx := Z.to_nat (Image.getMatrixSizeX dst) in
        let Ny := Z.to_nat (Image.getMatrixSizeY dst) in
        let Nz := Z.to_nat (Image.getMatrixSizeZ dst) in
        let Nc := Z.to_nat (Image.getNumberOfChannels dst) in
        dst ← lift (run (for_each (voxels Nx Ny Nz Nc)
                           (distribute_voxel ptr_src_img coilmap Nx Ny)) dst);
        append (ImageWrap.mk ISMRMRD_CXFLOAT dst)).

Definition forward (this combined_img : t) : M t unit :=
      if negb (items combined_img =? items this)
      then throw (LocalisedException
        "The number of coilmaps does not equal the number of images to which they should be applied to.")
      else
        consistent ← lift (check_dimension_consistency combined_img);
        if negb consistent
        then throw (LocalisedException
          "The image dimensions in the source image container are not consistent.")
        else
          nchannels ← lift (dimensions_c combined_img);
          if negb (nchannels =? 1)%Z
          then throw (LocalisedException "The source image has more than one channel.")
          else
            set_meta_data (get_meta_data combined_img) ;;
            clear_data ;;
            coilchannels_from_combined_image this combined_img.

    (** The body of the voxel loops of [combine_images_with_coilmaps]. *)
Definition accumulate_voxel (coilmap : Image.t) (v : nat * nat * nat * nat)
      : M Image.t unit :=
      let '(nx, ny, nz, nc) := v in
      update (fun ptr_dst_img =>
        d ← Image.at_ ptr_dst_img nx ny nz 0;
        m ← Image.at_ coilmap nx ny nz nc;
        Image.set_at nx ny nz 0 (Complex.add d m) ptr_dst_img).

Definition combine_images_with_coilmaps (this img : t) : M t unit :=
      img_dims ← lift (get_image_dimensions img 0);
      for_each (seq 0 (items img)) (fun i_img =>
        iw_src ← lift (image_wrap img i_img);
        ptr_src_img ← lift (ImageWrap.as_CFImage iw_src);
        coilmap ← lift (get_csm_as_cfimage this (get_tag_from_img ptr_src_img) i_img);
        let Nx := Image.getMatrixSizeX coilmap in
        let Ny := Image.getMatrixSizeY coilmap in
        let Nz := Image.getMatrixSizeZ coilmap in
        let Nc := Image.getNumberOfChannels coilmap in
        let csm_dims := [Nx; Ny; Nz; Nc] in
        if bool_decide (img_dims ≠ csm_dims)
        then throw (LocalisedException
          "The data dimensions of the image don't match the sensitivity maps.")
        else
          let dst := Image.new indeterminate Nx Ny Nz 1 in
          dst ← lift (Image.setHead indeterminate (Image.getHead ptr_src_img) dst);
          let dst := Image.setNumberOfChannels indeterminate 1 dst in
          dst ← lift (map_elements (fun _ => Complex.zero) dst);
          coilmap ← lift (map_elements Complex.conj coilmap);
          coilmap ← lift (multiply_elements (Image.data ptr_src_img) coilmap);
          dst ← lift (run (for_each
                             (voxels (Z.to_nat Nx) (Z.to_nat Ny) (Z.to_nat Nz) (Z.to_nat Nc))
                             (accumulate_voxel coilmap)) dst);
          append (ImageWrap.mk ISMRMRD_CXFLOAT dst)).

Definition backward (this img : t) : M t unit :=
      if negb (items img =? items this)
      then throw (LocalisedException
        "The number of coilmaps does not equal the number of images to be combined.")
      else
        consistent ← lift (check_dimension_consistency img);
        if negb consistent
        then throw (LocalisedException
          "The image dimensions in the source image container are not consistent.")
        else
          set_meta_data (get_meta_data img) ;;
          clear_data ;;
          combine_images_with_coilmaps this img.
End Storage.
End CoilSensitivitiesVector.

(** * The sign of a NaN *)

Section NaNSignVocabulary.
Import Float32.

  (** [copysign(x, y)], [box] and [nan_to_zero] where [sg] is the sign bit
      of [y] should [y] be a NaN, and the product where [sa], [sb], [sc]
      and [sd] are the sign bits of the parts of the operands should they
      be NaN. *)
Definition copysign_signed (sg : bool) (x y : float) : float :=
  match y with
  | S754_nan => copysign x (S754_zero sg)
  | _ => copysign x y
  end.
Definition box_signed (sg : bool) (x : float) : float :=
  copysign_signed sg (if isinf x then one else Float32.zero) x.
Definition nan_to_zero_signed (sg : bool) (x : float) : float :=
  if isnan x then copysign_signed sg Float32.zero x else x.

Definition mul_signed (sa sb sc sd : bool) (z w : complex_float_t) : complex_float_t :=
  let a := fst z in
  let b := snd z in
  let c := fst w in
  let d := snd w in
  let ac := Float32.mul a c in
  let bd := Float32.mul b d in
  let ad := Float32.mul a d in
  let bc := Float32.mul b c in
  let x := Float32.sub ac bd in
  let y := Float32.add ad bc in
  if isnan x && isnan y
  then
    let '(a, b, c, d, recalc) :=
      if isinf a || isinf b
      then (box_signed sa a, box_signed sb b,
            nan_to_zero_signed sc c, nan_to_zero_signed sd d, true)
      else (a, b, c, d, false) in
    let '(a, b, c, d, recalc) :=
      if isinf c || isinf d
      then (nan_to_zero_signed sa a, nan_to_zero_signed sb b,
            box_signed sc c, box_signed sd d, true)
      else (a, b, c, d, recalc) in
    let '(a, b, c, d, recalc) :=
      if negb recalc && (isinf ac || isinf bd || isinf ad || isinf bc)
      then (nan_to_zero_signed sa a, nan_to_zero_signed sb b,
            nan_to_zero_signed sc c, nan_to_zero_signed sd d, true)
      else (a, b, c, d, recalc) in
    if recalc : bool
    then (Float32.mul infinity
            (Float32.sub (Float32.mul a c) (Float32.mul b d)),
          Float32.mul infinity
            (Float32.add (Float32.mul a d) (Float32.mul b c)))
    else (x, y)
  else (x, y).

  (** Equal, or zeros of either sign. *)
Inductive up_to_zero_sign : float -> float -> Prop :=
  | same_float (u : float) : up_to_zero_sign u u
  | two_zeros (s s' : bool) : up_to_zero_sign (S754_zero s) (S754_zero s').
End NaNSignVocabulary.

(** * Vocabulary of the specification *)

Section Vocabulary.
Import MRAcquisitionData.

  (** Extent [max - min + 1] of each encoding limit of an encoding. *)
Definition NAvg_of (enc : Encoding) : Z :=
    get_num_enc_states (EncodingLimits.average (encodingLimits enc)).
Definition NSlice_of (enc : Encoding) : Z :=
    get_num_enc_states (EncodingLimits.slice (encodingLimits enc)).
Definition NCont_of (enc : Encoding) : Z :=
    get_num_enc_states (EncodingLimits.contrast (encodingLimits enc)).
Definition NPhase_of (enc : Encoding) : Z :=
    get_num_enc_states (EncodingLimits.phase (encodingLimits enc)).
Definition NRep_of (enc : Encoding) : Z :=
    get_num_enc_states (EncodingLimits.repetition (encodingLimits enc)).
Definition NSet_of (enc : Encoding) : Z :=
    get_num_enc_states (EncodingLimits.set (encodingLimits enc)).

  (** Row-major index of a tag in the axis order average, slice, contrast,
      phase, repetition, set (segment has one state). *)
Definition flat_index (enc : Encoding) (tag : KSpaceSubset.TagType) : Z :=
    (((((KSpaceSubset.tag_at tag 0 * NSlice_of enc + KSpaceSubset.tag_at tag 1)
        * NCont_of enc + KSpaceSubset.tag_at tag 2)
       * NPhase_of enc + KSpaceSubset.tag_at tag 3)
      * NRep_of enc + KSpaceSubset.tag_at tag 4)
     * NSet_of enc + KSpaceSubset.tag_at tag 5)%Z.

  (** Row-major index of the tag of the logical element [i]. *)
Definition element_index (c : t) (enc : Encoding) (i : nat) : option Z :=
    match get_acquisition c i with
    | Ok ra => Some (flat_index enc (KSpaceSubset.get_tag_from_acquisition ra.2))
    | Throw _ => None
    end.

  (** In the words of the specification.  The extent (max - min + 1) of an
      encoding limit; the specification gives none for a limit that the
      header leaves out, where the code takes one state. *)
Definition extent (lim : option Limit) : Z :=
    match lim with
    | Some l => (maximum l - minimum l + 1)%Z
    | None => 1%Z
    end.

  (** In the words of the specification.  The extents of the axes in the
      fixed order average, slice, contrast, phase, repetition, set and
      segment, the segment with one state. *)
Definition extents (enc : Encoding) : list Z :=
    let lims := encodingLimits enc in
    [ extent (EncodingLimits.average lims);
      extent (EncodingLimits.slice lims);
      extent (EncodingLimits.contrast lims);
      extent (EncodingLimits.phase lims);
      extent (EncodingLimits.repetition lims);
      extent (EncodingLimits.set lims);
      1%Z ].

  (** In the words of the specification.  The coordinates of an element on
      those axes: its average, slice, contrast, phase, repetition and set,
      and 0 for the segment. *)
Definition coordinates (acq : Acquisition) : list Z :=
    [ EncodingCounters.average (idx acq);
      EncodingCounters.slice (idx acq);
      EncodingCounters.contrast (idx acq);
      EncodingCounters.phase (idx acq);
      EncodingCounters.repetition (idx acq);
      EncodingCounters.set (idx acq);
      0%Z ].

  (** In the words of the specification.  A tuple lies in the Cartesian
      product of the extents [ns]; the row-major flattened index of a
      tuple, the first axis varying slowest; and the tag of the subset of
      a tuple, whose further entries are 0. *)
Definition in_product (ns coords : list Z) : Prop :=
    Forall2 (fun n x => (0 <= x < n)%Z) ns coords.

Definition row_major (ns coords : list Z) : Z :=
    foldl (fun acc nx => (acc * nx.1 + nx.2)%Z) 0%Z (zip ns coords).

Definition tag_of (coords : list Z) : KSpaceSubset.TagType :=
    coords ++ replicate ISMRMRD_USER_INTS 0%Z.

  (** In the words of the specification.  The row-major index of the
      coordinates of the element at the logical position [i]. *)
Definition bucket (c : t) (enc : Encoding) (i : nat) : option Z :=
    match get_acquisition c i with
    | Ok ra => Some (row_major (extents enc) (coordinates ra.2))
    | Throw _ => None
    end.

  (** The acquisitions read at the logical positions 0 .. number()-1. *)
Definition logical_order (c : t) : result (list Acquisition) :=
    collect (seq 0 (number c)) (fun i => ra ← get_acquisition c i; Ok ra.2).

  (** The time stamps read at the logical positions 0 .. number()-1. *)
Definition time_stamps (c : t) : result (list Z) :=
    collect (seq 0 (number c))
      (fun i => ra ← get_acquisition c i; Ok (acquisition_time_stamp ra.2)).

  (** The ignoring policy in the words of the specification: none of the
      four flags is set and the flags value is at or above the bit of the
      noise-measurement flag. *)
Definition excluded_by_default (acq : Acquisition) : Prop :=
    Z.testbit (flags acq) (ISMRMRD_ACQ_IS_PARALLEL_CALIBRATION - 1) = false /\
    Z.testbit (flags acq) (ISMRMRD_ACQ_IS_PARALLEL_CALIBRATION_AND_IMAGING - 1) = false /\
    Z.testbit (flags acq) (ISMRMRD_ACQ_LAST_IN_MEASUREMENT - 1) = false /\
    Z.testbit (flags acq) (ISMRMRD_ACQ_IS_REVERSE - 1) = false /\
    (2 ^ (ISMRMRD_ACQ_IS_NOISE_MEASUREMENT - 1) <= flags acq)%Z.

#[global] Instance excluded_by_default_dec acq : Decision (excluded_by_default acq).
Proof. unfold excluded_by_default. apply _. Defined.
End Vocabulary.

Section ImageVocabulary.
Import GadgetronImagesVector CoilSensitivitiesVector.

  (** The two tests of [set_up_geom_info()] on the direction vectors: the
      three vectors of a header have unit length, and the three vectors of
      two headers agree. *)
Definition directions_unit (ih1 : ImageHeader.t) : bool :=
  is_unit_vector (ImageHeader.read_dir ih1) &&
  is_unit_vector (ImageHeader.phase_dir ih1) &&
  is_unit_vector (ImageHeader.slice_dir ih1).

Definition directions_equal (ih1 ih : ImageHeader.t) : bool :=
  are_vectors_equal (ImageHeader.read_dir ih1) (ImageHeader.read_dir ih) &&
  are_vectors_equal (ImageHeader.phase_dir ih1) (ImageHeader.phase_dir ih) &&
  are_vectors_equal (ImageHeader.slice_dir ih1) (ImageHeader.slice_dir ih).

  (** Position of the voxel (x, y, z, channel) in the data of an image of
      matrix size sx, sy, sz, and the same under a header. *)
Definition voxel_offset (sx sy sz : nat) (v : nat * nat * nat * nat) : nat :=
  let '(x, y, z, ch) := v in x + sx * y + sx * sy * z + sx * sy * sz * ch.

Definition offset_in (h : ImageHeader.t) (v : nat * nat * nat * nat) : nat :=
  voxel_offset (Z.to_nat (nth3 (ImageHeader.matrix_size h) 0))
               (Z.to_nat (nth3 (ImageHeader.matrix_size h) 1))
               (Z.to_nat (nth3 (ImageHeader.matrix_size h) 2)) v.

  (** A stored map [m] is accepted for the image [src]: it has the slice of
      the image, and its own contrast is 0. *)
Definition matches_image (src m : Image.t) : Prop :=
  Image.getSlice m = Image.getSlice src /\ Image.getContrast m = 0%Z.

  (** [m] is the first accepted map in the cyclic order that starts at the
      position [offset] of the stored maps. *)
Definition found_by_cyclic_search (this : GadgetronImagesVector.t) (src : Image.t)
    (offset : nat) (m : Image.t) : Prop :=
  exists j, j < items this /\
    get_csm_as_cfimage_at this ((offset + j) mod items this) = Ok m /\
    matches_image src m /\
    forall j', j' < j ->
      exists m', get_csm_as_cfimage_at this ((offset + j') mod items this) = Ok m' /\
                 ~ matches_image src m'.

  (** [out] carries the header of [src] with the channels of [coilmap], and
      each of its voxels is the voxel of [src] times the voxel of the map. *)
Definition distributed (src coilmap out : Image.t) : Prop :=
  Image.head out =
    ImageHeader.with_channels (Image.getNumberOfChannels coilmap) (Image.head src) /\
  forall x y z ch : nat,
    x < Z.to_nat (Image.getMatrixSizeX src) -> y < Z.to_nat (Image.getMatrixSizeY src) ->
    z < Z.to_nat (Image.getMatrixSizeZ src) ->
    ch < Z.to_nat (Image.getNumberOfChannels coilmap) ->
    exists s m,
      Image.at_ src x y z 0 = Ok s /\ Image.at_ coilmap x y z ch = Ok m /\
      Image.at_ out x y z ch = Ok (Complex.mul s m).

  (** An image as the constructors and [setHead] of the ISMRMRD image
      leave it: complex float pixels, and the storage of the size the
      header gives. *)
Definition consistent_storage (im : Image.t) : Prop :=
  ImageHeader.data_type (Image.head im) = ISMRMRD_CXFLOAT /\
  (0 <= Image.getMatrixSizeX im)%Z /\ (0 <= Image.getMatrixSizeY im)%Z /\
  (0 <= Image.getMatrixSizeZ im)%Z /\ (0 <= Image.getNumberOfChannels im)%Z /\
  length (Image.data im) = Image.getNumberOfDataElements im.

Definition complex_float (iw : ImageWrap.t) : Prop :=
  ImageWrap.type iw = ISMRMRD_CXFLOAT /\ consistent_storage (ImageWrap.image iw).

Definition single_channel (iw : ImageWrap.t) : Prop :=
  Image.getNumberOfChannels (ImageWrap.image iw) = 1%Z.

  (** Some stored map is accepted for the image, and every stored map that
      is accepted for it has its matrix size. *)
Definition has_map (this : GadgetronImagesVector.t) (iw : ImageWrap.t) : Prop :=
  Exists (fun m => matches_image (ImageWrap.image iw) (ImageWrap.image m)) (images_ this) /\
  Forall (fun m => matches_image (ImageWrap.image iw) (ImageWrap.image m) ->
                   ImageHeader.matrix_size (ImageWrap.head m) =
                   ImageHeader.matrix_size (ImageWrap.head iw)) (images_ this).
End ImageVocabulary.

Section ContainerVocabulary.
Import MRAcquisitionData.

  (** The time stamp of the acquisition stored at position [i]. *)
Definition stored_time_stamp (c : t) (i : nat) : Z :=
  from_option acquisition_time_stamp 0%Z (acqs_ c !! i).

  (** The acquisition at the logical position [i] carries one of [flags]. *)
Definition carries_one_of (c : t) (flags : list Z) (i : nat) : bool :=
  match get_acquisition c i with
  | Ok ra => existsb (isFlagSet ra.2) flags
  | Throw _ => false
  end.

  (** The acquisitions at the logical positions [l], in that order. *)
Definition acquisitions_at (c : t) (l : list nat) : result (list Acquisition) :=
  collect l (fun i => ra ← get_acquisition c i; Ok ra.2).

  (** The acquisitions of the logical order that default access keeps. *)
Definition not_ignored (l : list Acquisition) : list Acquisition :=
  filter (fun a => TO_BE_IGNORED a = false) l.
End ContainerVocabulary.

Section SamplesVocabulary.
Import MRAcquisitionData.




  (** What [conjugate_impl] does to one stored acquisition, and to the
      acquisitions stored at the positions [ps], one after the other. *)
Definition conj_acq (acq : Acquisition) : Acquisition :=
  with_data (Complex.conj <$> data acq) acq.

Definition conj_all (ps : list nat) (l : list Acquisition) : list Acquisition :=
  foldl (fun l p => alter conj_acq p l) l ps.

  (** The storage positions the loop of [conjugate_impl] visits, and the
      body of that loop. *)
Definition storage_positions (c : MRAcquisitionData.t) (positions : list nat)
    : result (list nat) :=
  collect positions
    (fun a => ia ← MRAcquisitionData.index c a;
              if ia <? number c then Ok ia else Throw undefined_behaviour).

Definition conjugate_body (a : nat) : M MRAcquisitionData.t unit :=
  c ← gets id;
  ia ← lift (MRAcquisitionData.index c a);
  match acqs_ c !! ia with
  | None => throw undefined_behaviour
  | Some acq =>
      modify (fun c =>
        with_acqs_ (<[ia := with_data (Complex.conj <$> data acq) acq]> (acqs_ c)) c)
  end.

  (** [0 < x] in binary32. *)
Definition positive_real (x : Float32.float) : Prop :=
  Float32.ltb Float32.zero x = true.
End SamplesVocabulary.

Section CombineVocabulary.
Import GadgetronImagesVector CoilSensitivitiesVector.

  (** Position of the voxel (x, y, z) of channel 0. *)
Definition cell_in (h : ImageHeader.t) (v : nat * nat * nat * nat) : nat :=
  let '(x, y, z, _) := v in offset_in h (x, y, z, 0).

  (** The voxels of one channel, in the order of the three inner loops. *)
Definition block (Nx Ny Nz nc : nat) : list (nat * nat * nat * nat) :=
  nz ← seq 0 Nz; ny ← seq 0 Ny; nx ← seq 0 Nx; [(nx, ny, nz, nc)].

  (** [out] carries the header of [src] with one channel; where [src] and
      [coilmap] have the same matrix size, each voxel of [out] is the sum,
      in the order of the channels and starting from 0, of the conjugated
      voxel of the map times the voxel of [src]. *)
Definition combined (src coilmap out : Image.t) : Prop :=
  Image.head out = ImageHeader.with_channels 1 (Image.head src) /\
  (ImageHeader.matrix_size (Image.head src) = ImageHeader.matrix_size (Image.head coilmap) ->
   forall x y z : nat,
     x < Z.to_nat (Image.getMatrixSizeX coilmap) ->
     y < Z.to_nat (Image.getMatrixSizeY coilmap) ->
     z < Z.to_nat (Image.getMatrixSizeZ coilmap) ->
     exists terms,
       Forall2 (fun ch t => exists s m,
                  Image.at_ src x y z ch = Ok s /\ Image.at_ coilmap x y z ch = Ok m /\
                  t = Complex.mul (Complex.conj m) s)
               (seq 0 (Z.to_nat (Image.getNumberOfChannels coilmap))) terms /\
       Image.at_ out x y z 0 = Ok (foldl Complex.add Complex.zero terms)).
End CombineVocabulary.

(** * Inputs of the witnesses and of the counterexamples *)

Section Inputs.
Import MRAcquisitionData.

  (** One encoding, two slices. *)
Definition header_two_slices : IsmrmrdHeader :=
    mkHeader [ mkEncoding CARTESIAN
                 (EncodingLimits.mk None (Some (mkLimit 0 1 0)) None None None None None) ].

Definition acquisition (fl stamp sl : Z) : Acquisition :=
    mkAcquisition fl stamp (EncodingCounters.mk 0 0 0 sl 0 0 0 0 0) [].

  (** Two acquisitions appended against the order of their time stamps. *)
Definition late_then_early : t :=
    mk false [] [] header_two_slices [acquisition 0 2 0; acquisition 0 1 1].

  (** That container after one and after two calls of [sort_by_time()]. *)
Definition sorted_once : t := (sort_by_time late_then_early).2.
Definition sorted_twice : t := (sort_by_time sorted_once).2.

  (** The same with the parallel-calibration flag (bit 19) set on both. *)
Definition calibration_late_then_early : t :=
    mk false [] [] header_two_slices
       [acquisition (2 ^ 19) 2 0; acquisition (2 ^ 19) 1 1].

End Inputs.

Section ImageInputs.
Import GadgetronImagesVector.

Definition unit_x : array3 Float32.float := (Float32.one, Float32.zero, Float32.zero).
Definition unit_y : array3 Float32.float := (Float32.zero, Float32.one, Float32.zero).
Definition unit_z : array3 Float32.float := (Float32.zero, Float32.zero, Float32.one).

  (** The vectors (1 + 2^-14, 0, 0) and (1 - 2^-14, 0, 0). *)
Definition long_x : array3 Float32.float :=
    (S754_finite false 8389120 (-23), Float32.zero, Float32.zero).
Definition short_x : array3 Float32.float :=
    (S754_finite false 16776192 (-24), Float32.zero, Float32.zero).

  (** Header of a complex float image of [sx] x 1 x 1 voxels and [nc]
      channels at the origin, with the phase and slice directions along y
      and z. *)
Definition image_header (sx nc : Z) (read_dir : array3 Float32.float) (sl contrast : Z)
    : ImageHeader.t :=
    ImageHeader.mk ISMRMRD_CXFLOAT (sx, 1, 1)%Z (Float32.two, Float32.two, Float32.one) nc
      (Float32.zero, Float32.zero, Float32.zero) read_dir unit_y unit_z
      0 sl contrast 0 0 0.

Definition pixel (z : Z) : complex_float_t := (Float32.of_Z z, Float32.zero).

Definition cf_image (h : ImageHeader.t) (d : list complex_float_t) : ImageWrap.t :=
    ImageWrap.mk ISMRMRD_CXFLOAT (Image.mk h d).

Definition images (l : list ImageWrap.t) : t := mk false [] (mkHeader []) l None.

  (** Three images of one slice whose read directions are (1, 0, 0),
      (1 + 2^-14, 0, 0) and (1 - 2^-14, 0, 0). *)
Definition skewed_directions : t :=
    images [ cf_image (image_header 1 1 unit_x 0 0) [pixel 1];
             cf_image (image_header 1 1 long_x 0 0) [pixel 2];
             cf_image (image_header 1 1 short_x 0 0) [pixel 3] ].

  (** Two images, the second read along y. *)
Definition turned_direction : t :=
    images [ cf_image (image_header 1 1 unit_x 0 0) [pixel 1];
             cf_image (image_header 1 1 unit_y 0 0) [pixel 2] ].

  (** An image of 1 x 1 x 1 voxels followed by one of 2 x 1 x 1 voxels. *)
Definition mixed_dimensions : t :=
    images [ cf_image (image_header 1 1 unit_x 0 0) [pixel 1];
             cf_image (image_header 2 1 unit_x 0 0) [pixel 1; pixel 2] ].

  (** Two stored maps of 1 x 1 x 1 voxels and one channel. *)
Definition single_channel_maps : t :=
    images [ cf_image (image_header 1 1 unit_x 0 0) [pixel 3];
             cf_image (image_header 1 1 unit_x 0 0) [pixel 3] ].

  (** One stored map of two channels, and containers of one and of two
      combined images, of one image of contrast 1 and of one image of two
      channels. *)
Definition one_map : t :=
    images [ cf_image (image_header 1 2 unit_x 0 0) [pixel 3; pixel 5] ].
Definition one_image : t :=
    images [ cf_image (image_header 1 1 unit_x 0 0) [pixel 2] ].
Definition two_images : t :=
    images [ cf_image (image_header 1 1 unit_x 0 0) [pixel 1];
             cf_image (image_header 1 1 unit_x 0 0) [pixel 2] ].
Definition contrast_one_image : t :=
    images [ cf_image (image_header 1 1 unit_x 0 1) [pixel 2] ].
Definition two_channel_image : t :=
    images [ cf_image (image_header 1 2 unit_x 0 0) [pixel 2; pixel 7] ].
End ImageInputs.

Section MoreInputs.

  (** Two samples stored in the first acquisition, one in the second, which
      only carries the noise-measurement flag. *)
Definition with_samples : MRAcquisitionData.t :=
  MRAcquisitionData.mk false [] [] header_two_slices
     [ mkAcquisition 0 2 (EncodingCounters.mk 0 0 0 0 0 0 0 0 0) [pixel 1; pixel 2];
       mkAcquisition (2 ^ 18) 1 (EncodingCounters.mk 0 0 0 1 0 0 0 0 0) [pixel 3] ].

  (** Samples with the real parts -1 and -2. *)
Definition negative_samples : MRAcquisitionData.t :=
  MRAcquisitionData.mk false [] [] header_two_slices
     [ mkAcquisition 0 1 (EncodingCounters.mk 0 0 0 0 0 0 0 0 0) [pixel (-1); pixel (-2)] ].

  (** One image of 1 x 1 x 1 voxels with the slice index 1. *)
Definition second_slice_only : GadgetronImagesVector.t :=
  images [ cf_image (image_header 1 1 unit_x 1 0) [pixel 1] ].
End MoreInputs.

(** * Proofs *)

Ltac monad_unfold :=
  unfold mbind, mret, M_bind, M_ret, result_bind, result_ret,
         lift, gets, modify, throw in *.

(** ** The complex product *)

Section ComplexProduct.
Import Float32.

Ltac zero_signs :=
  repeat match goal with
         | b : bool |- _ => destruct b
         end;
  cbn; constructor.

Lemma mul_up_to_zero_sign (u u' v v' : float) :
  up_to_zero_sign u u' -> up_to_zero_sign v v' ->
  up_to_zero_sign (Float32.mul u v) (Float32.mul u' v').
Proof.
  intros [u0|s s'] [v0|t t']; [constructor| | |].
  - destruct u0; cbn; constructor.
  - destruct v0; cbn; constructor.
  - cbn. constructor.
Qed.

Lemma add_up_to_zero_sign (u u' v v' : float) :
  up_to_zero_sign u u' -> up_to_zero_sign v v' ->
  up_to_zero_sign (Float32.add u v) (Float32.add u' v').
Proof.
  intros [u0|s s'] [v0|t t']; [constructor| | |].
  - destruct u0; cbn; zero_signs.
  - destruct v0; cbn; zero_signs.
  - cbn. zero_signs.
Qed.

Lemma sub_up_to_zero_sign (u u' v v' : float) :
  up_to_zero_sign u u' -> up_to_zero_sign v v' ->
  up_to_zero_sign (Float32.sub u v) (Float32.sub u' v').
Proof.
  intros [u0|s s'] [v0|t t']; [constructor| | |].
  - destruct u0; cbn; zero_signs.
  - destruct v0; cbn; zero_signs.
  - cbn. zero_signs.
Qed.

Lemma infinity_mul_up_to_zero_sign (u u' : float) :
  up_to_zero_sign u u' -> Float32.mul infinity u = Float32.mul infinity u'.
Proof. by intros [u0|s s']. Qed.

Lemma isinf_up_to_zero_sign (u u' : float) :
  up_to_zero_sign u u' -> isinf u = isinf u'.
Proof. by intros [u0|s s']. Qed.

Lemma box_up_to_zero_sign (sg : bool) (u u' : float) :
  up_to_zero_sign u u' -> up_to_zero_sign (box_signed sg u) (Complex.box u').
Proof.
  intros [u0|s s'].
  - destruct u0; cbn; constructor.
  - cbn. constructor.
Qed.

Lemma nan_to_zero_up_to_zero_sign (sg : bool) (u u' : float) :
  up_to_zero_sign u u' ->
  up_to_zero_sign (nan_to_zero_signed sg u) (Complex.nan_to_zero u').
Proof.
  intros [u0|s s'].
  - destruct u0; cbn; constructor.
  - cbn. constructor.
Qed.

Lemma recalculated_up_to_zero_sign (a a' b b' c c' d d' : float) :
  up_to_zero_sign a a' -> up_to_zero_sign b b' ->
  up_to_zero_sign c c' -> up_to_zero_sign d d' ->
  (Float32.mul infinity (Float32.sub (Float32.mul a c) (Float32.mul b d)),
   Float32.mul infinity (Float32.add (Float32.mul a d) (Float32.mul b c))) =
  (Float32.mul infinity (Float32.sub (Float32.mul a' c') (Float32.mul b' d')),
   Float32.mul infinity (Float32.add (Float32.mul a' d') (Float32.mul b' c'))).
Proof.
  intros Ha Hb Hc Hd. f_equal; apply infinity_mul_up_to_zero_sign.
  - apply sub_up_to_zero_sign; by apply mul_up_to_zero_sign.
  - apply add_up_to_zero_sign; by apply mul_up_to_zero_sign.
Qed.

(** [spec_float] keeps no sign for a NaN.  Whatever sign bits the NaN
    parts of the operands have, the product is the one [Complex.mul]
    gives: the sign of a NaN only becomes the sign of a zero, and the
    parts computed again from it are multiplied by infinity. *)
Lemma mul_signed_eq (sa sb sc sd : bool) (z w : complex_float_t) :
  mul_signed sa sb sc sd z w = Complex.mul z w.
Proof.
  destruct z as [a b], w as [c d]. unfold mul_signed, Complex.mul. cbn [fst snd].
  set (ac := Float32.mul a c). set (bd := Float32.mul b d).
  set (ad := Float32.mul a d). set (bc := Float32.mul b c).
  destruct (isnan _ && isnan _); [|done].
  pose proof (same_float a) as Ha. pose proof (same_float b) as Hb.
  pose proof (same_float c) as Hc. pose proof (same_float d) as Hd.
  pose proof (box_up_to_zero_sign sa _ _ Ha) as Hba.
  pose proof (box_up_to_zero_sign sb _ _ Hb) as Hbb.
  pose proof (box_up_to_zero_sign sc _ _ Hc) as Hbc.
  pose proof (box_up_to_zero_sign sd _ _ Hd) as Hbd.
  pose proof (nan_to_zero_up_to_zero_sign sa _ _ Ha) as Hna.
  pose proof (nan_to_zero_up_to_zero_sign sb _ _ Hb) as Hnb.
  pose proof (nan_to_zero_up_to_zero_sign sc _ _ Hc) as Hnc.
  pose proof (nan_to_zero_up_to_zero_sign sd _ _ Hd) as Hnd.
  destruct (isinf a || isinf b); cbv beta iota.
  - rewrite (isinf_up_to_zero_sign _ _ Hnc), (isinf_up_to_zero_sign _ _ Hnd).
    destruct (isinf _ || isinf _); cbv beta iota; cbn [negb andb].
    + apply recalculated_up_to_zero_sign;
        first [by apply nan_to_zero_up_to_zero_sign | by apply box_up_to_zero_sign].
    + by apply recalculated_up_to_zero_sign.
  - destruct (isinf c || isinf d); cbv beta iota; cbn [negb andb].
    + by apply recalculated_up_to_zero_sign.
    + destruct (isinf ac || isinf bd || isinf ad || isinf bc); cbv beta iota; [|done].
      by apply recalculated_up_to_zero_sign.
Qed.
End ComplexProduct.

(** ** Loops *)

Lemma for_each_app {S A} (l1 l2 : list A) (body : A -> M S unit) (s : S) :
  for_each (l1 ++ l2) body s =
  match for_each l1 body s with
  | (Ok _, s') => for_each l2 body s'
  | (Throw e, s') => (Throw e, s')
  end.
Proof.
  revert s. induction l1 as [|a l1 IH]; intros s; simpl.
  - reflexivity.
  - monad_unfold. destruct (body a s) as [[[]|e] s1]; [apply IH | reflexivity].
Qed.

Lemma for_each_cons {S A} (a : A) (l : list A) (body : A -> M S unit) (s : S) :
  for_each (a :: l) body s =
  match body a s with
  | (Ok _, s') => for_each l body s'
  | (Throw e, s') => (Throw e, s')
  end.
Proof. reflexivity. Qed.

(** A property of the state that every iteration keeps holds at the end,
    whether the loop ends normally or by an exception. *)
Lemma for_each_invariant {S A} (R : S -> Prop) (l : list A) (body : A -> M S unit) (s : S) :
  (forall a s0, R s0 -> R (body a s0).2) -> R s -> R (for_each l body s).2.
Proof.
  intros Hbody. revert s. induction l as [|a l IH]; intros s Hs; simpl; [done|].
  monad_unfold. specialize (Hbody a s Hs).
  destruct (body a s) as [[[]|e] s1]; simpl in *; [by apply IH | done].
Qed.

Lemma collect_length {A B} (l : list A) (body : A -> result B) (bs : list B) :
  collect l body = Ok bs -> length bs = length l.
Proof.
  revert bs. induction l as [|a l IH]; intros bs; simpl.
  - by intros [= <-].
  - monad_unfold. destruct (body a); [|discriminate].
    destruct (collect l body) as [bs'|]; [|discriminate].
    intros [= <-]. simpl. f_equal. by apply IH.
Qed.

Lemma collect_lookup {A B} (l : list A) (body : A -> result B) (bs : list B) i a :
  collect l body = Ok bs -> l !! i = Some a ->
  exists b, body a = Ok b /\ bs !! i = Some b.
Proof.
  revert bs i. induction l as [|x l IH]; intros bs i; simpl; [done|].
  monad_unfold. destruct (body x) as [b|] eqn:Hb; [|discriminate].
  destruct (collect l body) as [bs'|]; [|discriminate].
  intros [= <-]. destruct i as [|i]; simpl.
  - intros [= <-]. eauto.
  - intros Hi. by apply IH.
Qed.

Lemma collect_ok {A B} (l : list A) (body : A -> result B) (f : A -> B) :
  (forall a, a ∈ l -> body a = Ok (f a)) -> collect l body = Ok (f <$> l).
Proof.
  induction l as [|x l IH]; intros H; simpl; [done|].
  monad_unfold. rewrite H by left. rewrite IH; [done|].
  intros a Ha. apply H. by right.
Qed.

(** ** Lists of blocks of equal length *)

Lemma length_bind_blocks {A B} (l : list A) (f : A -> list B) (m : nat) :
  (forall x, x ∈ l -> length (f x) = m) -> length (l ≫= f) = length l * m.
Proof.
  induction l as [|a l IH]; intros H; [done|].
  rewrite bind_cons, length_app, IH, H; [simpl; lia| by left |].
  intros x Hx. apply H. by right.
Qed.

Lemma lookup_bind_blocks {A B} (l : list A) (f : A -> list B) (m i j : nat) (a : A) :
  (forall x, x ∈ l -> length (f x) = m) ->
  l !! i = Some a -> j < m ->
  (l ≫= f) !! (i * m + j) = f a !! j.
Proof.
  revert i. induction l as [|b l IH]; intros i H Hi Hj; [done|].
  rewrite bind_cons. destruct i as [|i]; simpl in Hi.
  - injection Hi as ->. simpl. rewrite lookup_app_l; [done|]. rewrite H; [done|by left].
  - rewrite lookup_app_r; rewrite H by (by left); [|lia].
    replace (S i * m + j - m) with (i * m + j) by lia.
    apply IH; [|done|done]. intros x Hx. apply H. by right.
Qed.

Lemma block_lt (i n r m : nat) : i < n -> r < m -> i * m + r < n * m.
Proof. intros. nia. Qed.

Lemma length_int_range n : length (int_range n) = Z.to_nat n.
Proof. unfold int_range. by rewrite length_fmap, length_seq. Qed.

Lemma lookup_int_range n (i : nat) :
  i < Z.to_nat n -> int_range n !! i = Some (Z.of_nat i).
Proof.
  intros H. unfold int_range. rewrite list_lookup_fmap, lookup_seq_lt by done. done.
Qed.

Lemma elem_of_concat {A} (ls : list (list A)) (x : A) :
  x ∈ concat ls <-> exists l, l ∈ ls /\ x ∈ l.
Proof.
  rewrite list_elem_of_In, in_concat. split; intros (l & H1 & H2); exists l.
  - by rewrite !list_elem_of_In.
  - by rewrite <- !list_elem_of_In.
Qed.

Lemma concat_NoDup_unique {A} (ls : list (list A)) (k1 k2 : nat) (a b : list A) (x : A) :
  NoDup (concat ls) -> ls !! k1 = Some a -> ls !! k2 = Some b ->
  x ∈ a -> x ∈ b -> k1 = k2.
Proof.
  revert k1 k2. induction ls as [|l ls IH]; intros k1 k2 Hnd H1 H2 Ha Hb; [done|].
  simpl in Hnd. apply NoDup_app in Hnd as (_ & Hdisj & Hnd).
  assert (Hin : forall k c, ls !! k = Some c -> x ∈ c -> x ∈ concat ls).
  { intros k c Hk Hc. apply elem_of_concat. exists c. split; [|done].
    by eapply list_elem_of_lookup_2. }
  destruct k1 as [|k1], k2 as [|k2]; simpl in *; simplify_eq; try done.
  - exfalso. eapply Hdisj; eauto.
  - exfalso. eapply Hdisj; eauto.
  - f_equal. eauto.
Qed.

Lemma concat_lookup_elem {A} (ls : list (list A)) (x : A) :
  x ∈ concat ls -> exists k a, ls !! k = Some a /\ x ∈ a.
Proof.
  intros (a & Ha & Hx)%elem_of_concat.
  apply list_elem_of_lookup_1 in Ha as (k & Hk). eauto.
Qed.

(** ** organise_kspace *)

Section OrganiseKspace.
Import MRAcquisitionData.

(** The fields other than [sorting_] agree. *)
Definition same_data (c c' : t) : Prop :=
  sorted_ c' = sorted_ c /\ index_ c' = index_ c /\
  acqs_info_ c' = acqs_info_ c /\ acqs_ c' = acqs_ c.

Lemma same_data_refl c : same_data c c.
Proof. by repeat split. Qed.

Lemma same_data_trans c1 c2 c3 : same_data c1 c2 -> same_data c2 c3 -> same_data c1 c3.
Proof. unfold same_data. intros (?&?&?&?) (?&?&?&?). repeat split; congruence. Qed.

Lemma same_data_get_acquisition c c' i :
  same_data c c' -> get_acquisition c' i = get_acquisition c i.
Proof.
  intros (_ & Hi & _ & Ha). unfold get_acquisition, index, number. by rewrite Hi, Ha.
Qed.

Lemma same_data_number c c' : same_data c c' -> number c' = number c.
Proof. intros (_ & _ & _ & Ha). unfold number. by rewrite Ha. Qed.

Lemma same_data_element_index c c' enc i :
  same_data c c' -> element_index c' enc i = element_index c enc i.
Proof. intros H. unfold element_index. by rewrite (same_data_get_acquisition c c'). Qed.

Lemma assign_to_subset_inv d1 d2 d3 d4 d5 d6 i c c' :
  assign_to_subset d1 d2 d3 d4 d5 d6 i c = (Ok tt, c') ->
  exists r acq access,
    get_acquisition c i = Ok (r, acq) /\
    access_idx (KSpaceSubset.get_tag_from_acquisition acq) d1 d2 d3 d4 d5 d6 = Ok access /\
    (0 <= access < Z.of_nat (length (sorting_ c)))%Z /\
    c' = with_sorting_ (alter (KSpaceSubset.add_idx_to_set i) (Z.to_nat access) (sorting_ c)) c.
Proof.
  unfold assign_to_subset. monad_unfold. simpl.
  destruct (get_acquisition c i) as [[r acq]|e] eqn:Hg; [|discriminate].
  simpl. destruct (access_idx _ _ _ _ _ _ _) as [access|e] eqn:Ha; [|discriminate].
  unfold sorting_at_add.
  destruct (_ && _) eqn:Hb; [|discriminate].
  intros [= <-]. exists r, acq, access. repeat split; try done.
  - apply andb_true_iff in Hb as [H1 _]. lia.
  - apply andb_true_iff in Hb as [_ H1]. lia.
Qed.

Lemma assign_to_subset_frame d1 d2 d3 d4 d5 d6 i c :
  same_data c (assign_to_subset d1 d2 d3 d4 d5 d6 i c).2.
Proof.
  unfold assign_to_subset. monad_unfold. simpl.
  destruct (get_acquisition c i) as [[r acq]|e]; simpl; [|apply same_data_refl].
  destruct (access_idx _ _ _ _ _ _ _) as [access|e]; simpl; [|apply same_data_refl].
  unfold sorting_at_add. destruct (_ && _); simpl; by repeat split.
Qed.

Lemma concat_idx_alter (L : list KSpaceSubset.t) (k i : nat) :
  k < length L ->
  concat (KSpaceSubset.get_idx_set <$> alter (KSpaceSubset.add_idx_to_set i) k L)
  ≡ₚ concat (KSpaceSubset.get_idx_set <$> L) ++ [i].
Proof.
  revert k. induction L as [|s L IH]; intros k Hk; simpl in Hk; [lia|].
  destruct k as [|k]; csimpl.
  - rewrite <- !app_assoc. apply Permutation_app_head. apply Permutation_app_comm.
  - rewrite IH by lia. by rewrite app_assoc.
Qed.

(** Invariant of the element loop for the partition: the index sets
    together hold what they held before and the indices processed. *)
Lemma assign_loop_partition d1 d2 d3 d4 d5 d6 n a c c' :
  for_each (seq a n) (assign_to_subset d1 d2 d3 d4 d5 d6) c = (Ok tt, c') ->
  same_data c c' /\
  length (sorting_ c') = length (sorting_ c) /\
  concat (KSpaceSubset.get_idx_set <$> sorting_ c')
  ≡ₚ concat (KSpaceSubset.get_idx_set <$> sorting_ c) ++ seq a n.
Proof.
  revert a c. induction n as [|n IH]; intros a c; simpl.
  - monad_unfold. intros [= <-]. split; [apply same_data_refl|]. split; [done|].
    by rewrite app_nil_r.
  - monad_unfold.
    destruct (assign_to_subset _ _ _ _ _ _ a c) as [[[]|e] c1] eqn:Hs; [|discriminate].
    intros Hrest. apply assign_to_subset_inv in Hs as (r & acq & access & Hg & Ha & Hr & ->).
    apply IH in Hrest as (Hsd & Hlen & Hperm). simpl in *.
    split; [|split].
    + eapply same_data_trans; [|exact Hsd]. by repeat split.
    + by rewrite Hlen, length_alter.
    + rewrite Hperm, concat_idx_alter by lia. by rewrite <- app_assoc.
Qed.

Lemma concat_idx_filter (L : list KSpaceSubset.t) :
  concat (KSpaceSubset.get_idx_set <$> filter non_empty L)
  = concat (KSpaceSubset.get_idx_set <$> L).
Proof.
  induction L as [|s L IH]; [done|].
  rewrite filter_cons. destruct (decide (non_empty s)) as [Hs|Hs]; csimpl.
  - by rewrite IH.
  - rewrite IH. unfold non_empty in Hs.
    destruct (KSpaceSubset.get_idx_set s); [done|]. by exfalso; apply Hs.
Qed.

Lemma candidate_subsets_empty n1 n2 n3 n4 n5 n6 n7 s :
  s ∈ candidate_subsets n1 n2 n3 n4 n5 n6 n7 -> KSpaceSubset.get_idx_set s = [].
Proof.
  unfold candidate_subsets. intros H.
  repeat (apply list_elem_of_bind in H as (? & H & _)).
  apply list_elem_of_singleton in H. by subst.
Qed.

Lemma concat_idx_candidates n1 n2 n3 n4 n5 n6 n7 :
  concat (KSpaceSubset.get_idx_set <$> candidate_subsets n1 n2 n3 n4 n5 n6 n7) = [].
Proof.
  assert (H := candidate_subsets_empty n1 n2 n3 n4 n5 n6 n7).
  induction (candidate_subsets n1 n2 n3 n4 n5 n6 n7) as [|s L IH]; [done|].
  csimpl. rewrite H by left. simpl. apply IH. intros. apply H. by right.
Qed.

Ltac blocks_length :=
  repeat (erewrite length_bind_blocks; [rewrite length_int_range; f_equal|intros ? _]);
  done.

Lemma candidate_subsets_length n1 n2 n3 n4 n5 n6 n7 :
  length (candidate_subsets n1 n2 n3 n4 n5 n6 n7) =
  Z.to_nat n1 * (Z.to_nat n2 * (Z.to_nat n3 * (Z.to_nat n4 *
    (Z.to_nat n5 * (Z.to_nat n6 * (Z.to_nat n7 * 1)))))).
Proof. unfold candidate_subsets. blocks_length. Qed.

Ltac block_level :=
  erewrite lookup_bind_blocks;
  [ | intros ? _; blocks_length
    | by apply lookup_int_range
    | repeat (apply block_lt; [assumption|]); lia ].

(** The candidate for a tuple sits at the tuple's row-major position. *)
Lemma candidate_subsets_lookup n1 n2 n3 n4 n5 n6 n7 (ia isl ic ip ir iset iseg : nat) :
  ia < Z.to_nat n1 -> isl < Z.to_nat n2 -> ic < Z.to_nat n3 -> ip < Z.to_nat n4 ->
  ir < Z.to_nat n5 -> iset < Z.to_nat n6 -> iseg < Z.to_nat n7 ->
  candidate_subsets n1 n2 n3 n4 n5 n6 n7 !!
    (ia * (Z.to_nat n2 * (Z.to_nat n3 * (Z.to_nat n4 * (Z.to_nat n5 * (Z.to_nat n6 * (Z.to_nat n7 * 1)))))) +
     (isl * (Z.to_nat n3 * (Z.to_nat n4 * (Z.to_nat n5 * (Z.to_nat n6 * (Z.to_nat n7 * 1))))) +
      (ic * (Z.to_nat n4 * (Z.to_nat n5 * (Z.to_nat n6 * (Z.to_nat n7 * 1)))) +
       (ip * (Z.to_nat n5 * (Z.to_nat n6 * (Z.to_nat n7 * 1))) +
        (ir * (Z.to_nat n6 * (Z.to_nat n7 * 1)) +
         (iset * (Z.to_nat n7 * 1) + (iseg * 1 + 0)))))))
  = Some (KSpaceSubset.of_tag
            ([Z.of_nat ia; Z.of_nat isl; Z.of_nat ic; Z.of_nat ip; Z.of_nat ir;
              Z.of_nat iset; Z.of_nat iseg] ++ replicate ISMRMRD_USER_INTS 0%Z)).
Proof.
  intros H1 H2 H3 H4 H5 H6 H7. unfold candidate_subsets.
  do 7 block_level. done.
Qed.

Lemma int_inv z v : int_ z = Ok v -> v = z.
Proof. unfold int_. destruct (_ && _); [by intros [= <-]|discriminate]. Qed.

(** Where the [int] evaluation of the index does not overflow, its value
    is the row-major index of the tag. *)
Lemma access_idx_flat enc acq v :
  access_idx (KSpaceSubset.get_tag_from_acquisition acq)
    (NSlice_of enc) (NCont_of enc) (NPhase_of enc) (NRep_of enc) (NSet_of enc) 1 = Ok v ->
  v = flat_index enc (KSpaceSubset.get_tag_from_acquisition acq).
Proof.
  unfold access_idx. monad_unfold.
  repeat (match goal with
          | |- match int_ ?z with _ => _ end = _ -> _ =>
              let H := fresh "H" in
              destruct (int_ z) eqn:H; [apply int_inv in H; subst|discriminate]
          end).
  intros H%int_inv. subst. unfold flat_index.
  change (KSpaceSubset.tag_at (KSpaceSubset.get_tag_from_acquisition acq) 6) with 0%Z.
  lia.
Qed.

Definition add_indices (js : list nat) (s : KSpaceSubset.t) : KSpaceSubset.t :=
  KSpaceSubset.mk (KSpaceSubset.tag_ s) (KSpaceSubset.idx_set_ s ++ js).

(** Invariant of the element loop for the bucketing: the subset at
    position [k] has received, in order, the indices whose row-major
    index is [k]. *)
Lemma assign_loop_buckets enc n a c c' :
  for_each (seq a n)
    (assign_to_subset (NSlice_of enc) (NCont_of enc) (NPhase_of enc)
                      (NRep_of enc) (NSet_of enc) 1) c = (Ok tt, c') ->
  forall k : nat,
    sorting_ c' !! k =
    add_indices (filter (fun i => element_index c enc i = Some (Z.of_nat k)) (seq a n))
      <$> sorting_ c !! k.
Proof.
  revert a c. induction n as [|n IH]; intros a c; simpl.
  - monad_unfold. intros [= <-] k. rewrite filter_nil.
    destruct (sorting_ c !! k) as [[tg ix]|]; [|done]. simpl. unfold add_indices. simpl.
    by rewrite app_nil_r.
  - monad_unfold.
    destruct (assign_to_subset _ _ _ _ _ _ a c) as [[[]|e] c1] eqn:Hs; [|discriminate].
    intros Hrest k. apply assign_to_subset_inv in Hs as (r & acq & access & Hg & Ha & Hr & ->).
    apply access_idx_flat in Ha.
    rewrite (IH _ _ Hrest k). simpl.
    assert (Hei : element_index c enc a = Some access).
    { unfold element_index. rewrite Hg. simpl. by rewrite Ha. }
    rewrite (list_filter_iff _
      (fun i => element_index c enc i = Some (Z.of_nat k))).
    2:{ intros i. rewrite (same_data_element_index c); [done|]. by repeat split. }
    rewrite filter_cons. rewrite Hei.
    destruct (decide (k = Z.to_nat access)) as [->|Hne].
    + rewrite list_lookup_alter_eq.
      rewrite decide_True by (f_equal; lia).
      destruct (sorting_ c !! Z.to_nat access) as [[tg ix]|]; [|done]. simpl.
      unfold add_indices, KSpaceSubset.add_idx_to_set. simpl. by rewrite <- app_assoc.
    + rewrite list_lookup_alter_ne by done.
      rewrite decide_False; [done|]. intros [= ->]. lia.
Qed.

Lemma assign_loop_in_range enc n a c c' :
  for_each (seq a n)
    (assign_to_subset (NSlice_of enc) (NCont_of enc) (NPhase_of enc)
                      (NRep_of enc) (NSet_of enc) 1) c = (Ok tt, c') ->
  forall i, a <= i < a + n ->
    exists k : nat, element_index c enc i = Some (Z.of_nat k) /\ k < length (sorting_ c).
Proof.
  revert a c. induction n as [|n IH]; intros a c; simpl; [intros; lia|].
  monad_unfold.
  destruct (assign_to_subset _ _ _ _ _ _ a c) as [[[]|e] c1] eqn:Hs; [|discriminate].
  intros Hrest i Hi. apply assign_to_subset_inv in Hs as (r & acq & access & Hg & Ha & Hr & ->).
  apply access_idx_flat in Ha.
  destruct (decide (i = a)) as [->|Hne].
  - exists (Z.to_nat access). unfold element_index. rewrite Hg. simpl.
    rewrite <- Ha. split; [f_equal; lia | lia].
  - destruct (IH _ _ Hrest i) as (k & Hk & Hlt); [lia|].
    exists k. rewrite (same_data_element_index c) in Hk by (by repeat split).
    simpl in Hlt. rewrite length_alter in Hlt. done.
Qed.

Lemma organise_kspace_inv c c' :
  organise_kspace c = (Ok tt, c') ->
  exists enc c1,
    encoding (acquisitions_info c) = [enc] /\
    for_each (seq 0 (number c))
      (assign_to_subset (NSlice_of enc) (NCont_of enc) (NPhase_of enc)
                        (NRep_of enc) (NSet_of enc) 1)
      (with_sorting_ (candidate_subsets (NAvg_of enc) (NSlice_of enc) (NCont_of enc)
                        (NPhase_of enc) (NRep_of enc) (NSet_of enc) 1) c)
    = (Ok tt, c1) /\
    c' = with_sorting_ (filter non_empty (sorting_ c1)) c1.
Proof.
  unfold organise_kspace. monad_unfold. simpl.
  destruct (encoding (acqs_info_ c)) as [|enc [|enc' encs]] eqn:He; try discriminate.
  unfold acquisitions_info. rewrite He. simpl.
  unfold number at 1. simpl.
  destruct (for_each _ _ _) as [[[]|e] c1] eqn:Hloop; [|discriminate].
  intros [= <-]. exists enc, c1. split; [done|]. split; [|done].
  exact Hloop.
Qed.

(** Whatever its outcome, [organise_kspace] only writes [sorting_]. *)
Lemma organise_kspace_frame c : same_data c (organise_kspace c).2.
Proof.
  unfold organise_kspace. monad_unfold. simpl.
  destruct (encoding _) as [|enc [|enc' encs]]; simpl; try by repeat split.
  match goal with |- context [for_each ?l ?b ?s] =>
    assert (Hf : same_data c (for_each l b s).2) end.
  { apply for_each_invariant; [|by repeat split].
    intros i s0 Hs0. eapply same_data_trans; [exact Hs0|]. apply assign_to_subset_frame. }
  destruct (for_each _ _ _) as [[[]|e] c1]; simpl in *; [|done].
  destruct Hf as (?&?&?&?). by repeat split.
Qed.

(** C1.  After [organise_kspace()] returns on a container whose header
    declares one encoding, the index sets of the retained subsets form a
    partition of {0, ..., number()-1}: listed one after the other they are
    a rearrangement of 0, ..., number()-1, so that every logical index
    lies in exactly one retained subset, and no retained subset is
    empty. *)
Theorem organise_kspace_partition (c c' : MRAcquisitionData.t) :
  length (encoding (acquisitions_info c)) = 1 ->
  organise_kspace c = (Ok tt, c') ->
  number c' = number c /\
  concat (KSpaceSubset.get_idx_set <$> sorting_ c') ≡ₚ seq 0 (number c) /\
  (forall i, i < number c ->
     exists! k, exists s, sorting_ c' !! k = Some s /\ i ∈ KSpaceSubset.get_idx_set s) /\
  Forall non_empty (sorting_ c').
Proof.
  intros _ H. apply organise_kspace_inv in H as (enc & c1 & He & Hloop & ->).
  apply assign_loop_partition in Hloop as (Hsd & Hlen & Hperm). simpl in *.
  assert (Hp : concat (KSpaceSubset.get_idx_set <$> filter non_empty (sorting_ c1))
               ≡ₚ seq 0 (number c)).
  { rewrite concat_idx_filter, Hperm, concat_idx_candidates. done. }
  split; [|split; [|split]].
  - apply same_data_number in Hsd. unfold number in *. simpl in *. done.
  - exact Hp.
  - intros i Hi.
    assert (Hin : i ∈ concat (KSpaceSubset.get_idx_set <$> filter non_empty (sorting_ c1))).
    { rewrite Hp. apply elem_of_seq. lia. }
    apply concat_lookup_elem in Hin as (k & a & Hk & Ha).
    rewrite list_lookup_fmap in Hk.
    destruct (filter non_empty (sorting_ c1) !! k) as [s|] eqn:Hs; [|done].
    simpl in Hk. injection Hk as <-.
    exists k. split; [by exists s|].
    intros k' (s' & Hs' & Ha').
    eapply (concat_NoDup_unique (KSpaceSubset.get_idx_set <$> filter non_empty (sorting_ c1))).
    + rewrite Hp. apply NoDup_seq.
    + rewrite list_lookup_fmap, Hs. reflexivity.
    + rewrite list_lookup_fmap, Hs'. reflexivity.
    + exact Ha.
    + exact Ha'.
  - apply Forall_forall. intros s Hs. apply list_elem_of_filter in Hs. tauto.
Qed.

Lemma organise_kspace_partition_witness :
  number (organise_kspace late_then_early).2 = number late_then_early /\
  concat (KSpaceSubset.get_idx_set <$> sorting_ (organise_kspace late_then_early).2)
    ≡ₚ seq 0 (number late_then_early) /\
  (forall i, i < number late_then_early ->
     exists! k, exists s, sorting_ (organise_kspace late_then_early).2 !! k = Some s /\
                          i ∈ KSpaceSubset.get_idx_set s) /\
  Forall non_empty (sorting_ (organise_kspace late_then_early).2).
Proof.
  apply (organise_kspace_partition late_then_early); reflexivity.
Defined.

(** The candidates and the assignment of the elements, through the index
    and the tag as the code computes them. *)
Lemma organise_kspace_candidates (c c' : MRAcquisitionData.t) (enc : Encoding) :
  encoding (acquisitions_info c) = [enc] ->
  organise_kspace c = (Ok tt, c') ->
  exists L : list KSpaceSubset.t,
    length L = Z.to_nat (NAvg_of enc) * Z.to_nat (NSlice_of enc) * Z.to_nat (NCont_of enc) *
               Z.to_nat (NPhase_of enc) * Z.to_nat (NRep_of enc) * Z.to_nat (NSet_of enc) /\
    (forall ia isl ic ip ir iset : Z,
        (0 <= ia < NAvg_of enc)%Z -> (0 <= isl < NSlice_of enc)%Z ->
        (0 <= ic < NCont_of enc)%Z -> (0 <= ip < NPhase_of enc)%Z ->
        (0 <= ir < NRep_of enc)%Z -> (0 <= iset < NSet_of enc)%Z ->
        let tag := [ia; isl; ic; ip; ir; iset; 0%Z] ++ replicate ISMRMRD_USER_INTS 0%Z in
        exists s, L !! Z.to_nat (flat_index enc tag) = Some s /\ KSpaceSubset.get_tag s = tag) /\
    (forall i, i < number c ->
        exists (k : nat) (s : KSpaceSubset.t),
          element_index c enc i = Some (Z.of_nat k) /\ L !! k = Some s /\
          i ∈ KSpaceSubset.get_idx_set s) /\
    (forall (k : nat) (s : KSpaceSubset.t),
        L !! k = Some s ->
        KSpaceSubset.get_idx_set s =
        filter (fun i => element_index c enc i = Some (Z.of_nat k)) (seq 0 (number c))) /\
    sorting_ c' = filter non_empty L.
Proof.
  intros He H. apply organise_kspace_inv in H as (enc' & c1 & He' & Hloop & ->).
  rewrite He in He'. injection He' as <-.
  exists (sorting_ c1).
  pose proof (assign_loop_partition _ _ _ _ _ _ _ _ _ _ Hloop) as (_ & Hlen & _).
  pose proof (assign_loop_buckets _ _ _ _ _ Hloop) as Hb.
  pose proof (assign_loop_in_range _ _ _ _ _ Hloop) as Hr. simpl in Hlen, Hb, Hr.
  assert (Hsd : same_data c (with_sorting_ (candidate_subsets (NAvg_of enc) (NSlice_of enc)
            (NCont_of enc) (NPhase_of enc) (NRep_of enc) (NSet_of enc) 1) c))
    by (by repeat split).
  assert (Hsets : forall (k : nat) (s : KSpaceSubset.t),
    sorting_ c1 !! k = Some s ->
    KSpaceSubset.get_idx_set s =
    filter (fun i => element_index c enc i = Some (Z.of_nat k)) (seq 0 (number c))).
  { intros k s Hk. rewrite Hb in Hk.
    destruct (candidate_subsets _ _ _ _ _ _ _ !! k) as [s0|] eqn:Hs0; [|done].
    simpl in Hk. injection Hk as <-.
    apply list_elem_of_lookup_2 in Hs0. apply candidate_subsets_empty in Hs0.
    unfold KSpaceSubset.get_idx_set in *. simpl. rewrite Hs0. simpl.
    apply list_filter_iff. intros i.
    by rewrite (same_data_element_index c). }
  split; [|split; [|split; [|split]]].
  - rewrite Hlen, candidate_subsets_length. change (Z.to_nat 1) with 1. lia.
  - intros ia isl ic ip ir iset H1 H2 H3 H4 H5 H6 tag.
    pose proof (candidate_subsets_lookup (NAvg_of enc) (NSlice_of enc) (NCont_of enc)
                  (NPhase_of enc) (NRep_of enc) (NSet_of enc) 1
                  (Z.to_nat ia) (Z.to_nat isl) (Z.to_nat ic) (Z.to_nat ip)
                  (Z.to_nat ir) (Z.to_nat iset) 0) as Hl.
    rewrite !Z2Nat.id in Hl by lia.
    match type of Hl with _ -> _ -> _ -> _ -> _ -> _ -> _ -> _ !! ?n = _ =>
      assert (Hn : Z.to_nat (flat_index enc tag) = n) end.
    { unfold flat_index, tag. simpl.
      change (KSpaceSubset.tag_at _ 0) with ia. change (KSpaceSubset.tag_at _ 1) with isl.
      change (KSpaceSubset.tag_at _ 2) with ic. change (KSpaceSubset.tag_at _ 3) with ip.
      change (KSpaceSubset.tag_at _ 4) with ir. change (KSpaceSubset.tag_at _ 5) with iset.
      change (Z.to_nat 1) with 1.
      apply Nat2Z.inj. rewrite Z2Nat.id by nia.
      repeat (rewrite ?Nat2Z.inj_add, ?Nat2Z.inj_mul).
      rewrite !Z2Nat.id by lia. simpl. ring. }
    rewrite Hn, Hb, Hl by first [lia | (change (Z.to_nat 1) with 1; lia)].
    eexists. split; [reflexivity|]. done.
  - intros i Hi. destruct (Hr i) as (k & Hk & Hlt); [lia|].
    rewrite (same_data_element_index c) in Hk by done.
    rewrite <- Hlen in Hlt. apply lookup_lt_is_Some_2 in Hlt as [s Hs].
    exists k, s. split; [done|]. split; [done|].
    rewrite (Hsets k s Hs). apply list_elem_of_filter. split; [done|].
    apply elem_of_seq. lia.
  - exact Hsets.
  - done.
Qed.
(** The index and the tag that the code computes are those of the
    specification. *)
Lemma extents_code (enc : Encoding) :
  extents enc = [NAvg_of enc; NSlice_of enc; NCont_of enc; NPhase_of enc;
                 NRep_of enc; NSet_of enc; 1%Z].
Proof. reflexivity. Qed.

Lemma flat_index_row_major (enc : Encoding) (ia isl ic ip ir iset : Z) :
  flat_index enc (tag_of [ia; isl; ic; ip; ir; iset; 0%Z]) =
  row_major (extents enc) [ia; isl; ic; ip; ir; iset; 0%Z].
Proof.
  rewrite extents_code. unfold flat_index, row_major, tag_of. cbn [zip zip_with foldl fst snd app].
  change (KSpaceSubset.tag_at _ 0) with ia. change (KSpaceSubset.tag_at _ 1) with isl.
  change (KSpaceSubset.tag_at _ 2) with ic. change (KSpaceSubset.tag_at _ 3) with ip.
  change (KSpaceSubset.tag_at _ 4) with ir. change (KSpaceSubset.tag_at _ 5) with iset.
  ring.
Qed.

Lemma get_tag_from_acquisition_coordinates (acq : Acquisition) :
  KSpaceSubset.get_tag_from_acquisition acq = tag_of (coordinates acq).
Proof. reflexivity. Qed.

Lemma element_index_bucket (c : t) (enc : Encoding) (i : nat) :
  element_index c enc i = bucket c enc i.
Proof.
  unfold element_index, bucket. destruct (get_acquisition c i) as [ra|e]; [|done].
  f_equal. rewrite get_tag_from_acquisition_coordinates. apply flat_index_row_major.
Qed.

Lemma in_product_extents (enc : Encoding) (coords : list Z) :
  in_product (extents enc) coords ->
  exists ia isl ic ip ir iset : Z,
    coords = [ia; isl; ic; ip; ir; iset; 0%Z] /\
    (0 <= ia < NAvg_of enc)%Z /\ (0 <= isl < NSlice_of enc)%Z /\
    (0 <= ic < NCont_of enc)%Z /\ (0 <= ip < NPhase_of enc)%Z /\
    (0 <= ir < NRep_of enc)%Z /\ (0 <= iset < NSet_of enc)%Z.
Proof.
  unfold in_product. rewrite extents_code. intros H.
  apply Forall2_cons_inv_l in H as (ia & l1 & Ha & H & ->).
  apply Forall2_cons_inv_l in H as (isl & l2 & Hsl & H & ->).
  apply Forall2_cons_inv_l in H as (ic & l3 & Hc & H & ->).
  apply Forall2_cons_inv_l in H as (ip & l4 & Hp & H & ->).
  apply Forall2_cons_inv_l in H as (ir & l5 & Hr & H & ->).
  apply Forall2_cons_inv_l in H as (iset & l6 & Hset & H & ->).
  apply Forall2_cons_inv_l in H as (iseg & l7 & Hseg & H & ->).
  apply Forall2_nil_inv_l in H as ->.
  assert (iseg = 0%Z) as -> by lia.
  exists ia, isl, ic, ip, ir, iset. split; [done|]. repeat split; lia.
Qed.

(** C5.  [organise_kspace()] creates one candidate subset for every tuple
    of the Cartesian product of the extents (max - min + 1) of average,
    slice, contrast, phase, repetition and set (segment: one state), the
    candidate of a tuple standing at the tuple's row-major index and
    carrying the tuple as its tag; every logical element is put, in
    increasing order, into the candidate at the row-major index of its
    own average, slice, contrast, phase, repetition and set, which is the
    candidate with these as its tag when they lie within the extents; the
    candidates left empty are removed. *)
Theorem organise_kspace_buckets (c c' : MRAcquisitionData.t) (enc : Encoding) :
  encoding (acquisitions_info c) = [enc] ->
  organise_kspace c = (Ok tt, c') ->
  exists L : list KSpaceSubset.t,
    length L = foldr Nat.mul 1 (Z.to_nat <$> extents enc) /\
    (forall coords : list Z,
        in_product (extents enc) coords ->
        exists s, L !! Z.to_nat (row_major (extents enc) coords) = Some s /\
                  KSpaceSubset.get_tag s = tag_of coords) /\
    (forall i, i < number c ->
        exists (r : Z) (acq : Acquisition) (k : nat) (s : KSpaceSubset.t),
          get_acquisition c i = Ok (r, acq) /\
          row_major (extents enc) (coordinates acq) = Z.of_nat k /\
          L !! k = Some s /\
          i ∈ KSpaceSubset.get_idx_set s /\
          (in_product (extents enc) (coordinates acq) ->
           KSpaceSubset.get_tag s = tag_of (coordinates acq))) /\
    (forall (k : nat) (s : KSpaceSubset.t),
        L !! k = Some s ->
        KSpaceSubset.get_idx_set s =
        filter (fun i => bucket c enc i = Some (Z.of_nat k)) (seq 0 (number c))) /\
    sorting_ c' = filter non_empty L.
Proof.
  intros He H.
  destruct (organise_kspace_candidates c c' enc He H) as (L & Hlen & Htags & Hel & Hsets & Hs).
  assert (Hprod : forall coords : list Z,
    in_product (extents enc) coords ->
    exists s, L !! Z.to_nat (row_major (extents enc) coords) = Some s /\
              KSpaceSubset.get_tag s = tag_of coords).
  { intros coords Hin.
    apply in_product_extents in Hin as (ia & isl & ic & ip & ir & iset & -> & Hr).
    rewrite <- flat_index_row_major. apply Htags; tauto. }
  exists L. split; [|split; [|split; [|split]]].
  - rewrite Hlen, extents_code. cbn [fmap list_fmap foldr]. change (Z.to_nat 1) with 1. lia.
  - exact Hprod.
  - intros i Hi. destruct (Hel i Hi) as (k & s & Hk & Hks & Hin).
    rewrite element_index_bucket in Hk. unfold bucket in Hk.
    destruct (get_acquisition c i) as [[r acq]|e] eqn:Hg; [|discriminate].
    injection Hk as Hk. exists r, acq, k, s.
    split; [done|]. split; [done|]. split; [done|]. split; [done|].
    intros Hc. destruct (Hprod _ Hc) as (s' & Hs' & Htag).
    rewrite Hk, Nat2Z.id, Hks in Hs'. by injection Hs' as <-.
  - intros k s Hks. rewrite (Hsets k s Hks). apply list_filter_iff. intros i.
    by rewrite element_index_bucket.
  - done.
Qed.
End OrganiseKspace.

(** ** The acquisition container *)

Section AcquisitionContainer.
Import MRAcquisitionData.

Lemma organise_kspace_buckets_witness :
  exists L : list KSpaceSubset.t,
    length L = 2 /\
    (exists s, L !! 1 = Some s /\ 1 ∈ KSpaceSubset.get_idx_set s /\
               KSpaceSubset.get_tag s = tag_of [0; 1; 0; 0; 0; 0; 0]%Z) /\
    sorting_ (organise_kspace late_then_early).2 = filter non_empty L.
Proof.
  destruct (organise_kspace_buckets late_then_early (organise_kspace late_then_early).2
              (mkEncoding CARTESIAN
                 (EncodingLimits.mk None (Some (mkLimit 0 1 0)) None None None None None))
              eq_refl eq_refl) as (L & Hlen & _ & Hel & _ & Hs).
  exists L. split; [exact Hlen|]. split; [|exact Hs].
  destruct (Hel 1) as (r & acq & k & s & Hg & Hk & Hks & Hin & Htag); [vm_compute; lia|].
  vm_compute in Hg. injection Hg as <- <-.
  assert (k = 1) as -> by (apply Nat2Z.inj; rewrite <- Hk; reflexivity).
  exists s. split; [exact Hks|]. split; [exact Hin|].
  apply Htag. repeat constructor; vm_compute; congruence.
Defined.

(** ** The ignoring policy *)




Lemma get_acquisition_result (c : t) (num : nat) (r : Z) (acq : Acquisition) :
  get_acquisition c num = Ok (r, acq) ->
  r = (if TO_BE_IGNORED acq then 0 else 1)%Z.
Proof.
  unfold get_acquisition. monad_unfold.
  destruct (index c num) as [ind|]; [|discriminate].
  destruct (acqs_ c !! ind) as [a|]; [|discriminate].
  unfold TO_BE_IGNORED.
  destruct (_ && _) eqn:Hb; intros [= <- <-]; by rewrite Hb.
Qed.

Lemma sort_by_time_acqs (c : t) : acqs_ (sort_by_time c).2 = acqs_ c.
Proof.
  unfold sort_by_time. monad_unfold. simpl.
  set (c1 := with_index_ (resize (number c) 0 (index_ c)) c).
  destruct (number c =? 0).
  - pose proof (organise_kspace_frame c1) as (_ & _ & _ & Ha).
    destruct (organise_kspace c1) as [[[]|e] c2]; simpl in *; by rewrite Ha.
  - destruct (collect _ _) as [a|e]; simpl; [|done].
    match goal with |- context [organise_kspace ?x] =>
      pose proof (organise_kspace_frame x) as (_ & _ & _ & Ha);
      destruct (organise_kspace x) as [[[]|e] c2] end; simpl in *; by rewrite Ha.
Qed.





(** ** Algebra on unsorted containers *)

(** C3.  When [x.sorted()] or [y.sorted()] is false, [multiply(x, y)]
    throws on every destination container, and the destination is left as
    it was: nothing is computed or stored. *)
Theorem multiply_unsorted_throws (x y dst : MRAcquisitionData.t) :
  sorted x = false \/ sorted y = false ->
  multiply x y dst =
  (Throw (LocalisedException
            "binary algebraic operations cannot be applied to unsorted data"), dst).
Proof.
  intros H. unfold multiply, binary_op.
  assert (Hb : negb (sorted x) || negb (sorted y) = true).
  { destruct H as [-> | ->]; [done|]. by rewrite orb_true_r. }
  by rewrite Hb.
Qed.

Lemma multiply_unsorted_throws_witness :
  multiply late_then_early late_then_early (AcquisitionsVector header_two_slices) =
  (Throw (LocalisedException
            "binary algebraic operations cannot be applied to unsorted data"),
   AcquisitionsVector header_two_slices).
Proof. apply multiply_unsorted_throws. left. reflexivity. Defined.

(** ** sort_by_time *)

Lemma stable_insert_unordered {A} (comp : A -> A -> bool) (x : A) (l : list A) :
  (forall y, y ∈ l -> comp y x = false) -> stable_insert comp x l = x :: l.
Proof. destruct l as [|y l]; [done|]. intros H. simpl. by rewrite H by left. Qed.

Lemma stable_sort_unordered {A} (comp : A -> A -> bool) (l : list A) :
  (forall x y, x ∈ l -> y ∈ l -> comp x y = false) -> stable_sort comp l = l.
Proof.
  induction l as [|x l IH]; intros H; [done|].
  unfold stable_sort in *. simpl. rewrite IH.
  - apply stable_insert_unordered. intros y Hy. apply H; [by right | by left].
  - intros a b Ha Hb. apply H; by right.
Qed.

(** On a container whose index is still empty, [sort_by_time()] reads the
    time stamp of the first stored acquisition at every position, and
    leaves the identity as index, whatever the time stamps are. *)
Lemma const_lookup_total (v : Z) (n i : nat) :
  i < n -> ((fun _ : nat => v) <$> seq 0 n) !!! i = v.
Proof.
  intros H. apply list_lookup_total_correct.
  by rewrite list_lookup_fmap, lookup_seq_lt.
Qed.

Lemma index_all_zero (c : t) (i : nat) :
  index_ c = replicate (number c) 0 -> i < number c -> index c i = Ok 0.
Proof.
  intros Hix Hi. unfold index. rewrite Hix, length_replicate.
  replace (number c <=? i) with false by (symmetry; apply Nat.leb_gt; lia).
  rewrite andb_false_r. simpl orb. cbv iota.
  replace (0 <? number c) with true by (symmetry; apply Nat.ltb_lt; lia).
  by rewrite lookup_replicate_2.
Qed.

Lemma get_acquisition_all_zero (c : t) (i : nat) (acq0 : Acquisition) :
  index_ c = replicate (number c) 0 -> i < number c -> acqs_ c !! 0 = Some acq0 ->
  exists r, get_acquisition c i = Ok (r, acq0).
Proof.
  intros Hix Hi H0. unfold get_acquisition. rewrite index_all_zero by done.
  monad_unfold. rewrite H0. destruct (_ && _); eauto.
Qed.

(** On a container whose index is still empty, [sort_by_time()] reads the
    time stamp of the first stored acquisition at every position, and
    leaves the identity as index, whatever the time stamps are. *)
Lemma sort_by_time_fresh (c : t) :
  index_ c = [] -> 0 < number c -> index_ (sort_by_time c).2 = seq 0 (number c).
Proof.
  intros Hix Hn. unfold sort_by_time. monad_unfold. cbv beta.
  rewrite Hix, resize_nil.
  destruct (number c =? 0) eqn:H0; [apply Nat.eqb_eq in H0; lia|].
  set (c1 := with_index_ (replicate (number c) 0) c).
  destruct (acqs_ c !! 0) as [acq0|] eqn:Hacq0.
  2:{ apply lookup_ge_None in Hacq0. unfold number in Hn. lia. }
  rewrite (collect_ok _ _ (fun _ => acquisition_time_stamp acq0)).
  2:{ intros i Hi%elem_of_seq.
      destruct (get_acquisition_all_zero c1 i acq0) as (r & Hr);
        [reflexivity | change (number c1) with (number c); lia | exact Hacq0 |].
      monad_unfold. unfold id. by rewrite Hr. }
  match goal with |- context [organise_kspace ?x] =>
      pose proof (organise_kspace_frame x) as (_ & Hi & _ & _);
      destruct (organise_kspace x) as [[[]|e] c2] end; simpl in *; rewrite Hi.
  all: apply stable_sort_unordered.
  all: intros x y Hx%elem_of_seq Hy%elem_of_seq; apply Z.ltb_ge.
  all: rewrite !(const_lookup_total (acquisition_time_stamp acq0)) by lia; lia.
Qed.
End AcquisitionContainer.

Section SortByTime.
Import MRAcquisitionData.

(** C2 (evaluation of the code where it departs from the claim).  On two
    acquisitions stored with time stamps 2 and 1, the first call of
    [sort_by_time()] leaves the logical order 2, 1 and the second call
    turns it into 1, 2; the subsets change with it. *)
Theorem sort_by_time_twice_differs :
  (sort_by_time late_then_early).1 = Ok tt /\
  (sort_by_time sorted_once).1 = Ok tt /\
  index_ sorted_once = [0; 1] /\
  index_ sorted_twice = [1; 0] /\
  time_stamps sorted_once = Ok [2; 1]%Z /\
  time_stamps sorted_twice = Ok [1; 2]%Z /\
  KSpaceSubset.get_idx_set <$> sorting_ sorted_once = [[0]; [1]] /\
  KSpaceSubset.get_idx_set <$> sorting_ sorted_twice = [[1]; [0]].
Proof. repeat split; vm_compute; reflexivity. Qed.

(** C7 (evaluation of the code where it departs from the claim).  Both
    acquisitions carry the parallel-calibration flag and are stored with
    time stamps 2 and 1: the calibration container holds both, and its
    logical order is still 2, 1 after the call of [sort_by_time()]. *)
Theorem extract_calibration_data_keeps_order :
  get_flagged_acquisitions_index calibration_late_then_early
    CoilImagesVector.calibration_flags = Ok [0; 1] /\
  exists calib,
    CoilImagesVector.extract_calibration_data calibration_late_then_early = Ok calib /\
    acqs_ calib = acqs_ calibration_late_then_early /\
    sorted calib = true /\
    index_ calib = [0; 1] /\
    time_stamps calib = Ok [2; 1]%Z.
Proof. split; [|eexists]; repeat split; vm_compute; reflexivity. Qed.
End SortByTime.

(** ** The image container *)

Section ImageContainer.
Import GadgetronImagesVector.

(** Between the calls of its member functions the index of an image
    container is empty: [sort()] is the only function that fills it, and it
    empties it again before it returns. *)

Lemma index_fresh (c : t) (i : nat) :
  index_ c = [] -> i < number c -> index c i = Ok i.
Proof.
  intros Hix Hi. unfold index. rewrite Hix. simpl.
  replace (number c <=? i) with false by (symmetry; apply Nat.leb_gt; lia). done.
Qed.

Lemma image_wrap_fresh (c : t) (i : nat) (iw : ImageWrap.t) :
  index_ c = [] -> images_ c !! i = Some iw -> image_wrap c i = Ok iw.
Proof.
  intros Hix Hi. unfold image_wrap, sptr_image_wrap.
  rewrite index_fresh; [|done|by eapply lookup_lt_Some].
  monad_unfold. by rewrite Hi.
Qed.

Lemma dims_match_loop_same (c : t) (first : list Z) (idxs : list nat) (b : bool) :
  get_image_dimensions c 0 = Ok first -> dims_match_loop c first idxs b = Ok b.
Proof.
  intros H. revert b. induction idxs as [|i idxs IH]; intros b; simpl; [done|].
  monad_unfold. rewrite H. rewrite IH. by rewrite bool_decide_eq_true_2, andb_true_r.
Qed.

Lemma check_dimension_consistency_first (c : t) (first : list Z) :
  get_image_dimensions c 0 = Ok first -> check_dimension_consistency c = Ok true.
Proof.
  intros H. unfold check_dimension_consistency. monad_unfold. rewrite H.
  by apply dims_match_loop_same.
Qed.

(** The test never answers false: it throws when image 0 cannot be
    fetched and answers true otherwise. *)
Lemma check_dimension_consistency_never_false (c : t) :
  check_dimension_consistency c <> Ok false.
Proof.
  destruct (get_image_dimensions c 0) as [first|e] eqn:H.
  - by rewrite (check_dimension_consistency_first c first H).
  - unfold check_dimension_consistency. monad_unfold. by rewrite H.
Qed.

(** C10.  On every image container that holds at least one image
    [check_dimension_consistency()] returns true, whatever the dimensions
    of the images are: every iteration fetches the dimensions of image 0
    and compares them with themselves; on no container at all does it
    return false.  Hence [forward()] and [backward()] never take the
    branch that rejects inconsistent dimensions: they are the functions
    without that test. *)
Theorem check_dimension_consistency_vacuous (c : GadgetronImagesVector.t) :
  1 <= number c -> index_ c = [] ->
  (forall c0, check_dimension_consistency c0 <> Ok false) /\
  check_dimension_consistency c = Ok true /\
  (forall indeterminate this,
     CoilSensitivitiesVector.forward indeterminate this c =
     if negb (items c =? items this)
     then throw (LocalisedException
       "The number of coilmaps does not equal the number of images to which they should be applied to.")
     else
       nchannels ← lift (dimensions_c c);
       if negb (nchannels =? 1)%Z
       then throw (LocalisedException "The source image has more than one channel.")
       else
         set_meta_data (get_meta_data c) ;;
         clear_data ;;
         CoilSensitivitiesVector.coilchannels_from_combined_image indeterminate this c) /\
  (forall indeterminate this,
     CoilSensitivitiesVector.backward indeterminate this c =
     if negb (items c =? items this)
     then throw (LocalisedException
       "The number of coilmaps does not equal the number of images to be combined.")
     else
       set_meta_data (get_meta_data c) ;;
       clear_data ;;
       CoilSensitivitiesVector.combine_images_with_coilmaps indeterminate this c).
Proof.
  intros Hn Hix.
  assert (Hc : check_dimension_consistency c = Ok true).
  { destruct (images_ c !! 0) as [iw|] eqn:H0.
    - eapply check_dimension_consistency_first. unfold get_image_dimensions.
      rewrite (image_wrap_fresh c 0 iw) by done. reflexivity.
    - apply lookup_ge_None in H0. unfold number in Hn. lia. }
  split; [apply check_dimension_consistency_never_false|].
  split; [exact Hc|]. split; intros indeterminate this.
  - unfold CoilSensitivitiesVector.forward. rewrite Hc. reflexivity.
  - unfold CoilSensitivitiesVector.backward. rewrite Hc. reflexivity.
Qed.

Lemma check_dimension_consistency_vacuous_witness :
  get_image_dimensions mixed_dimensions 0 = Ok [1; 1; 1; 1]%Z /\
  get_image_dimensions mixed_dimensions 1 = Ok [2; 1; 1; 1]%Z /\
  check_dimension_consistency mixed_dimensions = Ok true.
Proof.
  split; [reflexivity|]. split; [reflexivity|].
  apply (check_dimension_consistency_vacuous mixed_dimensions);
    [vm_compute; lia | reflexivity].
Defined.

(** ** sort and set_up_geom_info *)

Lemma stable_insert_Permutation {A} (comp : A -> A -> bool) (x : A) (l : list A) :
  stable_insert comp x l ≡ₚ x :: l.
Proof.
  induction l as [|y l IH]; simpl; [done|].
  destruct (comp y x); [|done]. rewrite IH. apply Permutation_swap.
Qed.

Lemma stable_sort_Permutation {A} (comp : A -> A -> bool) (l : list A) :
  stable_sort comp l ≡ₚ l.
Proof.
  unfold stable_sort. induction l as [|x l IH]; simpl; [done|].
  by rewrite stable_insert_Permutation, IH.
Qed.

Lemma collect_total {A B} (l : list A) (body : A -> result B) :
  (forall a, a ∈ l -> exists b, body a = Ok b) -> exists bs, collect l body = Ok bs.
Proof.
  induction l as [|x l IH]; intros H; simpl; [by eexists|].
  destruct (H x) as [b Hb]; [by left|].
  destruct IH as [bs Hbs]; [intros a Ha; apply H; by right|].
  monad_unfold. rewrite Hb, Hbs. by eexists.
Qed.

(** With its index empty, as it is between calls, a container is sorted
    without an exception; the index is empty again afterwards and the
    geometry is not touched. *)
Lemma sort_fresh (c : t) :
  index_ c = [] ->
  (sort c).1 = Ok tt /\ index_ (sort c).2 = [] /\ sorted_ (sort c).2 = true /\
  geom_info_ (sort c).2 = geom_info_ c /\ number (sort c).2 = number c.
Proof.
  intros Hix. unfold sort. monad_unfold. unfold id.
  destruct (collect_total (seq 0 (number c))
              (fun i => iw ← image_wrap c i; Ok (sort_key (ImageWrap.head iw))))
    as [vt Hvt].
  { intros i Hi%elem_of_seq.
    destruct (images_ c !! i) as [iw|] eqn:Hiw.
    - rewrite (image_wrap_fresh c i iw) by done. by eexists.
    - apply lookup_ge_None in Hiw. unfold number in Hi. lia. }
  monad_unfold. rewrite Hvt. simpl.
  pose proof (collect_length _ _ _ Hvt) as Hlen. rewrite length_seq in Hlen.
  set (c2 := with_sorted_ true (with_index_ (Multisort.sort vt) c)).
  assert (Hperm : Multisort.sort vt ≡ₚ seq 0 (number c)).
  { unfold Multisort.sort. rewrite stable_sort_Permutation. by rewrite Hlen. }
  destruct (collect_total (seq 0 (number c)) (sptr_image_wrap c2)) as [sorted_images Hs].
  { intros i Hi%elem_of_seq. unfold sptr_image_wrap, index.
    change (index_ c2) with (Multisort.sort vt). change (number c2) with (number c).
    change (images_ c2) with (images_ c).
    rewrite (Permutation_length Hperm), length_seq.
    replace (number c <=? i) with false by (symmetry; apply Nat.leb_gt; lia).
    rewrite andb_false_r. simpl orb. cbv iota.
    replace (0 <? number c) with true by (symmetry; apply Nat.ltb_lt; lia).
    destruct (Multisort.sort vt !! i) as [v|] eqn:Hv.
    2:{ apply lookup_ge_None in Hv. rewrite (Permutation_length Hperm), length_seq in Hv. lia. }
    apply list_elem_of_lookup_2 in Hv. rewrite Hperm in Hv. apply elem_of_seq in Hv.
    monad_unfold.
    destruct (images_ c !! v) as [iw|] eqn:Hiw; [by eexists|].
    apply lookup_ge_None in Hiw. unfold number in Hv. lia. }
  rewrite Hs. simpl.
  repeat split. unfold number. simpl.
  apply collect_length in Hs. by rewrite Hs, length_seq.
Qed.

Lemma directions_loop_differs (c : t) (ih1 : ImageHeader.t) (ims : list nat) (ns : Z) :
  index_ c = [] -> (forall im, im ∈ ims -> im < number c) ->
  (exists im iw, im ∈ ims /\ images_ c !! im = Some iw /\
                 directions_equal ih1 (ImageWrap.head iw) = false) ->
  directions_loop c ih1 ims ns = Ok None.
Proof.
  intros Hix. revert ns. induction ims as [|im ims IH]; intros ns Hlt (im' & iw' & Hin & Hiw & Hd).
  - by apply elem_of_nil in Hin.
  - simpl. destruct (images_ c !! im) as [iw|] eqn:Him.
    2:{ apply lookup_ge_None in Him. specialize (Hlt im). unfold number in Hlt.
        assert (im < length (images_ c)) by (apply Hlt; by left). lia. }
    rewrite (image_wrap_fresh c im iw) by done. monad_unfold.
    fold (directions_equal ih1 (ImageWrap.head iw)).
    destruct (directions_equal ih1 (ImageWrap.head iw)) eqn:He; simpl; [|done].
    apply IH.
    + intros. apply Hlt. by right.
    + apply elem_of_cons in Hin as [->|Hin].
      * rewrite Him in Hiw. injection Hiw as <-. congruence.
      * eauto.
Qed.

(** C6, as the code has it.  [set_up_geom_info()] returns without an
    exception and leaves the geometry as it was when, after sorting, the
    first image has a direction vector that fails the unit-length test, or
    some later image has a direction vector that differs from that of the
    first image by more than the tolerance in some component.  The state
    it returns is the sorted container. *)
Theorem set_up_geom_info_aborts (c : GadgetronImagesVector.t) (iw1 : ImageWrap.t) :
  index_ c = [] -> 1 <= number c ->
  images_ (if sorted c then c else (sort c).2) !! 0 = Some iw1 ->
  (directions_unit (ImageWrap.head iw1) = false \/
   exists im iw, 1 <= im /\
     images_ (if sorted c then c else (sort c).2) !! im = Some iw /\
     directions_equal (ImageWrap.head iw1) (ImageWrap.head iw) = false) ->
  set_up_geom_info c = (Ok tt, if sorted c then c else (sort c).2) /\
  geom_info_ (if sorted c then c else (sort c).2) = geom_info_ c.
Proof.
  intros Hix Hn.
  pose proof (sort_fresh c Hix) as (Hs1 & Hs2 & Hs3 & Hs4 & Hs5).
  unfold set_up_geom_info. monad_unfold.
  replace (number c <? 1) with false by (symmetry; apply Nat.ltb_ge; lia).
  assert (Htail : forall c1 : t,
    index_ c1 = [] -> number c1 = number c -> images_ c1 !! 0 = Some iw1 ->
    (directions_unit (ImageWrap.head iw1) = false \/
     exists im iw, 1 <= im /\ images_ c1 !! im = Some iw /\
       directions_equal (ImageWrap.head iw1) (ImageWrap.head iw) = false) ->
    directions_unit (ImageWrap.head iw1) = false \/
    directions_loop c1 (ImageWrap.head iw1) (seq 1 (number c - 1))
      (ImageHeader.slice (ImageWrap.head iw1)) = Ok None).
  { intros c1 Hix1 Hn1 Hiw1 [Hu|(im & iw & Him & Hiw & Hd)]; [by left|right].
    apply directions_loop_differs; [done| |].
    - intros i Hi%elem_of_seq. lia.
    - exists im, iw. split; [|done]. apply elem_of_seq.
      apply lookup_lt_Some in Hiw. unfold number in *. lia. }
  destruct (sorted c).
  - intros Hiw1 Hfail. split; [|done]. unfold id.
    rewrite (image_wrap_fresh c 0 iw1) by done.
    fold (directions_unit (ImageWrap.head iw1)).
    destruct (Htail c Hix eq_refl Hiw1 Hfail) as [Hu|Hl].
    + by rewrite Hu.
    + rewrite Hl. by destruct (directions_unit _).
  - destruct (sort c) as [r c1]. simpl in *. subst r.
    intros Hiw1 Hfail. split; [|done]. unfold id.
    rewrite (image_wrap_fresh c1 0 iw1) by done.
    fold (directions_unit (ImageWrap.head iw1)).
    destruct (Htail c1 Hs2 Hs5 Hiw1 Hfail) as [Hu|Hl].
    + by rewrite Hu.
    + rewrite Hl. by destruct (directions_unit _).
Qed.
Lemma set_up_geom_info_aborts_witness :
  set_up_geom_info turned_direction = (Ok tt, (sort turned_direction).2) /\
  geom_info_ (sort turned_direction).2 = None.
Proof.
  apply (set_up_geom_info_aborts turned_direction
           (cf_image (image_header 1 1 unit_x 0 0) [pixel 1])).
  - reflexivity.
  - vm_compute; lia.
  - vm_compute; reflexivity.
  - right. exists 1, (cf_image (image_header 1 1 unit_y 0 0) [pixel 2]).
    split; [lia|]. split; vm_compute; reflexivity.
Defined.

(** C6 (where the claim departs from the code).  The second image of
    [skewed_directions] has a read direction that fails the unit-length
    test, and the read directions of the second and the third image differ
    by more than the tolerance; both agree with the first image within the
    tolerance, and [set_up_geom_info()] sets the geometry. *)
Lemma set_up_geom_info_first_image_only :
  ImageHeader.read_dir ∘ ImageWrap.head <$> images_ (set_up_geom_info skewed_directions).2 =
    [unit_x; long_x; short_x] /\
  is_unit_vector long_x = false /\
  are_vectors_equal long_x short_x = false /\
  are_vectors_equal unit_x long_x = true /\
  are_vectors_equal unit_x short_x = true /\
  (set_up_geom_info skewed_directions).1 = Ok tt /\
  geom_info_ skewed_directions = None /\
  exists g, geom_info_ (set_up_geom_info skewed_directions).2 = Some g.
Proof.
  repeat (split; [vm_compute; reflexivity|]). eexists. vm_compute. reflexivity.
Qed.
End ImageContainer.

(** ** The coil sensitivity maps *)

Section CoilMaps.
Import GadgetronImagesVector CoilSensitivitiesVector.

(** *** The voxel loops *)

Lemma elem_of_voxels (Nx Ny Nz Nc x y z ch : nat) :
  (x, y, z, ch) ∈ voxels Nx Ny Nz Nc <-> x < Nx /\ y < Ny /\ z < Nz /\ ch < Nc.
Proof.
  unfold voxels. split.
  - intros H.
    apply list_elem_of_bind in H as (c' & H & Hc%elem_of_seq).
    apply list_elem_of_bind in H as (z' & H & Hz%elem_of_seq).
    apply list_elem_of_bind in H as (y' & H & Hy%elem_of_seq).
    apply list_elem_of_bind in H as (x' & H & Hx%elem_of_seq).
    apply list_elem_of_singleton in H. injection H as -> -> -> ->. lia.
  - intros (Hx & Hy & Hz & Hc).
    apply list_elem_of_bind. exists ch. split; [|apply elem_of_seq; lia].
    apply list_elem_of_bind. exists z. split; [|apply elem_of_seq; lia].
    apply list_elem_of_bind. exists y. split; [|apply elem_of_seq; lia].
    apply list_elem_of_bind. exists x. split; [|apply elem_of_seq; lia].
    by apply list_elem_of_singleton.
Qed.

Lemma NoDup_voxels (Nx Ny Nz Nc : nat) : NoDup (voxels Nx Ny Nz Nc).
Proof.
  unfold voxels.
  apply NoDup_bind; [| |apply NoDup_seq].
  { intros c1 c2 v _ _ H1 H2.
    repeat (apply list_elem_of_bind in H1 as (? & H1 & _)).
    repeat (apply list_elem_of_bind in H2 as (? & H2 & _)).
    apply list_elem_of_singleton in H1, H2. congruence. }
  intros c _. apply NoDup_bind; [| |apply NoDup_seq].
  { intros c1 c2 v _ _ H1 H2.
    repeat (apply list_elem_of_bind in H1 as (? & H1 & _)).
    repeat (apply list_elem_of_bind in H2 as (? & H2 & _)).
    apply list_elem_of_singleton in H1, H2. congruence. }
  intros z _. apply NoDup_bind; [| |apply NoDup_seq].
  { intros c1 c2 v _ _ H1 H2.
    repeat (apply list_elem_of_bind in H1 as (? & H1 & _)).
    repeat (apply list_elem_of_bind in H2 as (? & H2 & _)).
    apply list_elem_of_singleton in H1, H2. congruence. }
  intros y _. apply NoDup_bind; [| |apply NoDup_seq].
  { intros c1 c2 v _ _ H1 H2.
    apply list_elem_of_singleton in H1, H2. congruence. }
  intros x _. apply NoDup_singleton.
Qed.

Lemma radix_inj (n x x' q q' : nat) :
  x < n -> x' < n -> x + n * q = x' + n * q' -> x = x' /\ q = q'.
Proof. intros. assert (q = q') by nia. subst. lia. Qed.

Lemma voxel_offset_inj (sx sy sz Nc : nat) (v v' : nat * nat * nat * nat) :
  v ∈ voxels sx sy sz Nc -> v' ∈ voxels sx sy sz Nc ->
  voxel_offset sx sy sz v = voxel_offset sx sy sz v' -> v = v'.
Proof.
  destruct v as [[[x y] z] ch], v' as [[[x' y'] z'] ch'].
  intros (Hx & Hy & Hz & Hc)%elem_of_voxels (Hx' & Hy' & Hz' & Hc')%elem_of_voxels.
  unfold voxel_offset. intros H.
  destruct (radix_inj sx x x' (y + sy * (z + sz * ch)) (y' + sy * (z' + sz * ch')))
    as [-> H1]; [done|done|lia|].
  destruct (radix_inj sy y y' (z + sz * ch) (z' + sz * ch')) as [-> H2]; [done|done|lia|].
  destruct (radix_inj sz z z' ch ch') as [-> ->]; [done|done|lia|]. done.
Qed.

Lemma offset_offset_in (im : Image.t) (x y z ch : nat) :
  Image.offset im x y z ch = offset_in (Image.head im) (x, y, z, ch).
Proof. reflexivity. Qed.

Lemma distribute_voxel_inv (src cm : Image.t) (Nx Ny : nat) (x y z ch : nat)
    (dst dst1 : Image.t) :
  distribute_voxel src cm Nx Ny (x, y, z, ch) dst = (Ok tt, dst1) ->
  exists s m,
    Image.read src (x + Nx * (y + Ny * z)) = Ok s /\
    Image.at_ cm x y z ch = Ok m /\
    offset_in (Image.head dst) (x, y, z, ch) < length (Image.data dst) /\
    dst1 = Image.mk (Image.head dst)
             (<[offset_in (Image.head dst) (x, y, z, ch) := Complex.mul s m]> (Image.data dst)).
Proof.
  unfold distribute_voxel, update. monad_unfold.
  destruct (Image.read src _) as [s|] eqn:Hs; [|discriminate].
  destruct (Image.at_ cm x y z ch) as [m|] eqn:Hm; [|discriminate].
  unfold Image.set_at, Image.write. rewrite offset_offset_in.
  destruct (_ <? _) eqn:Hlt; simpl; [|discriminate].
  intros Heq. assert (Hd := f_equal snd Heq). simpl in Hd. subst dst1.
  exists s, m. repeat split; try done. by apply Nat.ltb_lt.
Qed.

Lemma distribute_loop (src cm : Image.t) (Nx Ny : nat)
    (vs : list (nat * nat * nat * nat)) (dst dst' : Image.t) :
  for_each vs (distribute_voxel src cm Nx Ny) dst = (Ok tt, dst') ->
  Image.head dst' = Image.head dst /\
  (forall k, k ∉ offset_in (Image.head dst) <$> vs ->
             Image.data dst' !! k = Image.data dst !! k) /\
  (NoDup (offset_in (Image.head dst) <$> vs) ->
   forall x y z ch, (x, y, z, ch) ∈ vs ->
     exists s m,
       Image.read src (x + Nx * (y + Ny * z)) = Ok s /\
       Image.at_ cm x y z ch = Ok m /\
       Image.data dst' !! offset_in (Image.head dst) (x, y, z, ch) = Some (Complex.mul s m)).
Proof.
  revert dst. induction vs as [|[[[x0 y0] z0] c0] vs IH]; intros dst.
  - simpl. monad_unfold. intros [= <-]. repeat split; try done.
    intros _ x y z ch H. by apply elem_of_nil in H.
  - rewrite for_each_cons.
    destruct (distribute_voxel src cm Nx Ny (x0, y0, z0, c0) dst) as [[[]|e] dst1] eqn:Hv;
      [|discriminate].
    intros Hrest. apply distribute_voxel_inv in Hv as (s0 & m0 & Hs0 & Hm0 & Hlt & ->).
    apply IH in Hrest as (Hh & Hother & Hin). cbn [Image.head Image.data] in *.
    split; [done|]. split.
    + intros k Hk. rewrite Hother.
      * apply list_lookup_insert_ne. intros Heq. apply Hk. rewrite <- Heq.
        rewrite fmap_cons. by left.
      * intros Hk'. apply Hk. rewrite fmap_cons. by right.
    + intros Hnd x y z ch Hel. rewrite fmap_cons in Hnd.
      apply NoDup_cons in Hnd as [Hnotin Hnd].
      apply elem_of_cons in Hel as [[= -> -> -> ->]|Hel].
      * exists s0, m0. repeat split; try done.
        rewrite Hother by done. by apply list_lookup_insert_eq.
      * by apply Hin.
Qed.

Lemma NoDup_voxel_offsets (h : ImageHeader.t) (Nc : nat) :
  NoDup (offset_in h <$>
           voxels (Z.to_nat (nth3 (ImageHeader.matrix_size h) 0))
                  (Z.to_nat (nth3 (ImageHeader.matrix_size h) 1))
                  (Z.to_nat (nth3 (ImageHeader.matrix_size h) 2)) Nc).
Proof.
  apply NoDup_fmap_2_strong; [|apply NoDup_voxels].
  intros v v' Hv Hv' Ho. by eapply voxel_offset_inj.
Qed.

Lemma csm_search_seq (this : t) (src : Image.t) (offset a n : nat) (m : Image.t) :
  csm_search this (KSpaceSubset.get_tag_from_img src) offset (seq a n) = Ok m ->
  exists j, a <= j < a + n /\
    get_csm_as_cfimage_at this ((offset + j) mod items this) = Ok m /\
    matches_image src m /\
    forall j', a <= j' < j ->
      exists m', get_csm_as_cfimage_at this ((offset + j') mod items this) = Ok m' /\
                 ~ matches_image src m'.
Proof.
  revert a. induction n as [|n IH]; intros a; [discriminate|].
  cbn [seq csm_search]. monad_unfold.
  destruct (get_csm_as_cfimage_at this ((offset + a) mod items this)) as [m0|] eqn:Hm0;
    [|discriminate].
  change (KSpaceSubset.tag_at (KSpaceSubset.get_tag_from_img m0) 1) with (Image.getSlice m0).
  change (KSpaceSubset.tag_at (KSpaceSubset.get_tag_from_img m0) 2) with (Image.getContrast m0).
  change (KSpaceSubset.tag_at (KSpaceSubset.get_tag_from_img src) 1) with (Image.getSlice src).
  destruct (_ && _) eqn:Hb.
  - intros [= <-]. apply andb_true_iff in Hb as [H1%Z.eqb_eq H2%Z.eqb_eq].
    exists a. split; [lia|]. split; [done|]. split; [done|]. intros; lia.
  - intros H. apply IH in H as (j & Hj & Hg & Hm & Hbefore).
    exists j. split; [lia|]. split; [done|]. split; [done|].
    intros j' Hj'. destruct (decide (j' = a)) as [->|Hne].
    + exists m0. split; [done|]. intros [H1 H2].
      rewrite H1, H2, !Z.eqb_refl in Hb. discriminate.
    + apply Hbefore. lia.
Qed.

(** A loop whose every iteration appends one image. *)
Lemma append_loop (body : nat -> M t unit) (P : nat -> ImageWrap.t -> Prop) :
  (forall i s s', body i s = (Ok tt, s') ->
     exists iw, P i iw /\ s' = with_images_ (images_ s ++ [iw]) s) ->
  forall n a s s',
    for_each (seq a n) body s = (Ok tt, s') ->
    exists outs, images_ s' = images_ s ++ outs /\ length outs = n /\
                 forall k iw, outs !! k = Some iw -> P (a + k) iw.
Proof.
  intros Hbody. induction n as [|n IH]; intros a s s'.
  - simpl. monad_unfold. intros [= <-]. exists []. rewrite app_nil_r. repeat split. done.
  - cbn [seq]. rewrite for_each_cons.
    destruct (body a s) as [[[]|e] s1] eqn:Hb; [|discriminate].
    apply Hbody in Hb as (iw & HP & ->). intros Hrest.
    apply IH in Hrest as (outs & Himgs & Hlen & Houts). cbn [images_ with_images_] in Himgs.
    exists (iw :: outs). split; [by rewrite Himgs, <- app_assoc|]. split; [simpl; lia|].
    intros [|k] iw'; simpl.
    + intros [= <-]. by rewrite Nat.add_0_r.
    + intros Hk. replace (a + S k) with (S a + k) by lia. by apply Houts.
Qed.

Lemma setHead_head (junk : complex_float_t) (h : ImageHeader.t) (im im' : Image.t) :
  Image.setHead junk h im = Ok im' -> Image.head im' = h.
Proof.
  unfold Image.setHead. destruct (_ =? _)%Z; [|discriminate].
  intros [= <-]. unfold Image.make_consistent. by destruct (0 <? _).
Qed.

Lemma setNumberOfChannels_head (junk : complex_float_t) (n : Z) (im : Image.t) :
  Image.head (Image.setNumberOfChannels junk n im) =
  ImageHeader.with_channels n (Image.head im).
Proof. unfold Image.setNumberOfChannels, Image.make_consistent. by destruct (0 <? _). Qed.

Lemma run_inv {S} (m : M S unit) (s s' : S) : run m s = Ok s' -> m s = (Ok tt, s').
Proof. unfold run. destruct (m s) as [[[]|e] s1]; [by intros [= <-]|discriminate]. Qed.

(** [forward()] throws unless there are as many stored maps as combined
    images; what the destination holds when it returns. *)
Lemma forward_result (indeterminate : complex_float_t)
    (this combined_img dst : GadgetronImagesVector.t) :
  (items combined_img <> items this ->
   forward indeterminate this combined_img dst =
   (Throw (LocalisedException
      "The number of coilmaps does not equal the number of images to which they should be applied to."),
    dst)) /\
  (forall dst', forward indeterminate this combined_img dst = (Ok tt, dst') ->
     items combined_img = items this /\
     length (images_ dst') = items combined_img /\
     forall i, i < items combined_img ->
       exists iw_src src coilmap out,
         image_wrap combined_img i = Ok iw_src /\
         ImageWrap.as_CFImage iw_src = Ok src /\
         found_by_cyclic_search this src i coilmap /\
         images_ dst' !! i = Some (ImageWrap.mk ISMRMRD_CXFLOAT out) /\
         distributed src coilmap out).
Proof.
  split.
  - intros Hne. unfold forward.
    replace (items combined_img =? items this) with false
      by (symmetry; by apply Nat.eqb_neq). done.
  - intros dst'. unfold forward.
    destruct (items combined_img =? items this) eqn:Hitems; [|discriminate].
    apply Nat.eqb_eq in Hitems. cbn [negb]. monad_unfold.
    destruct (check_dimension_consistency combined_img) as [[]|]; try discriminate.
    cbn [negb].
    destruct (dimensions_c combined_img) as [nch|]; try discriminate.
    destruct (negb (nch =? 1)%Z); [discriminate|].
    destruct (set_meta_data _ dst) as [[[]|e] s0]; [|discriminate].
    unfold clear_data. monad_unfold.
    unfold coilchannels_from_combined_image. intros Hloop.
    eapply (append_loop _ (fun i iw =>
      exists iw_src src coilmap out,
         image_wrap combined_img i = Ok iw_src /\
         ImageWrap.as_CFImage iw_src = Ok src /\
         found_by_cyclic_search this src i coilmap /\
         iw = ImageWrap.mk ISMRMRD_CXFLOAT out /\
         distributed src coilmap out)) in Hloop.
    + destruct Hloop as (outs & Himgs & Hlen & Houts). cbn [images_ with_images_ app] in Himgs.
      split; [done|]. split; [by rewrite Himgs|].
      intros i Hi. rewrite <- Hlen in Hi. apply lookup_lt_is_Some_2 in Hi as [iw Hiw].
      destruct (Houts i iw Hiw) as (iw_src & src & coilmap & out & H1 & H2 & H3 & -> & H5).
      exists iw_src, src, coilmap, out. rewrite Himgs. done.
    + clear. intros i s s'. monad_unfold.
      destruct (image_wrap combined_img i) as [iw_src|] eqn:Hsrc; [|discriminate].
      destruct (ImageWrap.as_CFImage iw_src) as [src|] eqn:Hcf; [|discriminate].
      destruct (get_csm_as_cfimage this _ i) as [coilmap|] eqn:Hcm; [|discriminate].
      destruct (Image.setHead _ _ coilmap) as [dst0|] eqn:Hhead; [|discriminate].
      apply setHead_head in Hhead.
      set (dst1 := Image.setNumberOfChannels indeterminate
                     (Image.getNumberOfChannels coilmap) dst0) in *.
      assert (Hh1 : Image.head dst1 =
                ImageHeader.with_channels (Image.getNumberOfChannels coilmap) (Image.head src)).
      { unfold dst1. by rewrite setNumberOfChannels_head, Hhead. }
      destruct (run _ dst1) as [out|] eqn:Hrun; [|discriminate].
      unfold append. monad_unfold. intros [= <-].
      exists (ImageWrap.mk ISMRMRD_CXFLOAT out). split; [|done].
      exists iw_src, src, coilmap, out. split; [done|]. split; [done|].
      split.
      { unfold get_csm_as_cfimage in Hcm. apply csm_search_seq in Hcm as (j & Hj & ?).
        exists j. split; [lia|]. destruct H as (? & ? & Hb). split; [done|]. split; [done|].
        intros j' Hj'. apply Hb. lia. }
      split; [done|].
      apply run_inv in Hrun. apply distribute_loop in Hrun as (Hh & _ & Hvox).
      split; [by rewrite Hh|].
      intros x y z ch Hx Hy Hz Hch.
      assert (Hdims : Image.getMatrixSizeX dst1 = Image.getMatrixSizeX src /\
                      Image.getMatrixSizeY dst1 = Image.getMatrixSizeY src /\
                      Image.getMatrixSizeZ dst1 = Image.getMatrixSizeZ src /\
                      Image.getNumberOfChannels dst1 = Image.getNumberOfChannels coilmap).
      { unfold Image.getMatrixSizeX, Image.getMatrixSizeY, Image.getMatrixSizeZ,
          Image.getNumberOfChannels. rewrite Hh1. done. }
      destruct Hdims as (Hdx & Hdy & Hdz & Hdc).
      destruct (Hvox (NoDup_voxel_offsets _ _) x y z ch) as (s0 & m0 & Hs0 & Hm0 & Hout).
      { apply elem_of_voxels. rewrite Hdx, Hdy, Hdz, Hdc. done. }
      exists s0, m0. split; [|split; [done|]].
      * unfold Image.at_. rewrite <- Hs0. f_equal. unfold Image.offset.
        rewrite Hdx, Hdy. lia.
      * unfold Image.at_, Image.read. rewrite offset_offset_in, Hh, Hout. done.
Qed.

(** C9 (where the claim departs from the code).  With one stored map and
    two combined images [forward()] throws; and the stored map of contrast
    0 is applied to an image of contrast 1, whose voxel 2 becomes 2 * 3 and
    2 * 5 in the two channels. *)
Lemma forward_rejects_fewer_maps :
  items one_map = 1 /\ items two_images = 2 /\
  forward (pixel 0) one_map two_images (images []) =
    (Throw (LocalisedException
       "The number of coilmaps does not equal the number of images to which they should be applied to."),
     images []) /\
  (Image.getContrast ∘ ImageWrap.image <$> images_ one_map) = [0%Z] /\
  (Image.getContrast ∘ ImageWrap.image <$> images_ contrast_one_image) = [1%Z] /\
  (forward (pixel 0) one_map contrast_one_image (images [])).1 = Ok tt /\
  (Image.data ∘ ImageWrap.image <$>
     images_ (forward (pixel 0) one_map contrast_one_image (images [])).2) =
    [[pixel 6; pixel 10]].
Proof. repeat split; vm_compute; reflexivity. Qed.

(** C8 (evaluation of the code where it departs from the claim).  The
    second image of [mixed_dimensions] has 2 x 1 x 1 voxels, the map that
    is matched with it has 1 x 1 x 1: [backward()] returns without an
    exception, and the second voxel of the second result is 0.  On one
    image of two channels with the values 2 and 7 and the map with the
    values 3 and 5 the result is 3 * 2 + 5 * 7. *)
Theorem backward_accepts_mismatched_dimensions :
  get_image_dimensions mixed_dimensions 1 = Ok [2; 1; 1; 1]%Z /\
  get_image_dimensions single_channel_maps 1 = Ok [1; 1; 1; 1]%Z /\
  (backward (pixel 0) single_channel_maps mixed_dimensions (images [])).1 = Ok tt /\
  (Image.data ∘ ImageWrap.image <$>
     images_ (backward (pixel 0) single_channel_maps mixed_dimensions (images [])).2) =
    [[pixel 3]; [pixel 3; pixel 0]] /\
  (backward (pixel 0) one_map two_channel_image (images [])).1 = Ok tt /\
  (Image.data ∘ ImageWrap.image <$>
     images_ (backward (pixel 0) one_map two_channel_image (images [])).2) =
    [[pixel 41]].
Proof. repeat split; vm_compute; reflexivity. Qed.
End CoilMaps.

(** * Further properties of the containers *)

(** ** Stable sorting *)

Section StableSort.
Context {A : Type} (key : A -> Z).

Lemma stable_insert_ext (comp comp' : A -> A -> bool) (x : A) (l : list A) :
  (forall y, y ∈ l -> comp y x = comp' y x) ->
  stable_insert comp x l = stable_insert comp' x l.
Proof.
  induction l as [|y l IH]; intros H; simpl; [done|].
  rewrite <- H by left. rewrite IH; [done|]. intros z Hz. apply H. by right.
Qed.

Lemma stable_sort_ext (comp comp' : A -> A -> bool) (l : list A) :
  (forall x y, x ∈ l -> y ∈ l -> comp x y = comp' x y) ->
  stable_sort comp l = stable_sort comp' l.
Proof.
  unfold stable_sort. induction l as [|x l IH]; intros H; simpl; [done|].
  rewrite IH by (intros; apply H; by right).
  apply stable_insert_ext. intros y Hy. apply H; [right|left].
  by rewrite (stable_sort_Permutation comp' l) in Hy.
Qed.

Lemma stable_insert_sorted (x : A) (l : list A) :
  StronglySorted Z.le (key <$> l) ->
  StronglySorted Z.le (key <$> stable_insert (fun a b => (key a <? key b)%Z) x l).
Proof.
  induction l as [|y l IH]; intros Hs; simpl.
  - repeat constructor.
  - rewrite fmap_cons in Hs. apply StronglySorted_inv in Hs as [Hs Hy].
    destruct (key y <? key x)%Z eqn:Hlt.
    + apply Z.ltb_lt in Hlt. rewrite fmap_cons. constructor; [by apply IH|].
      rewrite (stable_insert_Permutation _ x l), fmap_cons.
      constructor; [lia|done].
    + apply Z.ltb_ge in Hlt. rewrite !fmap_cons. constructor.
      * by constructor.
      * constructor; [done|]. eapply Forall_impl; [exact Hy|]. intros; simpl in *; lia.
Qed.

Lemma stable_sort_sorted (l : list A) :
  StronglySorted Z.le (key <$> stable_sort (fun a b => (key a <? key b)%Z) l).
Proof.
  unfold stable_sort. induction l as [|x l IH]; simpl; [constructor|].
  by apply stable_insert_sorted.
Qed.

Lemma stable_insert_filter (k : Z) (x : A) (l : list A) :
  filter (fun a => key a = k) (stable_insert (fun a b => (key a <? key b)%Z) x l) =
  filter (fun a => key a = k) (x :: l).
Proof.
  induction l as [|y l IH]; simpl; [done|].
  destruct (key y <? key x)%Z eqn:Hlt; [|done].
  apply Z.ltb_lt in Hlt. rewrite filter_cons, IH, !filter_cons.
  destruct (decide (key y = k)), (decide (key x = k)); try done. lia.
Qed.

Lemma stable_sort_filter (k : Z) (l : list A) :
  filter (fun a => key a = k) (stable_sort (fun a b => (key a <? key b)%Z) l) =
  filter (fun a => key a = k) l.
Proof.
  unfold stable_sort. induction l as [|x l IH]; simpl; [done|].
  rewrite stable_insert_filter, !filter_cons, IH. done.
Qed.
End StableSort.

Section SortByTimeAgain.
Import MRAcquisitionData.

Lemma index_lookup (c : t) (i v : nat) :
  length (index_ c) = number c -> index_ c !! i = Some v -> index c i = Ok v.
Proof.
  intros Hlen Hv. pose proof (lookup_lt_Some _ _ _ Hv) as Hi.
  unfold index. rewrite Hv.
  replace (length (index_ c) <=? i) with false by (symmetry; apply Nat.leb_gt; lia).
  replace (number c <=? i) with false by (symmetry; apply Nat.leb_gt; lia).
  replace (0 <? length (index_ c)) with true by (symmetry; apply Nat.ltb_lt; lia).
  done.
Qed.

Lemma get_acquisition_lookup (c : t) (i v : nat) (acq : Acquisition) :
  length (index_ c) = number c -> index_ c !! i = Some v -> acqs_ c !! v = Some acq ->
  get_acquisition c i = Ok ((if TO_BE_IGNORED acq then 0 else 1)%Z, acq).
Proof.
  intros Hlen Hv Ha. unfold get_acquisition. rewrite (index_lookup c i v) by done.
  monad_unfold. rewrite Ha. unfold TO_BE_IGNORED. by destruct (_ && _).
Qed.

Lemma stored_time_stamp_lookup (c : t) (v : nat) (acq : Acquisition) :
  acqs_ c !! v = Some acq -> stored_time_stamp c v = acquisition_time_stamp acq.
Proof. intros H. unfold stored_time_stamp. by rewrite H. Qed.

Lemma time_stamps_index (c : t) :
  length (index_ c) = number c -> (forall v, v ∈ index_ c -> v < number c) ->
  time_stamps c = Ok (stored_time_stamp c <$> index_ c).
Proof.
  intros Hlen Hin. unfold time_stamps.
  rewrite (collect_ok _ _ (fun i => stored_time_stamp c (index_ c !!! i))).
  - f_equal. apply list_eq. intros i. rewrite !list_lookup_fmap.
    destruct (index_ c !! i) as [v|] eqn:Hv; simpl.
    + rewrite lookup_seq_lt by (apply lookup_lt_Some in Hv; lia). simpl.
      by rewrite (list_lookup_total_correct _ _ _ Hv).
    + apply lookup_ge_None in Hv. rewrite lookup_seq_ge by lia. done.
  - intros i Hi%elem_of_seq.
    destruct (index_ c !! i) as [v|] eqn:Hv.
    2:{ apply lookup_ge_None in Hv. lia. }
    assert (Hvn : v < number c) by (apply Hin; by eapply list_elem_of_lookup_2).
    destruct (acqs_ c !! v) as [acq|] eqn:Ha.
    2:{ apply lookup_ge_None in Ha. unfold number in Hvn. lia. }
    rewrite (get_acquisition_lookup c i v acq) by done. monad_unfold. simpl.
    by rewrite (list_lookup_total_correct _ _ _ Hv), (stored_time_stamp_lookup c v acq).
Qed.

Lemma same_data_time_stamps (c c' : t) :
  (sorted_ c' = sorted_ c /\ index_ c' = index_ c /\
   acqs_info_ c' = acqs_info_ c /\ acqs_ c' = acqs_ c) ->
  time_stamps c' = time_stamps c.
Proof.
  intros (_ & Hi & _ & Ha). unfold time_stamps, get_acquisition, index, number.
  by rewrite Hi, Ha.
Qed.

(** The index [sort_by_time()] leaves when it starts from the identity. *)
Lemma sort_by_time_index (c : t) :
  index_ c = seq 0 (number c) -> 0 < number c ->
  index_ (sort_by_time c).2 =
  stable_sort (fun i j => (stored_time_stamp c i <? stored_time_stamp c j)%Z)
              (seq 0 (number c)).
Proof.
  intros Hix Hn. unfold sort_by_time. monad_unfold. cbv beta.
  assert (Hres : resize (number c) 0 (index_ c) = index_ c).
  { assert (Hlen : length (index_ c) = number c) by (by rewrite Hix, length_seq).
    pose proof (resize_all (index_ c) 0) as Hr. by rewrite Hlen in Hr. }
  rewrite Hres.
  replace (with_index_ (index_ c) c) with c by (by destruct c).
  destruct (number c =? 0) eqn:H0; [apply Nat.eqb_eq in H0; lia|].
  unfold id.
  change (collect (seq 0 (number c)) _) with (time_stamps c).
  rewrite time_stamps_index.
  2:{ by rewrite Hix, length_seq. }
  2:{ intros v. rewrite Hix. intros ?%elem_of_seq. lia. }
  cbv beta iota.
  match goal with |- context [organise_kspace ?x] =>
      pose proof (organise_kspace_frame x) as (_ & Hi & _ & _);
      destruct (organise_kspace x) as [[[]|e] c2] end; simpl in *; rewrite Hi.
  all: apply stable_sort_ext; intros x y Hx%elem_of_seq Hy%elem_of_seq.
  all: rewrite Hix.
  all: assert (Hk : forall k, k < number c ->
         (stored_time_stamp c <$> seq 0 (number c)) !!! k = stored_time_stamp c k)
    by (intros k Hk; apply list_lookup_total_correct;
        by rewrite list_lookup_fmap, lookup_seq_lt).
  all: rewrite !Hk by lia; done.
Qed.

(** X2.  Started from the identity index, as the first call on a fresh
    container leaves it, [sort_by_time()] leaves an index that is a
    rearrangement of 0, ..., number()-1 under which the time stamps read
    in logical order never decrease; stored positions with equal time
    stamps keep their order; the stored acquisitions are not touched. *)
Theorem sort_by_time_sorts (c : MRAcquisitionData.t) :
  index_ c = seq 0 (number c) -> 0 < number c ->
  acqs_ (sort_by_time c).2 = acqs_ c /\
  index_ (sort_by_time c).2 ≡ₚ seq 0 (number c) /\
  (exists ts, time_stamps (sort_by_time c).2 = Ok ts /\ StronglySorted Z.le ts) /\
  (forall k, filter (fun i => stored_time_stamp c i = k) (index_ (sort_by_time c).2) =
             filter (fun i => stored_time_stamp c i = k) (seq 0 (number c))).
Proof.
  intros Hix Hn. pose proof (sort_by_time_index c Hix Hn) as Hi.
  pose proof (sort_by_time_acqs c) as Ha.
  assert (Hperm : index_ (sort_by_time c).2 ≡ₚ seq 0 (number c))
    by (rewrite Hi; apply stable_sort_Permutation).
  split; [done|]. split; [done|]. split.
  - exists (stored_time_stamp c <$> index_ (sort_by_time c).2). split.
    + rewrite time_stamps_index.
      * f_equal. apply list_fmap_ext. intros _ v _. unfold stored_time_stamp. by rewrite Ha.
      * unfold number. by rewrite Ha, (Permutation_length Hperm), length_seq.
      * intros v. rewrite Hperm. intros ?%elem_of_seq. unfold number in *.
        rewrite Ha. lia.
    + rewrite Hi. apply stable_sort_sorted.
  - intros k. rewrite Hi. apply stable_sort_filter.
Qed.

Lemma sort_by_time_sorts_witness :
  acqs_ (sort_by_time sorted_once).2 = acqs_ sorted_once /\
  index_ (sort_by_time sorted_once).2 ≡ₚ seq 0 (number sorted_once) /\
  (exists ts, time_stamps (sort_by_time sorted_once).2 = Ok ts /\ StronglySorted Z.le ts) /\
  (forall k, filter (fun i => stored_time_stamp sorted_once i = k)
               (index_ (sort_by_time sorted_once).2) =
             filter (fun i => stored_time_stamp sorted_once i = k)
               (seq 0 (number sorted_once))).
Proof. apply (sort_by_time_sorts sorted_once); [reflexivity | vm_compute; lia]. Defined.

(** X1.  The first call of [sort_by_time()] on a container that is not
    empty and whose index is still empty does not order anything: the
    index it leaves is the identity, the stored acquisitions are the same,
    and the time stamps read in logical order are those of the stored
    acquisitions in storage order, ordered or not. *)
Theorem sort_by_time_first_call (c : MRAcquisitionData.t) :
  index_ c = [] -> 0 < number c ->
  index_ (sort_by_time c).2 = seq 0 (number c) /\
  acqs_ (sort_by_time c).2 = acqs_ c /\
  time_stamps (sort_by_time c).2 = Ok (acquisition_time_stamp <$> acqs_ c).
Proof.
  intros Hix Hn. pose proof (sort_by_time_fresh c Hix Hn) as Hi.
  pose proof (sort_by_time_acqs c) as Ha.
  split; [done|]. split; [done|].
  rewrite time_stamps_index.
  - rewrite Hi. f_equal. apply list_eq. intros i. rewrite !list_lookup_fmap.
    destruct (acqs_ c !! i) as [acq|] eqn:Hacq; simpl.
    + rewrite lookup_seq_lt by (apply lookup_lt_Some in Hacq; unfold number; lia).
      simpl. f_equal. apply stored_time_stamp_lookup. by rewrite Ha.
    + apply lookup_ge_None in Hacq. rewrite lookup_seq_ge; [done|]. unfold number. lia.
  - unfold number. by rewrite Ha, Hi, length_seq.
  - intros v. rewrite Hi. intros ?%elem_of_seq. unfold number in *. rewrite Ha. lia.
Qed.

Lemma sort_by_time_first_call_witness :
  index_ (sort_by_time late_then_early).2 = seq 0 (number late_then_early) /\
  acqs_ (sort_by_time late_then_early).2 = acqs_ late_then_early /\
  time_stamps (sort_by_time late_then_early).2 =
    Ok (acquisition_time_stamp <$> acqs_ late_then_early).
Proof. apply (sort_by_time_first_call late_then_early); [reflexivity | vm_compute; lia]. Defined.
End SortByTimeAgain.

Section SubContainers.
Import MRAcquisitionData.

(** *** get_flagged_acquisitions_index *)

Lemma foldl_orb_existsb {A} (f : A -> bool) (l : list A) (b : bool) :
  foldl (fun one_flag_is_set it => one_flag_is_set || f it) b l = b || existsb f l.
Proof.
  revert b. induction l as [|x l IH]; intros b; simpl.
  - by rewrite orb_false_r.
  - by rewrite IH, orb_assoc.
Qed.

Lemma flagged_hits (c : t) (flags : list Z) (l : list nat) (hits : list (nat * bool)) :
  collect l (fun i => ra ← get_acquisition c i;
                      Ok (i, foldl (fun one_flag_is_set it =>
                                      one_flag_is_set || isFlagSet ra.2 it) false flags))
    = Ok hits ->
  (filter (fun p : nat * bool => p.2 = true) hits).*1 =
  filter (fun i => carries_one_of c flags i = true) l.
Proof.
  revert hits. induction l as [|i l IH]; intros hits; simpl.
  - by intros [= <-].
  - monad_unfold.
    destruct (get_acquisition c i) as [ra|e] eqn:Hg; [|discriminate].
    destruct (collect l _) as [hits'|e]; [|discriminate].
    intros [= <-]. rewrite foldl_orb_existsb, orb_false_l.
    assert (Hc : carries_one_of c flags i = existsb (isFlagSet ra.2) flags)
      by (unfold carries_one_of; by rewrite Hg).
    rewrite !filter_cons. cbn [snd]. rewrite Hc.
    destruct (existsb (isFlagSet ra.2) flags).
    + rewrite !decide_True by done. csimpl. f_equal. by apply IH.
    + rewrite !decide_False by done. by apply IH.
Qed.

Lemma carries_none (c : t) (i : nat) : carries_one_of c [] i = false.
Proof. unfold carries_one_of. by destruct (get_acquisition c i). Qed.

Lemma carries_one_of_spec (c : t) (flags : list Z) (i : nat) :
  carries_one_of c flags i = true <->
  exists r acq flag, get_acquisition c i = Ok (r, acq) /\ flag ∈ flags /\
                     isFlagSet acq flag = true.
Proof.
  unfold carries_one_of. destruct (get_acquisition c i) as [[r acq]|e]; simpl.
  - rewrite existsb_exists. split.
    + intros (flag & Hin%list_elem_of_In & Hf). by exists r, acq, flag.
    + intros (r' & acq' & flag & [= <- <-] & Hin & Hf). exists flag.
      by rewrite <- list_elem_of_In.
  - split; [done|]. by intros (? & ? & ? & ? & _).
Qed.

Lemma get_flagged_acquisitions_index_filter (c : t) (flags : list Z) (l : list nat) :
  get_flagged_acquisitions_index c flags = Ok l ->
  l = filter (fun i => carries_one_of c flags i = true) (seq 0 (number c)).
Proof.
  intros H. unfold get_flagged_acquisitions_index in H. destruct flags as [|f flags].
  - injection H as <-. induction (seq 0 (number c)) as [|i s IH]; [done|].
    rewrite filter_cons, decide_False; [done|]. by rewrite carries_none.
  - monad_unfold. destruct (collect _ _) as [hits|e] eqn:Hc; [|discriminate].
    injection H as <-. by apply flagged_hits.
Qed.

(** X3.  When [get_flagged_acquisitions_index(flags)] returns, its result
    lists in ascending order exactly the logical positions whose
    acquisition carries at least one of the flags; with an empty list of
    flags the result is empty. *)
Theorem get_flagged_acquisitions_index_spec (c : MRAcquisitionData.t) (flags : list Z)
    (l : list nat) :
  get_flagged_acquisitions_index c flags = Ok l ->
  l = filter (fun i => carries_one_of c flags i = true) (seq 0 (number c)) /\
  (forall i, i ∈ l <->
     i < number c /\
     exists r acq flag, get_acquisition c i = Ok (r, acq) /\ flag ∈ flags /\
                        isFlagSet acq flag = true) /\
  (flags = [] -> l = []).
Proof.
  intros H. pose proof (get_flagged_acquisitions_index_filter c flags l H) as Hl.
  split; [done|]. split.
  - intros i. rewrite Hl, list_elem_of_filter, elem_of_seq, carries_one_of_spec.
    split; intros [? ?]; split; first [lia|done].
  - intros ->. unfold get_flagged_acquisitions_index in H. by injection H.
Qed.

Lemma get_flagged_acquisitions_index_spec_witness :
  [0; 1] = filter (fun i => carries_one_of calibration_late_then_early
                              CoilImagesVector.calibration_flags i = true)
             (seq 0 (number calibration_late_then_early)).
Proof.
  apply (get_flagged_acquisitions_index_spec calibration_late_then_early
           CoilImagesVector.calibration_flags [0; 1]).
  reflexivity.
Defined.

(** *** get_subset, clone *)

Lemma copy_loop (this : t) (idx : list nat) (s : t) :
  match acquisitions_at this idx with
  | Ok l =>
      for_each idx (fun i => ra ← lift (get_acquisition this i); append_acquisition ra.2) s
      = (Ok tt, with_acqs_ (acqs_ s ++ l) s)
  | Throw e =>
      (for_each idx (fun i => ra ← lift (get_acquisition this i);
                              append_acquisition ra.2) s).1 = Throw e
  end.
Proof.
  unfold acquisitions_at. revert s. induction idx as [|i idx IH]; intros s.
  - simpl. rewrite app_nil_r. by destruct s.
  - rewrite for_each_cons. cbn [collect].
    destruct (get_acquisition this i) as [[r acq]|e] eqn:Hg.
    + change ((lift (Ok (r, acq)) ≫= _) s) with (Ok tt, with_acqs_ (acqs_ s ++ [acq]) s).
      specialize (IH (with_acqs_ (acqs_ s ++ [acq]) s)).
      destruct (collect idx _) as [l|e0]; cbn.
      * rewrite IH. cbn. by rewrite <- app_assoc.
      * exact IH.
    + done.
Qed.

Lemma get_subset_empty (this subset : t) (subset_idx : list nat) :
  number subset = 0 ->
  (forall l, acquisitions_at this subset_idx = Ok l ->
     get_subset this subset_idx subset =
     (Ok tt, with_acqs_ l (with_acqs_info_ (acquisitions_info this) subset))) /\
  (forall e, acquisitions_at this subset_idx = Throw e ->
     (get_subset this subset_idx subset).1 = Throw e).
Proof.
  pose proof (copy_loop this subset_idx
                (with_acqs_info_ (acquisitions_info this) subset)) as Hl.
  unfold get_subset, set_acquisitions_info. monad_unfold.
  change (number (with_acqs_info_ (acquisitions_info this) subset)) with (number subset).
  intros H. rewrite H. simpl.
  assert (Ha : acqs_ subset = []) by (by apply length_zero_iff_nil).
  split.
  - intros l Hacq. rewrite Hacq in Hl. rewrite Hl. simpl. by rewrite Ha.
  - intros e Hacq. by rewrite Hacq in Hl.
Qed.

(** X4.  [get_subset(subset, subset_idx)] on a destination that holds
    acquisitions throws, and has replaced the header of the destination
    before it does.  On an empty destination it stores the acquisitions
    read at the logical positions [subset_idx], in that order and whether
    ignored or not, and replaces the header; the flag [sorted_], the index
    and the subsets of the destination stay as they were.  An exception
    of a read is passed on. *)
Theorem get_subset_spec (this subset : MRAcquisitionData.t) (subset_idx : list nat) :
  (0 < number subset ->
   get_subset this subset_idx subset =
   (Throw (LocalisedException
      "Please pass an empty MRAcquisitionnData container to store the subset in"),
    with_acqs_info_ (acquisitions_info this) subset)) /\
  (number subset = 0 ->
   (forall l, acquisitions_at this subset_idx = Ok l ->
      get_subset this subset_idx subset =
      (Ok tt, with_acqs_ l (with_acqs_info_ (acquisitions_info this) subset))) /\
   (forall e, acquisitions_at this subset_idx = Throw e ->
      (get_subset this subset_idx subset).1 = Throw e)).
Proof.
  split; [|apply get_subset_empty].
  unfold get_subset, set_acquisitions_info. monad_unfold.
  change (number (with_acqs_info_ (acquisitions_info this) subset)) with (number subset).
  intros H. by replace (0 <? number subset) with true by (symmetry; by apply Nat.ltb_lt).
Qed.

Lemma get_subset_spec_witness :
  get_subset late_then_early [1; 0] (AcquisitionsVector header_two_slices) =
  (Ok tt, mk false [] [] header_two_slices [acquisition 0 1 1; acquisition 0 2 0]).
Proof.
  apply (proj2 (get_subset_spec late_then_early (AcquisitionsVector header_two_slices)
                  [1; 0]) eq_refl).
  reflexivity.
Defined.

Lemma index_fresh_acq (c : t) (i : nat) :
  index_ c = [] -> i < number c -> MRAcquisitionData.index c i = Ok i.
Proof.
  intros Hix Hi. unfold MRAcquisitionData.index. rewrite Hix. simpl.
  by replace (number c <=? i) with false by (symmetry; apply Nat.leb_gt; lia).
Qed.

Lemma collect_seq_list {B} (l : list B) (g : nat -> result B) (a : nat) :
  (forall i b, l !! i = Some b -> g (a + i) = Ok b) ->
  collect (seq a (length l)) g = Ok l.
Proof.
  revert a. induction l as [|b l IH]; intros a H; simpl; [done|].
  pose proof (H 0 b eq_refl) as H0. rewrite Nat.add_0_r in H0.
  monad_unfold. rewrite H0.
  rewrite IH; [done|]. intros i b' Hi.
  replace (S a + i) with (a + S i) by lia. by apply H.
Qed.

(** With an empty index the logical order is the order of storage. *)
Lemma logical_order_fresh (c : t) : index_ c = [] -> logical_order c = Ok (acqs_ c).
Proof.
  intros Hix. unfold logical_order, number. apply collect_seq_list.
  intros i acq Ha. simpl. unfold get_acquisition.
  rewrite index_fresh_acq by (done || by eapply lookup_lt_Some). monad_unfold.
  rewrite Ha. by destruct (_ && _).
Qed.

Lemma organise_kspace_same (c c' : t) (r : result unit) :
  organise_kspace c = (r, c') ->
  sorted_ c' = sorted_ c /\ index_ c' = index_ c /\
  acqs_info_ c' = acqs_info_ c /\ acqs_ c' = acqs_ c.
Proof. intros H. pose proof (organise_kspace_frame c) as Hf. by rewrite H in Hf. Qed.

(** X5.  [clone()] of an unsorted container whose logical positions can
    all be read returns the container that stores the acquisitions in
    their logical order, with an empty index.  Whenever [clone()] returns,
    the clone stores the logical order of the original, has the same
    logical order, number, header and flag [sorted_], and an empty
    index. *)
Theorem clone_keeps_logical_order (c : MRAcquisitionData.t) :
  (forall l, logical_order c = Ok l -> sorted c = false ->
     clone c = Ok (mk false [] [] (acqs_info_ c) l)) /\
  (forall c', clone c = Ok c' ->
     logical_order c = Ok (acqs_ c') /\ logical_order c' = Ok (acqs_ c') /\
     number c' = number c /\ index_ c' = [] /\
     sorted c' = sorted c /\ acqs_info_ c' = acqs_info_ c).
Proof.
  pose proof (copy_loop c (seq 0 (number c)) (AcquisitionsVector (acqs_info_ c))) as Hl.
  change (acquisitions_at c (seq 0 (number c))) with (logical_order c) in Hl.
  unfold clone, clone_impl, set_sorted. monad_unfold. split.
  - intros l Hlo Hs. rewrite Hlo in Hl. rewrite Hl, Hs. done.
  - intros c'. destruct (logical_order c) as [l|e] eqn:Hlo.
    + rewrite Hl. cbn [app AcquisitionsVector acqs_].
      assert (Hlen : length l = number c).
      { apply collect_length in Hlo. by rewrite length_seq in Hlo. }
      destruct (sorted c) eqn:Hs.
      * destruct (organise_kspace _) as [[[]|e] c1] eqn:Ho; [|discriminate].
        apply organise_kspace_same in Ho as (H1 & H2 & H3 & H4). cbn in *.
        intros [= <-].
        split; [by rewrite H4|]. split; [by apply logical_order_fresh|].
        unfold number. rewrite H4. unfold sorted. by rewrite H1.
      * intros [= <-]. split; [done|].
        split; [exact (logical_order_fresh
                         (with_sorted_ false
                            (with_acqs_ l (AcquisitionsVector (acqs_info_ c)))) eq_refl)|].
        done.
    + destruct (for_each _ _ _) as [[[]|e0] s1]; cbn in Hl; [discriminate|].
      discriminate.
Qed.

Lemma clone_keeps_logical_order_witness :
  exists c',
    clone sorted_twice = Ok c' /\
    logical_order sorted_twice = Ok (acqs_ c') /\ logical_order c' = Ok (acqs_ c') /\
    number c' = number sorted_twice /\ index_ c' = [] /\
    sorted c' = sorted sorted_twice /\ acqs_info_ c' = acqs_info_ sorted_twice.
Proof.
  assert (H : exists c', clone sorted_twice = Ok c') by (eexists; vm_compute; reflexivity).
  destruct H as [c' H]. exists c'. split; [exact H|].
  apply (proj2 (clone_keeps_logical_order sorted_twice) c' H).
Defined.
End SubContainers.

Section Calibration.
Import MRAcquisitionData.

Lemma sort_by_time_ok (c c' : t) :
  sort_by_time c = (Ok tt, c') ->
  sorted_ c' = true /\ acqs_info_ c' = acqs_info_ c /\ acqs_ c' = acqs_ c.
Proof.
  unfold sort_by_time. monad_unfold. cbv beta.
  set (c1 := with_index_ (resize (number c) 0 (index_ c)) c).
  destruct (number c =? 0).
  - destruct (organise_kspace c1) as [[[]|e] c2] eqn:Ho; [|discriminate].
    apply organise_kspace_same in Ho as (_ & _ & H3 & H4). by intros [= <-].
  - destruct (collect _ _) as [a|e]; [|discriminate]. cbv beta iota.
    match goal with |- context [organise_kspace ?x] =>
      destruct (organise_kspace x) as [[[]|e] c2] eqn:Ho end; [|discriminate].
    apply organise_kspace_same in Ho as (_ & _ & H3 & H4). by intros [= <-].
Qed.

Lemma acquisitions_at_carry (c : t) (flags : list Z) (idx : list nat)
    (l : list Acquisition) :
  acquisitions_at c idx = Ok l ->
  Forall (fun i => carries_one_of c flags i = true) idx ->
  Forall (fun a => existsb (isFlagSet a) flags = true) l.
Proof.
  unfold acquisitions_at. revert l. induction idx as [|i idx IH]; intros l; simpl.
  - intros [= <-]. constructor.
  - monad_unfold. unfold carries_one_of at 1.
    destruct (get_acquisition c i) as [ra|e] eqn:Hg; [|discriminate].
    destruct (collect idx _) as [l'|e]; [|discriminate].
    intros [= <-] Hf. apply Forall_cons in Hf as [Hi Hf].
    unfold carries_one_of in Hi. rewrite Hg in Hi.
    constructor; [done|]. by apply IH.
Qed.

Lemma calibration_run (ad cl calib : t) (ix : list nat) :
  run (empty ;; get_subset ad ix ;; sort_by_time) cl = Ok calib ->
  acquisitions_at ad ix = Ok (acqs_ calib) /\
  sorted calib = true /\ acqs_info_ calib = acqs_info_ ad.
Proof.
  set (cl0 := with_index_ [] (with_acqs_ [] cl)). unfold run.
  change ((empty ;; get_subset ad ix ;; sort_by_time) cl)
    with (match get_subset ad ix cl0 with
          | (Ok _, s') => sort_by_time s'
          | (Throw e, s') => (Throw e, s')
          end).
  destruct (get_subset_empty ad cl0 ix eq_refl) as [Hok Herr].
  destruct (acquisitions_at ad ix) as [l|e] eqn:Hacq.
  - rewrite (Hok l eq_refl).
    destruct (sort_by_time _) as [[[]|e] c2] eqn:Hs; [|discriminate].
    intros [= <-]. apply sort_by_time_ok in Hs as (H1 & H2 & H3). cbn in H2, H3.
    by rewrite H3.
  - specialize (Herr e eq_refl).
    destruct (get_subset ad ix cl0) as [[[]|e0] s1]; simpl in Herr; discriminate.
Qed.

(** X6.  When [extract_calibration_data(ad)] returns: for a trajectory
    other than Cartesian, and for Cartesian data without an acquisition
    that carries a calibration flag, the result is the clone of [ad];
    otherwise the result stores exactly the acquisitions of [ad] at the
    flagged logical positions, in that order, every one of them carries a
    calibration flag, the result is marked sorted and has the header of
    [ad]. *)
Theorem extract_calibration_data_selects (ad calib : MRAcquisitionData.t) :
  CoilImagesVector.extract_calibration_data ad = Ok calib ->
  exists cl traj,
    clone ad = Ok cl /\ get_trajectory_type ad = Ok traj /\
    (traj <> CARTESIAN -> calib = cl) /\
    (traj = CARTESIAN ->
     exists idx,
       get_flagged_acquisitions_index ad CoilImagesVector.calibration_flags = Ok idx /\
       (idx = [] -> calib = cl) /\
       (idx <> [] ->
        acquisitions_at ad idx = Ok (acqs_ calib) /\
        Forall (fun a => existsb (isFlagSet a) CoilImagesVector.calibration_flags = true)
               (acqs_ calib) /\
        sorted calib = true /\ acqs_info_ calib = acqs_info_ ad)).
Proof.
  pose proof (calibration_run ad) as Hrun.
  unfold CoilImagesVector.extract_calibration_data. monad_unfold.
  destruct (clone ad) as [cl|e] eqn:Hcl; [|discriminate].
  destruct (get_trajectory_type ad) as [traj|e] eqn:Ht; [|discriminate].
  intros H. exists cl, traj. split; [done|]. split; [done|].
  destruct traj; try (split; [by intros _; injection H|discriminate]).
  split; [done|]. intros _.
  destruct (get_flagged_acquisitions_index ad _) as [idx|e] eqn:Hidx; [|discriminate].
  exists idx. split; [done|].
  destruct idx as [|i idx].
  - cbn [length Nat.ltb Nat.leb] in H. split; [by intros _; injection H|done].
  - split; [done|]. intros _. cbn [length Nat.ltb Nat.leb] in H.
    apply Hrun in H as (H1 & H2 & H3).
    split; [done|]. split; [|done].
    apply (acquisitions_at_carry ad _ (i :: idx)); [done|].
    apply get_flagged_acquisitions_index_filter in Hidx.
    rewrite Hidx. apply Forall_forall. by intros j [? _]%list_elem_of_filter.
Qed.

Lemma extract_calibration_data_selects_witness :
  exists calib cl traj,
    CoilImagesVector.extract_calibration_data calibration_late_then_early = Ok calib /\
    clone calibration_late_then_early = Ok cl /\
    get_trajectory_type calibration_late_then_early = Ok traj /\
    (traj <> CARTESIAN -> calib = cl) /\
    (traj = CARTESIAN ->
     exists idx,
       get_flagged_acquisitions_index calibration_late_then_early
         CoilImagesVector.calibration_flags = Ok idx /\
       (idx = [] -> calib = cl) /\
       (idx <> [] ->
        acquisitions_at calibration_late_then_early idx = Ok (acqs_ calib) /\
        Forall (fun a => existsb (isFlagSet a) CoilImagesVector.calibration_flags = true)
               (acqs_ calib) /\
        sorted calib = true /\ acqs_info_ calib = acqs_info_ calibration_late_then_early)).
Proof.
  assert (H : exists calib,
    CoilImagesVector.extract_calibration_data calibration_late_then_early = Ok calib)
    by (eexists; vm_compute; reflexivity).
  destruct H as [calib H]. exists calib.
  destruct (extract_calibration_data_selects calibration_late_then_early calib H)
    as (cl & traj & Hrest).
  exists cl, traj. split; [exact H | exact Hrest].
Defined.
End Calibration.

Section KspaceOrder.
Import MRAcquisitionData.

Lemma organise_kspace_concat (c c' : t) :
  organise_kspace c = (Ok tt, c') ->
  number c' = number c /\
  concat (KSpaceSubset.get_idx_set <$> sorting_ c') ≡ₚ seq 0 (number c) /\
  Forall non_empty (sorting_ c').
Proof.
  intros H. pose proof (organise_kspace_same _ _ _ H) as (_ & _ & _ & Ha).
  assert (Hnum : number c' = number c) by (unfold number; by rewrite Ha).
  apply organise_kspace_inv in H as (enc & c1 & He & Hloop & ->).
  apply assign_loop_partition in Hloop as (Hsd & Hlen & Hperm). simpl in *.
  split; [done|]. split.
  - rewrite concat_idx_filter, Hperm, concat_idx_candidates. done.
  - apply Forall_forall. intros s Hs. apply list_elem_of_filter in Hs. tauto.
Qed.

(** X7.  After [organise_kspace()] has returned on a container that is
    not empty, [get_kspace_order()] does not throw: it returns the index
    sets of the subsets, none of them empty, which together hold every
    logical position once. *)
Theorem get_kspace_order_after_organise (c c' : MRAcquisitionData.t) :
  organise_kspace c = (Ok tt, c') -> 0 < number c ->
  get_kspace_order c' = Ok (KSpaceSubset.get_idx_set <$> sorting_ c') /\
  concat (KSpaceSubset.get_idx_set <$> sorting_ c') ≡ₚ seq 0 (number c) /\
  Forall (fun s => s <> []) (KSpaceSubset.get_idx_set <$> sorting_ c').
Proof.
  intros H Hn. apply organise_kspace_concat in H as (Hnum & Hperm & Hne).
  assert (Hall : Forall (fun s => s <> []) (KSpaceSubset.get_idx_set <$> sorting_ c')).
  { apply Forall_fmap. eapply Forall_impl; [exact Hne|]. done. }
  split; [|done]. unfold get_kspace_order. rewrite Hnum.
  replace (number c =? 0) with false by (symmetry; apply Nat.eqb_neq; lia).
  destruct (sorting_ c') as [|s L] eqn:Hs.
  - simpl in Hperm. apply Permutation_length in Hperm. rewrite length_seq in Hperm.
    simpl in Hperm. lia.
  - cbn [length Nat.eqb]. f_equal.
    rewrite <- Hs in *. clear Hs Hperm Hne.
    induction Hall as [|x l Hx Hl IH]; [done|].
    rewrite filter_cons, decide_True by done. by rewrite IH.
Qed.

Lemma get_kspace_order_after_organise_witness :
  get_kspace_order (organise_kspace late_then_early).2 =
    Ok (KSpaceSubset.get_idx_set <$> sorting_ (organise_kspace late_then_early).2) /\
  concat (KSpaceSubset.get_idx_set <$> sorting_ (organise_kspace late_then_early).2)
    ≡ₚ seq 0 (number late_then_early) /\
  Forall (fun s => s <> []) (KSpaceSubset.get_idx_set <$>
                               sorting_ (organise_kspace late_then_early).2).
Proof.
  apply (get_kspace_order_after_organise late_then_early); [reflexivity | vm_compute; lia].
Defined.

(** *** set_subset *)

Lemma for_each_fixed {S A} (l : list A) (body : A -> M S unit) (s : S) :
  (forall a, a ∈ l -> body a s = (Ok tt, s)) -> for_each l body s = (Ok tt, s).
Proof.
  induction l as [|a l IH]; intros H; [done|].
  rewrite for_each_cons, H by left. apply IH. intros; apply H; by right.
Qed.

Lemma set_acquisition_same (c : t) (num : nat) (r : Z) (acq : Acquisition) :
  get_acquisition c num = Ok (r, acq) -> set_acquisition num acq c = (Ok tt, c).
Proof.
  unfold get_acquisition, set_acquisition. monad_unfold.
  destruct (MRAcquisitionData.index c num) as [ind|e]; [|discriminate].
  destruct (acqs_ c !! ind) as [a|] eqn:Ha; [|discriminate].
  intros Heq. assert (a = acq) as -> by (destruct (_ && _); by injection Heq).
  replace (ind <? length (acqs_ c)) with true
    by (symmetry; apply Nat.ltb_lt; by eapply lookup_lt_Some).
  rewrite list_insert_id by done. by destruct c.
Qed.

(** X8.  Writing back with [set_subset] the subset that [get_subset] has
    just stored in an empty container, at the same positions, returns
    without an exception and leaves the container as it was. *)
Theorem set_subset_of_get_subset (c dst dst' : MRAcquisitionData.t)
    (subset_idx : list nat) :
  number dst = 0 -> index_ dst = [] ->
  get_subset c subset_idx dst = (Ok tt, dst') ->
  set_subset dst' subset_idx c = (Ok tt, c).
Proof.
  intros Hn Hix Hget.
  destruct (get_subset_empty c dst subset_idx Hn) as [Hok Herr].
  destruct (acquisitions_at c subset_idx) as [l|e] eqn:Hacq.
  2:{ rewrite Hget in Herr. specialize (Herr e eq_refl). discriminate. }
  rewrite (Hok l eq_refl) in Hget. injection Hget as <-.
  pose proof (collect_length _ _ _ Hacq) as Hlen.
  unfold set_subset.
  change (number (with_acqs_ l (with_acqs_info_ (acquisitions_info c) dst)))
    with (length l).
  rewrite Hlen, Nat.eqb_refl. cbn [negb].
  apply for_each_fixed. intros i Hi%elem_of_seq.
  destruct (subset_idx !! i) as [num|] eqn:Hnum.
  2:{ apply lookup_ge_None in Hnum. lia. }
  destruct (collect_lookup _ _ _ _ _ Hacq Hnum) as (acq & Hg & Hl).
  monad_unfold.
  destruct (get_acquisition c num) as [[r a]|e] eqn:Hgc; [|discriminate].
  simpl in Hg. injection Hg as ->.
  assert (Hgd : get_acquisition (with_acqs_ l (with_acqs_info_ (acquisitions_info c) dst)) i
                = Ok ((if TO_BE_IGNORED acq then 0 else 1)%Z, acq)).
  { unfold get_acquisition. rewrite index_fresh_acq; [|done|].
    - monad_unfold. cbn [acqs_ with_acqs_]. rewrite Hl. unfold TO_BE_IGNORED.
      by destruct (_ && _).
    - unfold number. cbn. lia. }
  rewrite Hgd. cbn [snd]. by eapply set_acquisition_same.
Qed.

Lemma set_subset_of_get_subset_witness :
  set_subset (get_subset late_then_early [1; 0] (AcquisitionsVector header_two_slices)).2
    [1; 0] late_then_early = (Ok tt, late_then_early).
Proof.
  apply (set_subset_of_get_subset late_then_early (AcquisitionsVector header_two_slices));
    reflexivity.
Defined.
End KspaceOrder.

Section Algebra.
Import MRAcquisitionData.

Lemma logical_order_lookup (c : t) (l : list Acquisition) (i : nat) (acq : Acquisition) :
  logical_order c = Ok l -> l !! i = Some acq ->
  get_acquisition c i = Ok ((if TO_BE_IGNORED acq then 0 else 1)%Z, acq).
Proof.
  intros Hl Hi. pose proof (collect_length _ _ _ Hl) as Hlen. rewrite length_seq in Hlen.
  assert (Hs : seq 0 (number c) !! i = Some i).
  { apply lookup_seq_lt. apply lookup_lt_Some in Hi. lia. }
  destruct (collect_lookup _ _ _ _ _ Hl Hs) as (b & Hb & Hbi).
  rewrite Hi in Hbi. injection Hbi as <-. monad_unfold.
  destruct (get_acquisition c i) as [[r a]|e] eqn:Hg; [|discriminate].
  simpl in Hb. injection Hb as ->.
  by rewrite (get_acquisition_result c i r acq Hg).
Qed.

Lemma not_ignored_cons (a : Acquisition) (l : list Acquisition) :
  not_ignored (a :: l) = if TO_BE_IGNORED a then not_ignored l else a :: not_ignored l.
Proof.
  unfold not_ignored. rewrite filter_cons.
  destruct (TO_BE_IGNORED a); [by rewrite decide_False|by rewrite decide_True].
Qed.

(** The loop of [binary_op] on an empty destination pairs the acquisitions
    of [x] and of [y] that are not ignored, in their logical order. *)
Lemma binary_op_loop_empty (f : Acquisition -> Acquisition -> Acquisition) (x y : t)
    (lx ly : list Acquisition) :
  logical_order x = Ok lx -> logical_order y = Ok ly ->
  forall fuel ix iy k s,
    ix <= length lx -> iy <= length ly ->
    (length lx - ix) + (length ly - iy) < fuel ->
    binary_op_loop fuel f x y (length lx) (length ly) true ix iy k s =
    (Ok tt, with_acqs_ (acqs_ s ++ zip_with f (not_ignored (drop ix lx))
                                             (not_ignored (drop iy ly))) s).
Proof.
  intros Hx Hy. induction fuel as [|fuel IH]; intros ix iy k s Hix Hiy Hfuel; [lia|].
  cbn [binary_op_loop].
  destruct (ix <? length lx) eqn:Hlx; cbn [andb].
  2:{ apply Nat.ltb_ge in Hlx. rewrite drop_ge by done. cbn.
      rewrite app_nil_r. by destruct s. }
  destruct (iy <? length ly) eqn:Hly.
  2:{ apply Nat.ltb_ge in Hly. rewrite (drop_ge ly) by done. cbn.
      rewrite zip_with_nil_r, app_nil_r. by destruct s. }
  apply Nat.ltb_lt in Hlx, Hly.
  destruct (lx !! ix) as [ax|] eqn:Hax; [|apply lookup_ge_None in Hax; lia].
  destruct (ly !! iy) as [ay|] eqn:Hay; [|apply lookup_ge_None in Hay; lia].
  rewrite (drop_S lx ax ix Hax), (drop_S ly ay iy Hay), !not_ignored_cons.
  pose proof (logical_order_lookup x lx ix ax Hx Hax) as Hgx.
  pose proof (logical_order_lookup y ly iy ay Hy Hay) as Hgy.
  monad_unfold. rewrite Hgx. cbn [fst snd].
  destruct (TO_BE_IGNORED ax) eqn:Hix0; cbn [Z.eqb].
  { rewrite IH by lia. by rewrite (drop_S ly ay iy Hay), not_ignored_cons. }
  rewrite Hgy. cbn [fst snd].
  destruct (TO_BE_IGNORED ay) eqn:Hiy0; cbn [Z.eqb].
  { rewrite IH by lia. by rewrite (drop_S lx ax ix Hax), not_ignored_cons, Hix0. }
  unfold append_acquisition. monad_unfold.
  rewrite IH by lia. cbn [acqs_ with_acqs_ zip_with]. rewrite <- app_assoc. by destruct s.
Qed.

(** X9.  With sorted operands and an empty destination, [binary_op(x, y,
    f)] stores [f] of the pairs made, in order, of the acquisitions of [x]
    that are not ignored and of the acquisitions of [y] that are not
    ignored, as many as the shorter of the two has, and then marks the
    destination sorted and calls [organise_kspace()]. *)
Theorem binary_op_into_empty (f : Acquisition -> Acquisition -> Acquisition)
    (x y dst : MRAcquisitionData.t) (lx ly : list Acquisition) :
  sorted x = true -> sorted y = true -> number dst = 0 ->
  logical_order x = Ok lx -> logical_order y = Ok ly ->
  binary_op x y f dst =
  (set_sorted true ;; organise_kspace)
    (with_acqs_ (zip_with f (not_ignored lx) (not_ignored ly)) dst).
Proof.
  intros Hsx Hsy Hn Hx Hy. unfold binary_op. rewrite Hsx, Hsy. cbn [negb orb].
  pose proof (collect_length _ _ _ Hx) as Hlx. rewrite length_seq in Hlx.
  pose proof (collect_length _ _ _ Hy) as Hly. rewrite length_seq in Hly.
  pose proof (binary_op_loop_empty f x y lx ly Hx Hy
                (S (number x + number y + number dst)) 0 0 0 dst) as Hloop.
  rewrite Hlx, Hly in Hloop. unfold set_sorted in *. monad_unfold. rewrite Hn.
  cbn [Nat.ltb Nat.leb]. rewrite Hn in Hloop. rewrite Hloop by lia.
  rewrite !drop_0. assert (Ha : acqs_ dst = []) by (by apply length_zero_iff_nil).
  by rewrite Ha.
Qed.

Lemma binary_op_into_empty_witness :
  multiply sorted_twice sorted_twice (AcquisitionsVector header_two_slices) =
  (set_sorted true ;; organise_kspace)
    (with_acqs_ (zip_with acq_multiply
                   (not_ignored [acquisition 0 1 1; acquisition 0 2 0])
                   (not_ignored [acquisition 0 1 1; acquisition 0 2 0]))
       (AcquisitionsVector header_two_slices)).
Proof.
  apply (binary_op_into_empty acq_multiply sorted_twice sorted_twice); reflexivity.
Defined.
End Algebra.

Section Samples.
Import MRAcquisitionData.












End Samples.

Section Conjugate.
Import MRAcquisitionData.

Lemma opp_involutive (x : Float32.float) : Float32.opp (Float32.opp x) = x.
Proof. destruct x; simpl; by rewrite ?negb_involutive. Qed.

Lemma conj_involutive (z : complex_float_t) : Complex.conj (Complex.conj z) = z.
Proof. destruct z as [re im]. unfold Complex.conj. simpl. by rewrite opp_involutive. Qed.

Lemma conj_acq_involutive (acq : Acquisition) : conj_acq (conj_acq acq) = acq.
Proof.
  destruct acq as [fl ts ix d]. unfold conj_acq, with_data. cbn. f_equal.
  rewrite <- list_fmap_compose. rewrite <- (list_fmap_id d) at 2.
  apply list_fmap_ext. intros _ z _. apply conj_involutive.
Qed.

Lemma alter_twice {A} (f : A -> A) (p : nat) (l : list A) :
  (forall x, f (f x) = x) -> alter f p (alter f p l) = l.
Proof.
  intros Hf. apply list_eq. intros j. rewrite !list_lookup_alter.
  repeat case_decide; subst; try done.
  destruct (l !! j); simpl; by rewrite ?Hf.
Qed.

Lemma alter_swap {A} (f : A -> A) (p q : nat) (l : list A) :
  alter f p (alter f q l) = alter f q (alter f p l).
Proof.
  destruct (decide (p = q)) as [->|Hne]; [done|].
  apply list_eq. intros j. rewrite !list_lookup_alter.
  repeat case_decide; subst; done.
Qed.

Lemma conj_all_cons (p : nat) (ps : list nat) (l : list Acquisition) :
  conj_all (p :: ps) l = conj_all ps (alter conj_acq p l).
Proof. reflexivity. Qed.

Lemma conj_all_alter (ps : list nat) (p : nat) (l : list Acquisition) :
  alter conj_acq p (conj_all ps l) = conj_all ps (alter conj_acq p l).
Proof.
  unfold conj_all. revert l. induction ps as [|q ps IH]; intros l; [done|].
  cbn [foldl]. by rewrite IH, alter_swap.
Qed.

Lemma conj_all_involutive (ps : list nat) (l : list Acquisition) :
  conj_all ps (conj_all ps l) = l.
Proof.
  revert l. induction ps as [|p ps IH]; intros l; [done|].
  rewrite !conj_all_cons, conj_all_alter, IH. apply alter_twice, conj_acq_involutive.
Qed.

Lemma length_conj_all (ps : list nat) (l : list Acquisition) :
  length (conj_all ps l) = length l.
Proof.
  unfold conj_all. revert l. induction ps as [|p ps IH]; intros l; [done|].
  cbn [foldl]. by rewrite IH, length_alter.
Qed.

Lemma storage_positions_length (c c' : t) (positions : list nat) :
  index_ c' = index_ c -> number c' = number c ->
  storage_positions c' positions = storage_positions c positions.
Proof.
  intros Hi Hn. unfold storage_positions, MRAcquisitionData.index. by rewrite Hi, Hn.
Qed.

Lemma conjugate_body_step (a : nat) (c : t) :
  match storage_positions c [a] with
  | Ok ps => conjugate_body a c = (Ok tt, with_acqs_ (conj_all ps (acqs_ c)) c)
  | Throw e => (conjugate_body a c).1 = Throw e
  end.
Proof.
  unfold storage_positions, conjugate_body. cbn [collect]. monad_unfold. unfold id.
  destruct (MRAcquisitionData.index c a) as [ia|e]; [|done].
  destruct (ia <? number c) eqn:Hlt.
  - apply Nat.ltb_lt in Hlt. apply lookup_lt_is_Some_2 in Hlt as [acq Hacq].
    rewrite Hacq. cbn. do 2 f_equal.
    apply list_eq. intros j. rewrite list_lookup_alter.
    case_decide; subst.
    + rewrite list_lookup_insert_eq by (by eapply lookup_lt_Some). by rewrite Hacq.
    + by rewrite list_lookup_insert_ne.
  - apply Nat.ltb_ge in Hlt. by rewrite (lookup_ge_None_2 _ _ Hlt).
Qed.

Lemma conjugate_loop (positions : list nat) (c : t) :
  match storage_positions c positions with
  | Ok ps => for_each positions conjugate_body c =
             (Ok tt, with_acqs_ (conj_all ps (acqs_ c)) c)
  | Throw e => (for_each positions conjugate_body c).1 = Throw e
  end.
Proof.
  revert c. induction positions as [|a rest IH]; intros c.
  - cbn. by destruct c.
  - rewrite for_each_cons. pose proof (conjugate_body_step a c) as Hs.
    unfold storage_positions in *. cbn [collect] in *. monad_unfold.
    destruct (MRAcquisitionData.index c a) as [ia|e]; [|by destruct (conjugate_body a c) as [[[]|?] ?]; simpl in *; simplify_eq].
    destruct (ia <? number c).
    2:{ by destruct (conjugate_body a c) as [[[]|?] ?]; simpl in *; simplify_eq. }
    rewrite Hs. set (c1 := with_acqs_ _ c).
    specialize (IH c1).
    assert (Heq : collect rest
              (fun a0 => match MRAcquisitionData.index c1 a0 with
                         | Ok a1 => if a1 <? number c1 then Ok a1
                                    else Throw undefined_behaviour
                         | Throw e => Throw e
                         end) =
            collect rest
              (fun a0 => match MRAcquisitionData.index c a0 with
                         | Ok a1 => if a1 <? number c then Ok a1
                                    else Throw undefined_behaviour
                         | Throw e => Throw e
                         end)).
    { assert (Hn : number c1 = number c)
        by (unfold c1, number; cbn; by rewrite length_alter).
      unfold MRAcquisitionData.index. by rewrite Hn. }
    rewrite Heq in IH.
    destruct (collect rest _) as [ps|e]; [|done].
    rewrite IH. unfold c1. cbn. by destruct c.
Qed.

Lemma conjugate_impl_loop (c : t) :
  conjugate_impl c = for_each (seq 0 (number c)) conjugate_body c.
Proof. reflexivity. Qed.

(** X11.  When [conjugate_impl()] returns, a second call returns as well
    and restores the container. *)
Theorem conjugate_impl_involutive (c c1 : MRAcquisitionData.t) :
  conjugate_impl c = (Ok tt, c1) ->
  conjugate_impl c1 = (Ok tt, c) /\ number c1 = number c /\ index_ c1 = index_ c.
Proof.
  rewrite !conjugate_impl_loop. intros H.
  pose proof (conjugate_loop (seq 0 (number c)) c) as Hl.
  destruct (storage_positions c (seq 0 (number c))) as [ps|e] eqn:Hps.
  2:{ rewrite H in Hl. discriminate. }
  rewrite Hl in H. injection H as <-.
  assert (Hn : number (with_acqs_ (conj_all ps (acqs_ c)) c) = number c)
    by (unfold number; cbn; apply length_conj_all).
  split; [|done].
  pose proof (conjugate_loop (seq 0 (number c)) (with_acqs_ (conj_all ps (acqs_ c)) c)) as Hl2.
  rewrite (storage_positions_length c) in Hl2 by done.
  rewrite Hps in Hl2. rewrite Hn, Hl2. cbn. rewrite conj_all_involutive. by destruct c.
Qed.

Lemma conjugate_impl_involutive_witness :
  conjugate_impl (conjugate_impl with_samples).2 = (Ok tt, with_samples).
Proof.
  apply (conjugate_impl_involutive with_samples). reflexivity.
Defined.
End Conjugate.

Section Maximum.
Import MRAcquisitionData.

Lemma larger_positive (r ri : Float32.float) :
  Float32.gtb ri r = true -> r = Float32.zero \/ positive_real r -> positive_real ri.
Proof.
  unfold positive_real, Float32.gtb, Float32.ltb, Float32.zero, SFltb.
  intros H [->|Hr].
  - exact H.
  - destruct r as [[]| [] | | [] m e], ri as [[]| [] | | [] m' e']; simpl in *;
      try done.
Qed.

Lemma larger_cases (z zi : complex_float_t) :
  larger z zi = z \/ (larger z zi = zi /\ Float32.gtb (fst zi) (fst z) = true).
Proof. unfold larger. destruct (Float32.gtb _ _); auto. Qed.

Lemma acq_max_spec (d : list complex_float_t) (z0 : complex_float_t) :
  fst z0 = Float32.zero \/ positive_real (fst z0) ->
  foldl larger z0 d = z0 \/ (positive_real (fst (foldl larger z0 d)) /\ foldl larger z0 d ∈ d).
Proof.
  revert z0. induction d as [|zi d IH]; intros z0 Hz0; [by left|]. cbn [foldl].
  destruct (larger_cases z0 zi) as [->|[-> Hgt]].
  - destruct (IH z0 Hz0) as [->|[Hp Hin]]; [by left|]. right. split; [done|by right].
  - assert (Hpi : positive_real (fst zi)) by (by eapply larger_positive).
    destruct (IH zi (or_intror Hpi)) as [->|[Hp Hin]].
    + right. split; [done|by left].
    + right. split; [done|by right].
Qed.

Lemma max_loop_spec (c : t) (positions : list nat) (z0 z : complex_float_t) :
  fst z0 = Float32.zero \/ positive_real (fst z0) ->
  max_loop c positions z0 = Ok z ->
  z = z0 \/
  (positive_real (fst z) /\
   exists i acq, i ∈ positions /\ get_acquisition c i = Ok (1%Z, acq) /\ z ∈ data acq).
Proof.
  revert z0. induction positions as [|i rest IH]; intros z0 Hz0; cbn [max_loop].
  - intros [= ->]. by left.
  - monad_unfold. destruct (get_acquisition c i) as [[r acq]|e] eqn:Hg; [|discriminate].
    pose proof (get_acquisition_result c i r acq Hg) as Hr. cbn [fst snd].
    destruct (r =? 0)%Z eqn:Hr0.
    + intros H. destruct (IH z0 Hz0 H) as [->|(Hp & j & a & Hj & Hgj & Hin)]; [by left|].
      right. split; [done|]. exists j, a. split; [by right|done].
    + assert (r = 1%Z) as -> by (destruct (TO_BE_IGNORED acq); subst; done).
      intros H.
      destruct (larger_cases z0 (acq_max acq)) as [Heq|[Heq Hgt]]; rewrite Heq in H.
      * destruct (IH z0 Hz0 H) as [->|(Hp & j & a & Hj & Hgj & Hin)]; [by left|].
        right. split; [done|]. exists j, a. split; [by right|done].
      * assert (Hpm : positive_real (fst (acq_max acq))) by (by eapply larger_positive).
        assert (Hin0 : acq_max acq ∈ data acq).
        { unfold acq_max in *.
          destruct (acq_max_spec (data acq) Complex.zero (or_introl eq_refl))
            as [Hz|[_ Hin]]; [|done].
          rewrite Hz in Hpm. by vm_compute in Hpm. }
        destruct (IH _ (or_intror Hpm) H) as [->|(Hp & j & a & Hj & Hgj & Hin)].
        -- right. split; [done|]. exists i, acq. split; [by left|done].
        -- right. split; [done|]. exists j, a. split; [by right|done].
Qed.

(** X12.  The value [max] stores is either 0 or a sample, with a real
    part above 0, of an acquisition that is not ignored: on data without
    a positive real part the result is 0, not the largest sample. *)
Theorem max_zero_or_positive (c : MRAcquisitionData.t) (z : complex_float_t) :
  MRAcquisitionData.max c = Ok z ->
  z = Complex.zero \/
  (Float32.ltb Float32.zero (fst z) = true /\
   exists i acq, i < number c /\ get_acquisition c i = Ok (1%Z, acq) /\ z ∈ data acq).
Proof.
  intros H. apply max_loop_spec in H as [->|(Hp & i & acq & Hi & Hg & Hin)];
    [by left| |by left].
  right. split; [done|]. exists i, acq. apply elem_of_seq in Hi. split; [lia|done].
Qed.
End Maximum.

Section MaximumWitness.
Import MRAcquisitionData.

Lemma max_zero_or_positive_witness :
  MRAcquisitionData.max negative_samples = Ok Complex.zero /\
  (Complex.zero = Complex.zero \/
   (Float32.ltb Float32.zero (fst Complex.zero) = true /\
    exists i acq, i < number negative_samples /\
      get_acquisition negative_samples i = Ok (1%Z, acq) /\ Complex.zero ∈ data acq)).
Proof.
  split; [vm_compute; reflexivity|].
  apply (max_zero_or_positive negative_samples). vm_compute. reflexivity.
Defined.
End MaximumWitness.

Section FirstSet.
Import KSpaceSubset.

Lemma foldl_andb_true {A} (f : A -> bool) (l : list A) (b : bool) :
  foldl (fun is_first dim => is_first && f dim) b l = true <->
  b = true /\ forall x, x ∈ l -> f x = true.
Proof.
  revert b. induction l as [|x l IH]; intros b; cbn [foldl].
  - split; [intros ->; split; [done|]; by intros ? ?%elem_of_nil | by intros [-> _]].
  - rewrite IH, andb_true_iff. split.
    + intros [[-> Hx] Hl]. split; [done|]. intros y [->|Hy]%elem_of_cons; auto.
    + intros [-> H]. split; [split; [done|apply H; by left]|]. intros; apply H; by right.
Qed.

(** X13.  [is_first_set()] holds exactly when every entry of the tag
    other than the slice (entry 1) is 0: the slice never matters. *)
Theorem is_first_set_spec (s : KSpaceSubset.t) :
  is_first_set s = true <->
  forall dim, dim < num_kspace_dims_ -> dim <> 1 -> tag_at (tag_ s) dim = 0%Z.
Proof.
  unfold is_first_set. destruct (tag_at (tag_ s) 0 =? 0)%Z eqn:H0.
  - rewrite foldl_andb_true. apply Z.eqb_eq in H0. split.
    + intros [_ H] dim Hd Hne. destruct (decide (dim = 0)) as [->|Hz]; [done|].
      apply Z.eqb_eq, H, elem_of_seq. lia.
    + intros H. split; [done|]. intros dim Hd%elem_of_seq. apply Z.eqb_eq, H; lia.
  - split; [done|]. intros H. apply Z.eqb_neq in H0. exfalso. apply H0, H.
    + unfold num_kspace_dims_. lia.
    + done.
Qed.
End FirstSet.

Section CsmSearch.
Import GadgetronImagesVector CoilSensitivitiesVector.

Lemma matches_image_dec (src m : Image.t) :
  ((Image.getSlice m =? Image.getSlice src)%Z && (Image.getContrast m =? 0)%Z) = true <->
  matches_image src m.
Proof. unfold matches_image. rewrite andb_true_iff, !Z.eqb_eq. done. Qed.

Lemma csm_search_total (this : t) (src : Image.t) (offset : nat) (maps : nat -> Image.t)
    (l : list nat) :
  (forall j, j ∈ l ->
     get_csm_as_cfimage_at this ((offset + j) mod items this) =
     Ok (maps ((offset + j) mod items this))) ->
  ((exists j, j ∈ l /\ matches_image src (maps ((offset + j) mod items this))) ->
   exists m, csm_search this (KSpaceSubset.get_tag_from_img src) offset l = Ok m) /\
  ((forall j, j ∈ l -> ~ matches_image src (maps ((offset + j) mod items this))) ->
   csm_search this (KSpaceSubset.get_tag_from_img src) offset l =
   Throw (LocalisedException
            "No coilmap with this tag was in the coilsensitivity container.")).
Proof.
  induction l as [|i l IH]; intros Hread.
  - split; [by intros (j & ?%elem_of_nil & _)|done].
  - cbn [csm_search]. rewrite Hread by left. monad_unfold.
    change (KSpaceSubset.tag_at (KSpaceSubset.get_tag_from_img ?m) 1)
      with (Image.getSlice m).
    change (KSpaceSubset.tag_at (KSpaceSubset.get_tag_from_img ?m) 2)
      with (Image.getContrast m).
    destruct (IH (fun j Hj => Hread j (list_elem_of_further _ _ _ Hj))) as [IH1 IH2].
    destruct (_ && _) eqn:Hb.
    + split; [by eexists|]. intros Hno. exfalso. apply (Hno i); [by left|].
      by apply matches_image_dec.
    + split.
      * intros (j & [->|Hj]%elem_of_cons & Hm).
        -- apply matches_image_dec in Hm. congruence.
        -- apply IH1. eauto.
      * intros Hno. apply IH2. intros j Hj. apply Hno. by right.
Qed.

Lemma cyclic_cover (n offset i : nat) :
  i < n -> exists j, j < n /\ (offset + j) mod n = i.
Proof.
  intros Hi. exists ((i + n - offset mod n) mod n). split.
  - apply Nat.mod_upper_bound. lia.
  - pose proof (Nat.mod_upper_bound offset n ltac:(lia)) as Ho.
    rewrite Nat.Div0.add_mod_idemp_r.
    rewrite (Nat.div_mod_eq offset n) at 1.
    replace (n * (offset / n) + offset mod n + (i + n - offset mod n))
      with (i + (S (offset / n)) * n) by lia.
    rewrite Nat.Div0.mod_add. by apply Nat.mod_small.
Qed.

(** X14.  When every stored map can be read as a complex float image,
    [get_csm_as_cfimage(tag, offset)] returns a map, the first accepted one
    in the cyclic order from [offset], as soon as some stored map has the
    slice of the tag and contrast 0, whatever [offset] is; and it throws
    that no coilmap with this tag is in the container when none has. *)
Theorem get_csm_as_cfimage_finds (this : GadgetronImagesVector.t) (src : Image.t)
    (offset : nat) (maps : nat -> Image.t) :
  (forall i, i < items this -> get_csm_as_cfimage_at this i = Ok (maps i)) ->
  ((exists i, i < items this /\ matches_image src (maps i)) ->
   exists m, get_csm_as_cfimage this (KSpaceSubset.get_tag_from_img src) offset = Ok m /\
             found_by_cyclic_search this src offset m) /\
  ((forall i, i < items this -> ~ matches_image src (maps i)) ->
   get_csm_as_cfimage this (KSpaceSubset.get_tag_from_img src) offset =
   Throw (LocalisedException
            "No coilmap with this tag was in the coilsensitivity container.")).
Proof.
  intros Hread. unfold get_csm_as_cfimage.
  destruct (csm_search_total this src offset maps (seq 0 (items this))) as [H1 H2].
  { intros j Hj%elem_of_seq. apply Hread, Nat.mod_upper_bound. lia. }
  split.
  - intros (i & Hi & Hm). destruct (cyclic_cover (items this) offset i Hi) as (j & Hj & Hij).
    destruct H1 as [m Hs].
    { exists j. split; [apply elem_of_seq; lia|]. by rewrite Hij. }
    exists m. split; [done|].
    apply csm_search_seq in Hs as (k & Hk & Hg & Hmk & Hbefore).
    exists k. split; [lia|]. split; [done|]. split; [done|].
    intros j' Hj'. apply Hbefore. lia.
  - intros Hno. apply H2. intros j Hj%elem_of_seq. apply Hno, Nat.mod_upper_bound. lia.
Qed.

Lemma get_csm_as_cfimage_finds_witness :
  exists m,
    get_csm_as_cfimage single_channel_maps
      (KSpaceSubset.get_tag_from_img (Image.mk (image_header 1 1 unit_x 0 1) [pixel 2])) 1
      = Ok m /\
    found_by_cyclic_search single_channel_maps
      (Image.mk (image_header 1 1 unit_x 0 1) [pixel 2]) 1 m.
Proof.
  apply (get_csm_as_cfimage_finds single_channel_maps
           (Image.mk (image_header 1 1 unit_x 0 1) [pixel 2]) 1
           (fun _ => Image.mk (image_header 1 1 unit_x 0 0) [pixel 3])).
  - intros [|[|i]] Hi; [reflexivity|reflexivity|]. vm_compute in Hi. lia.
  - exists 0. split; [vm_compute; lia|]. split; reflexivity.
Defined.
End CsmSearch.

Section ImageSort.
Import GadgetronImagesVector.

Lemma omap_id_Some {A} (l : list A) : omap id (Some <$> l) = l.
Proof. induction l as [|x l IH]; [done|]. csimpl. by rewrite IH. Qed.

Lemma lookups_seq {A} (l : list A) : (l !!.) <$> seq 0 (length l) = Some <$> l.
Proof.
  apply list_eq. intros i. rewrite !list_lookup_fmap.
  destruct (l !! i) as [x|] eqn:Hx.
  - rewrite lookup_seq_lt by (by eapply lookup_lt_Some). simpl. by rewrite Hx.
  - apply lookup_ge_None in Hx. by rewrite lookup_seq_ge.
Qed.

(** X15.  [GadgetronImagesVector::sort()] on a container with an empty
    index returns without an exception; afterwards the container holds
    the same images in some order, its index is empty again, it is marked
    sorted, and geometry and meta data are as before. *)
Theorem sort_rearranges (c : GadgetronImagesVector.t) :
  index_ c = [] ->
  (sort c).1 = Ok tt /\ images_ (sort c).2 ≡ₚ images_ c /\
  index_ (sort c).2 = [] /\ sorted (sort c).2 = true /\
  geom_info_ (sort c).2 = geom_info_ c /\ acqs_info_ (sort c).2 = acqs_info_ c.
Proof.
  intros Hix. unfold sort. monad_unfold. unfold id.
  destruct (collect_total (seq 0 (number c))
              (fun i => iw ← image_wrap c i; Ok (sort_key (ImageWrap.head iw))))
    as [vt Hvt].
  { intros i Hi%elem_of_seq.
    destruct (images_ c !! i) as [iw|] eqn:Hiw.
    - rewrite (image_wrap_fresh c i iw) by done. by eexists.
    - apply lookup_ge_None in Hiw. unfold number in Hi. lia. }
  monad_unfold. rewrite Hvt. simpl.
  pose proof (collect_length _ _ _ Hvt) as Hlen. rewrite length_seq in Hlen.
  set (c2 := with_sorted_ true (with_index_ (Multisort.sort vt) c)).
  assert (Hperm : Multisort.sort vt ≡ₚ seq 0 (number c)).
  { unfold Multisort.sort. rewrite stable_sort_Permutation. by rewrite Hlen. }
  assert (Hwrap : forall i iw, sptr_image_wrap c2 i = Ok iw ->
            exists v, Multisort.sort vt !! i = Some v /\ images_ c !! v = Some iw).
  { intros i iw. unfold sptr_image_wrap, index.
    change (index_ c2) with (Multisort.sort vt). change (number c2) with (number c).
    change (images_ c2) with (images_ c). monad_unfold.
    destruct (_ || _); [discriminate|].
    destruct (0 <? _) eqn:Hpos.
    - destruct (Multisort.sort vt !! i) as [v|]; [|discriminate].
      destruct (images_ c !! v) as [iw'|] eqn:Hv; [|discriminate].
      intros [= <-]. eauto.
    - apply Nat.ltb_ge in Hpos. rewrite (Permutation_length Hperm), length_seq in Hpos.
      destruct (images_ c !! i) as [iw'|] eqn:Hi; [|discriminate].
      apply lookup_lt_Some in Hi. unfold number in Hpos. lia. }
  destruct (collect (seq 0 (number c)) (sptr_image_wrap c2)) as [sorted_images|e] eqn:Hs.
  - simpl. split; [done|]. split; [|done].
    pose proof (collect_length _ _ _ Hs) as Hls. rewrite length_seq in Hls.
    assert (Heq : Some <$> sorted_images = (images_ c !!.) <$> Multisort.sort vt).
    { apply list_eq. intros i. rewrite !list_lookup_fmap.
      destruct (decide (i < number c)) as [Hi|Hi].
      - destruct (collect_lookup _ _ _ i i Hs) as (iw & Hw & Hk);
          [by apply lookup_seq_lt|].
        apply Hwrap in Hw as (v & Hv & Hiw). rewrite Hk, Hv. simpl. by rewrite Hiw.
      - rewrite (lookup_ge_None_2 sorted_images) by lia.
        rewrite (lookup_ge_None_2 (Multisort.sort vt)); [done|].
        rewrite (Permutation_length Hperm), length_seq. lia. }
    rewrite <- (omap_id_Some sorted_images), Heq, Hperm.
    unfold number. by rewrite lookups_seq, omap_id_Some.
  - exfalso.
    destruct (collect_total (seq 0 (number c)) (sptr_image_wrap c2)) as [k Hk];
      [|congruence].
    intros i Hi%elem_of_seq. unfold sptr_image_wrap, index.
    change (index_ c2) with (Multisort.sort vt). change (number c2) with (number c).
    change (images_ c2) with (images_ c).
    rewrite (Permutation_length Hperm), length_seq.
    replace (number c <=? i) with false by (symmetry; apply Nat.leb_gt; lia).
    rewrite andb_false_r. simpl orb. cbv iota.
    replace (0 <? number c) with true by (symmetry; apply Nat.ltb_lt; lia).
    destruct (Multisort.sort vt !! i) as [v|] eqn:Hv.
    2:{ apply lookup_ge_None in Hv. rewrite (Permutation_length Hperm), length_seq in Hv. lia. }
    apply list_elem_of_lookup_2 in Hv. rewrite Hperm in Hv. apply elem_of_seq in Hv.
    monad_unfold.
    destruct (images_ c !! v) as [iw|] eqn:Hiw; [by eexists|].
    apply lookup_ge_None in Hiw. unfold number in Hv. lia.
Qed.

Lemma sort_rearranges_witness :
  (sort skewed_directions).1 = Ok tt /\
  images_ (sort skewed_directions).2 ≡ₚ images_ skewed_directions /\
  index_ (sort skewed_directions).2 = [] /\ sorted (sort skewed_directions).2 = true /\
  geom_info_ (sort skewed_directions).2 = geom_info_ skewed_directions /\
  acqs_info_ (sort skewed_directions).2 = acqs_info_ skewed_directions.
Proof. apply (sort_rearranges skewed_directions). reflexivity. Defined.
End ImageSort.

Section SingleImage.
Import GadgetronImagesVector.

(** X16.  [set_up_geom_info()] on a container of one image with unit
    direction vectors: with the slice index 0 it sets the geometry of that
    image (spacing: field of view over matrix size); with a slice index of
    1 or more it throws, for a matrix of more than one plane the exception
    of 3D data with multiple slices and for a matrix of one plane the
    exception of an image number out of range, raised by the look-up of a
    second image. *)
Theorem set_up_geom_info_single_image (c : GadgetronImagesVector.t) (iw : ImageWrap.t) :
  images_ c = [iw] -> index_ c = [] -> directions_unit (ImageWrap.head iw) = true ->
  let ih1 := ImageWrap.head iw in
  let number_slices := ((ImageHeader.slice ih1 + 1) mod 2 ^ 16)%Z in
  let size := ImageHeader.matrix_size ih1 in
  let fov := ImageHeader.field_of_view ih1 in
  ((number_slices <= 1)%Z ->
   (set_up_geom_info c).1 = Ok tt /\
   geom_info_ (set_up_geom_info c).2 =
     Some (geometry_of ih1
             (Float32.div (nth3 fov 0) (Float32.of_Z (nth3 size 0)),
              Float32.div (nth3 fov 1) (Float32.of_Z (nth3 size 1)),
              Float32.div (nth3 fov 2) (Float32.of_Z (nth3 size 2))) size)) /\
  ((1 < number_slices)%Z -> (1 < nth3 size 2)%Z ->
   (set_up_geom_info c).1 =
   Throw (LocalisedException
     "You try to set up the geometry information for 3D data that contains multiple slices. This special case is unavailable.")) /\
  ((1 < number_slices)%Z -> nth3 size 2 = 1%Z ->
   (set_up_geom_info c).1 =
   Throw (LocalisedException
     "Image number is out of range. You tried to look up an image number that is not inside the container.")).
Proof.
  intros Him Hix Hu ih1 number_slices size fov.
  destruct c as [srt ix info ims g]. cbn in Him, Hix. subst ims ix.
  unfold directions_unit in Hu. fold ih1 in Hu.
  assert (Hrun : forall b,
    set_up_geom_info (mk b [] info [iw] g) =
    (if (number_slices >? 1)%Z && (nth3 size 2 >? 1)%Z
     then throw (LocalisedException
       "You try to set up the geometry information for 3D data that contains multiple slices. This special case is unavailable.")
     else if (number_slices >? 1)%Z && (nth3 size 2 =? 1)%Z
     then throw (LocalisedException
       "Image number is out of range. You tried to look up an image number that is not inside the container.")
     else set_geom_info (geometry_of ih1
             (Float32.div (nth3 fov 0) (Float32.of_Z (nth3 size 0)),
              Float32.div (nth3 fov 1) (Float32.of_Z (nth3 size 1)),
              Float32.div (nth3 fov 2) (Float32.of_Z (nth3 size 2))) size))
      (mk true [] info [iw] g)).
  { intros b. unfold set_up_geom_info, sort. monad_unfold. unfold id. cbn -[Z.pow Z.modulo geometry_of is_unit_vector Float32.div Float32.of_Z Z.gtb Z.eqb sort_key nth3].
    destruct b; cbn -[Z.pow Z.modulo geometry_of is_unit_vector Float32.div Float32.of_Z Z.gtb Z.eqb sort_key nth3].
    all: fold ih1; rewrite Hu; cbn -[Z.pow Z.modulo geometry_of Float32.div Float32.of_Z Z.gtb Z.eqb nth3].
    all: fold ih1 number_slices size fov.
    all: destruct (number_slices >? 1)%Z; cbn -[geometry_of Float32.div Float32.of_Z Z.gtb Z.eqb nth3]; [|done].
    all: destruct (nth3 size 2 >? 1)%Z eqn:Hgt; cbn -[geometry_of Float32.div Float32.of_Z Z.gtb Z.eqb nth3]; [done|].
    all: destruct (nth3 size 2 =? 1)%Z; done. }
  rewrite Hrun. split; [|split].
  - intros H.
    replace (number_slices >? 1)%Z with false
      by (symmetry; rewrite Z.gtb_ltb; apply Z.ltb_ge; lia).
    done.
  - intros H1 H2.
    replace (number_slices >? 1)%Z with true
      by (symmetry; rewrite Z.gtb_ltb; by apply Z.ltb_lt).
    replace (nth3 size 2 >? 1)%Z with true
      by (symmetry; rewrite Z.gtb_ltb; by apply Z.ltb_lt).
    done.
  - intros H1 H2.
    replace (number_slices >? 1)%Z with true
      by (symmetry; rewrite Z.gtb_ltb; by apply Z.ltb_lt).
    rewrite H2. done.
Qed.

Lemma set_up_geom_info_single_image_witness :
  (set_up_geom_info second_slice_only).1 =
  Throw (LocalisedException
    "Image number is out of range. You tried to look up an image number that is not inside the container.").
Proof.
  apply (set_up_geom_info_single_image second_slice_only
           (cf_image (image_header 1 1 unit_x 1 0) [pixel 1]));
    reflexivity.
Defined.
End SingleImage.

Section Combine.
Import GadgetronImagesVector CoilSensitivitiesVector.

Lemma accumulate_voxel_inv (cm : Image.t) (x y z ch : nat) (dst dst1 : Image.t) :
  accumulate_voxel cm (x, y, z, ch) dst = (Ok tt, dst1) ->
  exists d m,
    Image.data dst !! cell_in (Image.head dst) (x, y, z, ch) = Some d /\
    Image.at_ cm x y z ch = Ok m /\
    dst1 = Image.mk (Image.head dst)
             (<[cell_in (Image.head dst) (x, y, z, ch) := Complex.add d m]> (Image.data dst)).
Proof.
  unfold accumulate_voxel, update. monad_unfold.
  unfold Image.at_ at 1. unfold Image.read. rewrite offset_offset_in.
  change (offset_in (Image.head dst) (x, y, z, 0))
    with (cell_in (Image.head dst) (x, y, z, ch)).
  destruct (Image.data dst !! _) as [d|] eqn:Hd; [|discriminate].
  destruct (Image.at_ cm x y z ch) as [m|] eqn:Hm; [|discriminate].
  unfold Image.set_at, Image.write. rewrite offset_offset_in.
  change (offset_in (Image.head dst) (x, y, z, 0))
    with (cell_in (Image.head dst) (x, y, z, ch)).
  destruct (_ <? _) eqn:Hlt; simpl; [|discriminate].
  intros Heq. assert (Hs := f_equal snd Heq). simpl in Hs. subst dst1.
  exists d, m. by repeat split.
Qed.

Lemma accumulate_block (cm : Image.t) (vs : list (nat * nat * nat * nat))
    (dst dst' : Image.t) :
  for_each vs (accumulate_voxel cm) dst = (Ok tt, dst') ->
  NoDup (cell_in (Image.head dst) <$> vs) ->
  Image.head dst' = Image.head dst /\
  (forall k, k ∉ cell_in (Image.head dst) <$> vs ->
             Image.data dst' !! k = Image.data dst !! k) /\
  (forall v, v ∈ vs ->
     exists d m, Image.data dst !! cell_in (Image.head dst) v = Some d /\
                 Image.at_ cm v.1.1.1 v.1.1.2 v.1.2 v.2 = Ok m /\
                 Image.data dst' !! cell_in (Image.head dst) v = Some (Complex.add d m)).
Proof.
  revert dst. induction vs as [|[[[x0 y0] z0] c0] vs IH]; intros dst.
  - simpl. monad_unfold. intros [= <-] _. repeat split; try done.
    intros v Hv. by apply elem_of_nil in Hv.
  - rewrite for_each_cons.
    destruct (accumulate_voxel cm (x0, y0, z0, c0) dst) as [[[]|e] dst1] eqn:Hv;
      [|discriminate].
    intros Hrest Hnd. rewrite fmap_cons in Hnd. apply NoDup_cons in Hnd as [Hnotin Hnd].
    apply accumulate_voxel_inv in Hv as (d0 & m0 & Hd0 & Hm0 & ->).
    apply IH in Hrest as (Hh & Hother & Hin); [|done]. cbn [Image.head Image.data] in *.
    split; [done|]. split.
    + intros k Hk. rewrite Hother.
      * apply list_lookup_insert_ne. intros Heq. apply Hk. rewrite <- Heq.
        rewrite fmap_cons. by left.
      * intros Hk'. apply Hk. rewrite fmap_cons. by right.
    + intros v [->|Hel]%elem_of_cons.
      * exists d0, m0. split; [done|]. split; [done|].
        rewrite Hother by done. apply list_lookup_insert_eq. by eapply lookup_lt_Some.
      * destruct (Hin v Hel) as (d & m & Hd & Hm & Hres).
        exists d, m. split; [|done].
        rewrite list_lookup_insert_ne in Hd; [done|].
        intros Heq. apply Hnotin. rewrite Heq. by apply list_elem_of_fmap_2.
Qed.

Lemma voxels_blocks (Nx Ny Nz Nc : nat) :
  voxels Nx Ny Nz Nc = seq 0 Nc ≫= block Nx Ny Nz.
Proof. reflexivity. Qed.

Lemma elem_of_block (Nx Ny Nz nc x y z ch : nat) :
  (x, y, z, ch) ∈ block Nx Ny Nz nc <-> x < Nx /\ y < Ny /\ z < Nz /\ ch = nc.
Proof.
  unfold block. split.
  - intros H.
    apply list_elem_of_bind in H as (z' & H & Hz%elem_of_seq).
    apply list_elem_of_bind in H as (y' & H & Hy%elem_of_seq).
    apply list_elem_of_bind in H as (x' & H & Hx%elem_of_seq).
    apply list_elem_of_singleton in H. injection H as -> -> -> ->. lia.
  - intros (Hx & Hy & Hz & ->).
    apply list_elem_of_bind. exists z. split; [|apply elem_of_seq; lia].
    apply list_elem_of_bind. exists y. split; [|apply elem_of_seq; lia].
    apply list_elem_of_bind. exists x. split; [|apply elem_of_seq; lia].
    by apply list_elem_of_singleton.
Qed.

Lemma NoDup_block (Nx Ny Nz nc : nat) : NoDup (block Nx Ny Nz nc).
Proof.
  unfold block.
  apply NoDup_bind; [| |apply NoDup_seq].
  { intros c1 c2 v _ _ H1 H2.
    repeat (apply list_elem_of_bind in H1 as (? & H1 & _)).
    repeat (apply list_elem_of_bind in H2 as (? & H2 & _)).
    apply list_elem_of_singleton in H1, H2. congruence. }
  intros z _. apply NoDup_bind; [| |apply NoDup_seq].
  { intros c1 c2 v _ _ H1 H2.
    repeat (apply list_elem_of_bind in H1 as (? & H1 & _)).
    repeat (apply list_elem_of_bind in H2 as (? & H2 & _)).
    apply list_elem_of_singleton in H1, H2. congruence. }
  intros y _. apply NoDup_bind; [| |apply NoDup_seq].
  { intros c1 c2 v _ _ H1 H2.
    apply list_elem_of_singleton in H1, H2. congruence. }
  intros x _. apply NoDup_singleton.
Qed.

Lemma NoDup_block_cells (h : ImageHeader.t) (Nx Ny Nz nc : nat) :
  Z.to_nat (nth3 (ImageHeader.matrix_size h) 0) = Nx ->
  Z.to_nat (nth3 (ImageHeader.matrix_size h) 1) = Ny ->
  NoDup (cell_in h <$> block Nx Ny Nz nc).
Proof.
  intros Hsx Hsy. apply NoDup_fmap_2_strong; [|apply NoDup_block].
  intros [[[x y] z] c] [[[x' y'] z'] c'].
  intros (Hx & Hy & Hz & ->)%elem_of_block (Hx' & Hy' & Hz' & ->)%elem_of_block.
  unfold cell_in, offset_in, voxel_offset. rewrite Hsx, Hsy. intros H.
  destruct (radix_inj Nx x x' (y + Ny * z) (y' + Ny * z')) as [-> H1]; [done|done|lia|].
  destruct (radix_inj Ny y y' z z') as [-> ->]; [done|done|lia|]. done.
Qed.

Lemma accumulate_channels (cm : Image.t) (Nx Ny Nz : nat) (cs : list nat) :
  forall dst dst',
    for_each (cs ≫= block Nx Ny Nz) (accumulate_voxel cm) dst = (Ok tt, dst') ->
    Z.to_nat (nth3 (ImageHeader.matrix_size (Image.head dst)) 0) = Nx ->
    Z.to_nat (nth3 (ImageHeader.matrix_size (Image.head dst)) 1) = Ny ->
    Image.head dst' = Image.head dst /\
    forall x y z d0, x < Nx -> y < Ny -> z < Nz ->
      Image.data dst !! offset_in (Image.head dst) (x, y, z, 0) = Some d0 ->
      exists terms,
        Forall2 (fun c t => Image.at_ cm x y z c = Ok t) cs terms /\
        Image.data dst' !! offset_in (Image.head dst) (x, y, z, 0) =
          Some (foldl Complex.add d0 terms).
Proof.
  induction cs as [|c cs IH]; intros dst dst' H Hsx Hsy.
  - cbn in H. injection H as <-. split; [done|]. intros x y z d0 _ _ _ Hd.
    exists []. split; [constructor|done].
  - rewrite bind_cons, for_each_app in H.
    destruct (for_each (block Nx Ny Nz c) (accumulate_voxel cm) dst) as [[[]|e] dst1] eqn:Hb;
      [|discriminate].
    apply accumulate_block in Hb as (Hh1 & _ & Hcells); [|by apply NoDup_block_cells].
    apply IH in H as (Hh & Hrest); [|by rewrite Hh1|by rewrite Hh1].
    split; [by rewrite Hh, Hh1|].
    intros x y z d0 Hx Hy Hz Hd.
    destruct (Hcells (x, y, z, c)) as (d & m & Hd' & Hm & Hres).
    { by apply elem_of_block. }
    cbn [cell_in fst snd] in *. rewrite Hd in Hd'. injection Hd' as <-.
    rewrite <- Hh1 in Hres.
    destruct (Hrest x y z (Complex.add d0 m) Hx Hy Hz Hres) as (terms & Hterms & Hfin).
    exists (m :: terms). split; [by constructor|]. by rewrite <- Hh1.
Qed.

Lemma map_elements_inv (f : complex_float_t -> complex_float_t) (im im' : Image.t) :
  map_elements f im = Ok im' ->
  Image.head im' = Image.head im /\
  forall k, k < Image.getNumberOfDataElements im ->
    exists v, Image.data im !! k = Some v /\ Image.data im' !! k = Some (f v).
Proof.
  unfold map_elements. destruct (_ <=? _) eqn:Hn; [|discriminate].
  apply Nat.leb_le in Hn. intros [= <-]. split; [done|]. intros k Hk. cbn.
  destruct (lookup_lt_is_Some_2 (Image.data im) k ltac:(lia)) as [v Hv].
  exists v. split; [done|].
  rewrite lookup_app_l by (rewrite length_fmap, length_take; lia).
  by rewrite list_lookup_fmap, lookup_take_lt, Hv by done.
Qed.

Lemma multiply_elements_inv (ptr : list complex_float_t) (im im' : Image.t) :
  multiply_elements ptr im = Ok im' ->
  Image.head im' = Image.head im /\
  forall k, k < Image.getNumberOfDataElements im ->
    exists a b, Image.data im !! k = Some a /\ ptr !! k = Some b /\
                Image.data im' !! k = Some (Complex.mul a b).
Proof.
  unfold multiply_elements. destruct (_ && _) eqn:Hn; [|discriminate].
  apply andb_true_iff in Hn as [Hn1%Nat.leb_le Hn2%Nat.leb_le].
  intros [= <-]. split; [done|]. intros k Hk. cbn.
  destruct (lookup_lt_is_Some_2 (Image.data im) k ltac:(lia)) as [a Ha].
  destruct (lookup_lt_is_Some_2 ptr k ltac:(lia)) as [b Hb].
  exists a, b. split; [done|]. split; [done|].
  rewrite lookup_app_l by (rewrite length_zip_with, !length_take; lia).
  by rewrite lookup_zip_with, !lookup_take_lt, Ha, Hb by done.
Qed.

Lemma offset_lt (im : Image.t) (x y z ch : nat) :
  x < Z.to_nat (Image.getMatrixSizeX im) -> y < Z.to_nat (Image.getMatrixSizeY im) ->
  z < Z.to_nat (Image.getMatrixSizeZ im) -> ch < Z.to_nat (Image.getNumberOfChannels im) ->
  Image.offset im x y z ch < Image.getNumberOfDataElements im.
Proof.
  unfold Image.offset, Image.getNumberOfDataElements. intros Hx Hy Hz Hc.
  set (X := Image.getMatrixSizeX im) in *. set (Y := Image.getMatrixSizeY im) in *.
  set (Z0 := Image.getMatrixSizeZ im) in *. set (C := Image.getNumberOfChannels im) in *.
  rewrite !Z2Nat.inj_mul by nia.
  set (Nx := Z.to_nat X) in *. set (Ny := Z.to_nat Y) in *.
  set (Nz := Z.to_nat Z0) in *. set (Nc := Z.to_nat C) in *.
  pose proof (block_lt ch Nc z Nz Hc Hz) as H1.
  pose proof (block_lt _ _ y Ny H1 Hy) as H2.
  pose proof (block_lt _ _ x Nx H2 Hx) as H3. lia.
Qed.

Lemma combine_one (indeterminate : complex_float_t) (src coilmap dst3 cm1 cm2 out : Image.t) :
  Image.head dst3 = ImageHeader.with_channels 1 (Image.head src) ->
  (forall k, k < Image.getNumberOfDataElements dst3 ->
             Image.data dst3 !! k = Some Complex.zero) ->
  map_elements Complex.conj coilmap = Ok cm1 ->
  multiply_elements (Image.data src) cm1 = Ok cm2 ->
  for_each (voxels (Z.to_nat (Image.getMatrixSizeX coilmap))
                   (Z.to_nat (Image.getMatrixSizeY coilmap))
                   (Z.to_nat (Image.getMatrixSizeZ coilmap))
                   (Z.to_nat (Image.getNumberOfChannels coilmap)))
           (accumulate_voxel cm2) dst3 = (Ok tt, out) ->
  combined src coilmap out.
Proof.
  intros Hh3 Hzero Hcm1 Hcm2 Hloop.
  apply map_elements_inv in Hcm1 as [Hh1 Hd1].
  apply multiply_elements_inv in Hcm2 as [Hh2 Hd2].
  rewrite voxels_blocks in Hloop.
  split.
  - destruct (decide (ImageHeader.matrix_size (Image.head src) =
                      ImageHeader.matrix_size (Image.head coilmap))) as [Hms|Hms].
    + apply accumulate_channels in Hloop as [Hh _];
        [by rewrite Hh| |]; rewrite Hh3; cbn; by rewrite Hms.
    + (* the header is kept by every iteration, whatever the sizes are *)
      clear -Hloop Hh3. rewrite <- Hh3. clear Hh3.
      revert dst3 Hloop. generalize (seq 0 (Z.to_nat (Image.getNumberOfChannels coilmap)) ≫=
                  block (Z.to_nat (Image.getMatrixSizeX coilmap))
                        (Z.to_nat (Image.getMatrixSizeY coilmap))
                        (Z.to_nat (Image.getMatrixSizeZ coilmap))).
      intros vs. induction vs as [|[[[x y] z] c] vs IH]; intros dst3 H.
      * cbn in H. by injection H as <-.
      * rewrite for_each_cons in H.
        destruct (accumulate_voxel cm2 (x, y, z, c) dst3) as [[[]|e] d1] eqn:Hv;
          [|discriminate].
        apply accumulate_voxel_inv in Hv as (? & ? & _ & _ & ->).
        by rewrite (IH _ H).
  - intros Hms x y z Hx Hy Hz.
    apply accumulate_channels in Hloop as [Hh Hcells];
      [| rewrite Hh3; cbn; by rewrite Hms | rewrite Hh3; cbn; by rewrite Hms].
    assert (Hoff : forall ch, offset_in (Image.head dst3) (x, y, z, ch) =
                              Image.offset coilmap x y z ch).
    { intros ch. unfold offset_in, Image.offset, Image.getMatrixSizeX,
        Image.getMatrixSizeY, Image.getMatrixSizeZ. rewrite Hh3. cbn. by rewrite Hms. }
    destruct (Hcells x y z Complex.zero Hx Hy Hz) as (terms & Hterms & Hfin).
    { apply Hzero. rewrite Hoff.
      unfold Image.getNumberOfDataElements, Image.getMatrixSizeX, Image.getMatrixSizeY,
        Image.getMatrixSizeZ, Image.getNumberOfChannels. rewrite Hh3. cbn.
      rewrite Hms, Z.mul_1_r.
      pose proof (offset_lt (Image.mk (ImageHeader.with_channels 1 (Image.head coilmap)) [])
                    x y z 0 Hx Hy Hz ltac:(cbn; lia)) as Hlt.
      unfold Image.getNumberOfDataElements, Image.getMatrixSizeX, Image.getMatrixSizeY,
        Image.getMatrixSizeZ, Image.getNumberOfChannels, Image.offset in Hlt.
      cbn in Hlt. rewrite Z.mul_1_r in Hlt.
      unfold Image.offset, Image.getMatrixSizeX, Image.getMatrixSizeY,
        Image.getMatrixSizeZ. exact Hlt. }
    exists terms. split.
    + apply Forall2_same_length_lookup. split; [by eapply Forall2_length|].
      intros i ch t Hch Ht.
      pose proof (Forall2_lookup_lr _ _ _ _ _ _ Hterms Hch Ht) as Hat.
      apply lookup_seq in Hch as [-> Hi]. cbn in Hat. change (0 + i) with i.
      pose proof (offset_lt coilmap x y z i Hx Hy Hz Hi) as Hk.
      destruct (Hd1 _ Hk) as (m & Hm & Hm1).
      assert (Hk1 : Image.offset coilmap x y z i < Image.getNumberOfDataElements cm1).
      { unfold Image.getNumberOfDataElements, Image.getMatrixSizeX, Image.getMatrixSizeY,
          Image.getMatrixSizeZ, Image.getNumberOfChannels in *. by rewrite Hh1. }
      destruct (Hd2 _ Hk1) as (a & b & Ha & Hb & Hab).
      rewrite Hm1 in Ha. injection Ha as <-.
      assert (Ho2 : Image.offset cm2 x y z i = Image.offset coilmap x y z i).
      { unfold Image.offset, Image.getMatrixSizeX, Image.getMatrixSizeY,
          Image.getMatrixSizeZ. by rewrite Hh2, Hh1. }
      unfold Image.at_, Image.read in Hat. rewrite Ho2, Hab in Hat. injection Hat as <-.
      exists b, m. split; [|split; [|done]].
      * unfold Image.at_, Image.read.
        replace (Image.offset src x y z i) with (Image.offset coilmap x y z i).
        -- by rewrite Hb.
        -- unfold Image.offset, Image.getMatrixSizeX, Image.getMatrixSizeY,
             Image.getMatrixSizeZ. by rewrite Hms.
      * unfold Image.at_, Image.read. by rewrite Hm.
    + unfold Image.at_, Image.read. rewrite offset_offset_in, Hh. by rewrite Hfin.
Qed.

(** X17.  [backward()] throws unless there are as many stored maps as
    images.  When it returns, the destination holds one image per input
    image; the image at position [i] has the header of the input image
    with one channel, the map matched with it (the first accepted one in
    the cyclic order from [i]) has the dimensions of input image 0, and,
    where input image and map have the same matrix size, each voxel is the
    sum over the channels of the conjugated voxel of the map times the
    voxel of the input image. *)
Theorem backward_combines (indeterminate : complex_float_t)
    (this img dst : GadgetronImagesVector.t) :
  (items img <> items this ->
   backward indeterminate this img dst =
   (Throw (LocalisedException
      "The number of coilmaps does not equal the number of images to be combined."),
    dst)) /\
  (forall dst', backward indeterminate this img dst = (Ok tt, dst') ->
     items img = items this /\
     length (images_ dst') = items img /\
     exists img_dims,
       get_image_dimensions img 0 = Ok img_dims /\
       forall i, i < items img ->
         exists iw_src src coilmap out,
           image_wrap img i = Ok iw_src /\
           ImageWrap.as_CFImage iw_src = Ok src /\
           found_by_cyclic_search this src i coilmap /\
           [ Image.getMatrixSizeX coilmap; Image.getMatrixSizeY coilmap;
             Image.getMatrixSizeZ coilmap; Image.getNumberOfChannels coilmap ] = img_dims /\
           images_ dst' !! i = Some (ImageWrap.mk ISMRMRD_CXFLOAT out) /\
           combined src coilmap out).
Proof.
  split.
  - intros Hne. unfold backward.
    replace (items img =? items this) with false
      by (symmetry; by apply Nat.eqb_neq). done.
  - intros dst'. unfold backward.
    destruct (items img =? items this) eqn:Hitems; [|discriminate].
    apply Nat.eqb_eq in Hitems. cbn [negb]. monad_unfold.
    destruct (check_dimension_consistency img) as [[]|]; try discriminate.
    cbn [negb].
    destruct (set_meta_data _ dst) as [[[]|e] s0]; [|discriminate].
    unfold clear_data. monad_unfold.
    unfold combine_images_with_coilmaps. monad_unfold.
    destruct (get_image_dimensions img 0) as [img_dims|e]; [|discriminate].
    intros Hloop.
    eapply (append_loop _ (fun i iw =>
      exists iw_src src coilmap out,
         image_wrap img i = Ok iw_src /\
         ImageWrap.as_CFImage iw_src = Ok src /\
         found_by_cyclic_search this src i coilmap /\
         [ Image.getMatrixSizeX coilmap; Image.getMatrixSizeY coilmap;
           Image.getMatrixSizeZ coilmap; Image.getNumberOfChannels coilmap ] = img_dims /\
         iw = ImageWrap.mk ISMRMRD_CXFLOAT out /\
         combined src coilmap out)) in Hloop.
    + destruct Hloop as (outs & Himgs & Hlen & Houts). cbn [images_ with_images_ app] in Himgs.
      split; [done|]. split; [by rewrite Himgs|].
      exists img_dims. split; [done|].
      intros i Hi. rewrite <- Hlen in Hi. apply lookup_lt_is_Some_2 in Hi as [iw Hiw].
      destruct (Houts i iw Hiw)
        as (iw_src & src & coilmap & out & H1 & H2 & H3 & H4 & -> & H5).
      exists iw_src, src, coilmap, out. rewrite Himgs. done.
    + clear. intros i s s'. monad_unfold.
      destruct (image_wrap img i) as [iw_src|] eqn:Hsrc; [|discriminate].
      destruct (ImageWrap.as_CFImage iw_src) as [src|] eqn:Hcf; [|discriminate].
      destruct (get_csm_as_cfimage this _ i) as [coilmap|] eqn:Hcm; [|discriminate].
      destruct (bool_decide_reflect
                  (img_dims ≠ [Image.getMatrixSizeX coilmap; Image.getMatrixSizeY coilmap;
                               Image.getMatrixSizeZ coilmap;
                               Image.getNumberOfChannels coilmap])) as [Hd|Hd];
        [discriminate|].
      apply dec_stable in Hd.
      destruct (Image.setHead _ _ _) as [dst1|] eqn:Hhead; [|discriminate].
      apply setHead_head in Hhead.
      set (dst2 := Image.setNumberOfChannels indeterminate 1 dst1) in *.
      assert (Hh2 : Image.head dst2 = ImageHeader.with_channels 1 (Image.head src)).
      { unfold dst2. by rewrite setNumberOfChannels_head, Hhead. }
      destruct (map_elements (fun _ => Complex.zero) dst2) as [dst3|] eqn:Hz;
        [|discriminate].
      destruct (map_elements Complex.conj coilmap) as [cm1|] eqn:Hc1; [|discriminate].
      destruct (multiply_elements (Image.data src) cm1) as [cm2|] eqn:Hc2; [|discriminate].
      destruct (run _ dst3) as [out|] eqn:Hrun; [|discriminate].
      unfold append. monad_unfold. intros [= <-].
      exists (ImageWrap.mk ISMRMRD_CXFLOAT out). split; [|done].
      exists iw_src, src, coilmap, out. split; [done|]. split; [done|].
      split.
      { unfold get_csm_as_cfimage in Hcm. apply csm_search_seq in Hcm as (j & Hj & ?).
        exists j. split; [lia|]. destruct H as (? & ? & Hb). split; [done|]. split; [done|].
        intros j' Hj'. apply Hb. lia. }
      split; [done|]. split; [done|].
      apply run_inv in Hrun. apply map_elements_inv in Hz as [Hh3 Hd3].
      eapply (combine_one indeterminate src coilmap dst3 cm1 cm2 out); try done.
      * by rewrite Hh3.
      * intros k Hk. destruct (Hd3 k) as (v & _ & Hv); [|done].
        unfold Image.getNumberOfDataElements, Image.getMatrixSizeX, Image.getMatrixSizeY,
          Image.getMatrixSizeZ, Image.getNumberOfChannels in *. by rewrite <- Hh3.
Qed.

Lemma backward_combines_witness :
  exists dst',
    backward (pixel 0) one_map two_channel_image (images []) = (Ok tt, dst') /\
    length (images_ dst') = 1 /\
    (Image.data ∘ ImageWrap.image <$> images_ dst') = [[pixel 41]].
Proof.
  exists (backward (pixel 0) one_map two_channel_image (images [])).2.
  assert (H : backward (pixel 0) one_map two_channel_image (images []) =
              (Ok tt, (backward (pixel 0) one_map two_channel_image (images [])).2))
    by (vm_compute; reflexivity).
  split; [exact H|].
  destruct (proj2 (backward_combines (pixel 0) one_map two_channel_image (images [])) _ H)
    as (_ & Hlen & _).
  split; [exact Hlen|]. vm_compute. reflexivity.
Defined.
End Combine.

Section EmptyInput.
Import GadgetronImagesVector CoilSensitivitiesVector.

Lemma image_wrap_empty (c : t) (i : nat) :
  number c = 0 ->
  image_wrap c i =
  Throw (LocalisedException
    "Image number is out of range. You tried to look up an image number that is not inside the container.").
Proof.
  intros Hn. unfold image_wrap, sptr_image_wrap, index. rewrite Hn.
  cbn [Nat.leb]. by rewrite orb_true_r.
Qed.

(** X18.  On a container without images [forward()] and [backward()]
    throw, when there are no stored maps either, the exception of an image
    number out of range, which comes from the test of the dimensions; the
    destination is not touched. *)
Theorem forward_backward_empty (indeterminate : complex_float_t)
    (this img dst : GadgetronImagesVector.t) :
  number img = 0 -> items this = 0 ->
  forward indeterminate this img dst =
    (Throw (LocalisedException
       "Image number is out of range. You tried to look up an image number that is not inside the container."),
     dst) /\
  backward indeterminate this img dst =
    (Throw (LocalisedException
       "Image number is out of range. You tried to look up an image number that is not inside the container."),
     dst).
Proof.
  intros Hn Hi. unfold forward, backward, check_dimension_consistency,
    get_image_dimensions. rewrite image_wrap_empty by done.
  change (items img) with (number img). rewrite Hn, Hi. done.
Qed.

Lemma forward_backward_empty_witness :
  forward (pixel 0) (images []) (images []) one_map =
    (Throw (LocalisedException
       "Image number is out of range. You tried to look up an image number that is not inside the container."),
     one_map) /\
  backward (pixel 0) (images []) (images []) one_map =
    (Throw (LocalisedException
       "Image number is out of range. You tried to look up an image number that is not inside the container."),
     one_map).
Proof. apply (forward_backward_empty (pixel 0) (images []) (images [])); reflexivity. Defined.
End EmptyInput.

(** ** When forward returns *)

Section ForwardReturns.
Import GadgetronImagesVector CoilSensitivitiesVector.

Lemma for_each_total {S A} (R : S -> Prop) (l : list A) (body : A -> M S unit) (s : S) :
  R s ->
  (forall a s0, a ∈ l -> R s0 -> exists s1, body a s0 = (Ok tt, s1) /\ R s1) ->
  exists s', for_each l body s = (Ok tt, s') /\ R s'.
Proof.
  revert s. induction l as [|a l IH]; intros s Hs Hbody.
  - exists s. done.
  - rewrite for_each_cons. destruct (Hbody a s) as (s1 & -> & Hs1); [by left|done|].
    apply IH; [done|]. intros a' s0 Ha'. apply Hbody. by right.
Qed.

Lemma make_consistent_head (junk : complex_float_t) (im : Image.t) :
  Image.head (Image.make_consistent junk im) = Image.head im.
Proof. unfold Image.make_consistent. by destruct (0 <? _). Qed.

Lemma make_consistent_length (junk : complex_float_t) (im : Image.t) :
  0 < Image.getNumberOfDataElements im ->
  length (Image.data (Image.make_consistent junk im)) = Image.getNumberOfDataElements im.
Proof.
  intros Hn. unfold Image.make_consistent.
  replace (0 <? Image.getNumberOfDataElements im) with true
    by (symmetry; by apply Nat.ltb_lt).
  simpl. by rewrite length_resize.
Qed.

Lemma distribute_loop_total (src cm : Image.t) (Nx Ny : nat)
    (vs : list (nat * nat * nat * nat)) (dst : Image.t) :
  (forall x y z ch, (x, y, z, ch) ∈ vs ->
     (exists s, Image.read src (x + Nx * (y + Ny * z)) = Ok s) /\
     (exists m, Image.at_ cm x y z ch = Ok m) /\
     Image.offset dst x y z ch < length (Image.data dst)) ->
  exists dst', for_each vs (distribute_voxel src cm Nx Ny) dst = (Ok tt, dst').
Proof.
  intros Hv.
  destruct (for_each_total
              (fun s0 => Image.head s0 = Image.head dst /\
                         length (Image.data s0) = length (Image.data dst))
              vs (distribute_voxel src cm Nx Ny) dst) as (dst' & H & _); [done| |by exists dst'].
  intros [[[x y] z] ch] s0 Hin (Hh & Hl).
  destruct (Hv x y z ch Hin) as ((s & Hs) & (m & Hm) & Ho).
  unfold distribute_voxel, update. monad_unfold. rewrite Hs, Hm.
  unfold Image.set_at, Image.write.
  assert (Hoff : Image.offset s0 x y z ch = Image.offset dst x y z ch).
  { unfold Image.offset, Image.getMatrixSizeX, Image.getMatrixSizeY, Image.getMatrixSizeZ.
    by rewrite Hh. }
  rewrite Hoff.
  replace (Image.offset dst x y z ch <? length (Image.data s0)) with true
    by (symmetry; apply Nat.ltb_lt; lia).
  eexists. split; [reflexivity|]. simpl. split; [done|]. by rewrite length_insert.
Qed.

Lemma get_csm_as_cfimage_at_fresh (this : t) (k : nat) (iw : ImageWrap.t) :
  index_ this = [] -> images_ this !! k = Some iw -> ImageWrap.type iw = ISMRMRD_CXFLOAT ->
  get_csm_as_cfimage_at this k = Ok (ImageWrap.image iw).
Proof.
  intros Hix Hk Ht. unfold get_csm_as_cfimage_at.
  pose proof (image_wrap_fresh this k iw Hix Hk) as Hw. unfold image_wrap in Hw.
  monad_unfold. rewrite Hw, Ht. done.
Qed.

(** The search finds, for an image that has a map, one of the stored maps
    that are accepted for it. *)
Lemma get_csm_as_cfimage_returns (this : t) (iw : ImageWrap.t) (offset : nat) :
  index_ this = [] -> Forall complex_float (images_ this) -> has_map this iw ->
  exists m, get_csm_as_cfimage this
              (KSpaceSubset.get_tag_from_img (ImageWrap.image iw)) offset =
            Ok (ImageWrap.image m) /\
            m ∈ images_ this /\
            matches_image (ImageWrap.image iw) (ImageWrap.image m).
Proof.
  intros Hix Hcf [Hex _].
  set (maps := fun k => from_option ImageWrap.image (ImageWrap.image iw) (images_ this !! k)).
  assert (Hat : forall k, k < items this -> get_csm_as_cfimage_at this k = Ok (maps k)).
  { intros k Hk. apply lookup_lt_is_Some_2 in Hk as [w Hw].
    unfold maps. rewrite Hw. simpl. apply get_csm_as_cfimage_at_fresh; [done|done|].
    rewrite Forall_forall in Hcf. apply Hcf. by eapply list_elem_of_lookup_2. }
  apply Exists_exists in Hex as (w & Hw & Hmatch).
  apply list_elem_of_lookup_1 in Hw as [k Hk].
  assert (Hn : k < items this) by (by eapply lookup_lt_Some).
  destruct (cyclic_cover (items this) offset k Hn) as (j & Hj & Hjk).
  destruct (csm_search_total this (ImageWrap.image iw) offset maps (seq 0 (items this)))
    as [Hfind _].
  { intros j' Hj'%elem_of_seq. apply Hat. apply Nat.mod_upper_bound. lia. }
  destruct Hfind as [m Hm].
  { exists j. split; [apply elem_of_seq; lia|]. rewrite Hjk. unfold maps. by rewrite Hk. }
  pose proof Hm as Hm'. apply csm_search_seq in Hm' as (j0 & Hj0 & Hat0 & Hmatch0 & _).
  assert (Hlt : (offset + j0) mod items this < items this)
    by (apply Nat.mod_upper_bound; lia).
  rewrite (Hat _ Hlt) in Hat0. injection Hat0 as <-.
  apply lookup_lt_is_Some_2 in Hlt as [w0 Hw0].
  exists w0. unfold get_csm_as_cfimage. rewrite Hm. unfold maps in *. rewrite Hw0 in *.
  simpl in *. split; [done|]. split; [by eapply list_elem_of_lookup_2|done].
Qed.

Lemma read_lt (im : Image.t) (k : nat) :
  k < length (Image.data im) -> exists v, Image.read im k = Ok v.
Proof.
  intros Hk. apply lookup_lt_is_Some_2 in Hk as [v Hv]. exists v.
  unfold Image.read. by rewrite Hv.
Qed.

Lemma source_offset_lt (src : Image.t) (x y z : nat) :
  consistent_storage src -> Image.getNumberOfChannels src = 1%Z ->
  x < Z.to_nat (Image.getMatrixSizeX src) -> y < Z.to_nat (Image.getMatrixSizeY src) ->
  z < Z.to_nat (Image.getMatrixSizeZ src) ->
  x + Z.to_nat (Image.getMatrixSizeX src) * (y + Z.to_nat (Image.getMatrixSizeY src) * z)
  < length (Image.data src).
Proof.
  intros (_ & HX & HY & HZ & _ & Hlen) Hc Hx Hy Hz. rewrite Hlen.
  pose proof (offset_lt src x y z 0 Hx Hy Hz) as Ho. rewrite Hc in Ho.
  specialize (Ho ltac:(lia)). unfold Image.offset in Ho. lia.
Qed.

(** One iteration of [coilchannels_from_combined_image] returns. *)
Lemma distribute_one_returns (indeterminate : complex_float_t) (src cm : Image.t) :
  consistent_storage src -> Image.getNumberOfChannels src = 1%Z ->
  consistent_storage cm ->
  ImageHeader.matrix_size (Image.head cm) = ImageHeader.matrix_size (Image.head src) ->
  exists dst0 out,
    Image.setHead indeterminate (Image.getHead src) cm = Ok dst0 /\
    let dst1 := Image.setNumberOfChannels indeterminate (Image.getNumberOfChannels cm) dst0 in
    run (for_each (voxels (Z.to_nat (Image.getMatrixSizeX dst1))
                          (Z.to_nat (Image.getMatrixSizeY dst1))
                          (Z.to_nat (Image.getMatrixSizeZ dst1))
                          (Z.to_nat (Image.getNumberOfChannels dst1)))
                  (distribute_voxel src cm (Z.to_nat (Image.getMatrixSizeX dst1))
                                    (Z.to_nat (Image.getMatrixSizeY dst1)))) dst1 = Ok out.
Proof.
  intros Hsrc Hc Hcm Hsize.
  pose proof Hsrc as (Hts & _). pose proof Hcm as (Htc & HX & HY & HZ & HC & Hlen).
  unfold Image.setHead, Image.getHead. rewrite Hts, Htc, Z.eqb_refl.
  eexists. 
  set (dst0 := Image.make_consistent indeterminate (Image.mk (Image.head src) (Image.data cm))).
  set (dst1 := Image.setNumberOfChannels indeterminate (Image.getNumberOfChannels cm) dst0).
  assert (Hh1 : Image.head dst1 =
                ImageHeader.with_channels (Image.getNumberOfChannels cm) (Image.head src)).
  { unfold dst1, Image.setNumberOfChannels. rewrite make_consistent_head. simpl.
    unfold dst0. by rewrite make_consistent_head. }
  assert (Hdx : Image.getMatrixSizeX dst1 = Image.getMatrixSizeX src /\
                Image.getMatrixSizeY dst1 = Image.getMatrixSizeY src /\
                Image.getMatrixSizeZ dst1 = Image.getMatrixSizeZ src /\
                Image.getNumberOfChannels dst1 = Image.getNumberOfChannels cm).
  { unfold Image.getMatrixSizeX, Image.getMatrixSizeY, Image.getMatrixSizeZ,
      Image.getNumberOfChannels. by rewrite Hh1. }
  destruct Hdx as (Hdx & Hdy & Hdz & Hdc).
  assert (Hcx : Image.getMatrixSizeX cm = Image.getMatrixSizeX src /\
                Image.getMatrixSizeY cm = Image.getMatrixSizeY src /\
                Image.getMatrixSizeZ cm = Image.getMatrixSizeZ src).
  { unfold Image.getMatrixSizeX, Image.getMatrixSizeY, Image.getMatrixSizeZ.
    by rewrite Hsize. }
  destruct Hcx as (Hcx & Hcy & Hcz).
  destruct (distribute_loop_total src cm
              (Z.to_nat (Image.getMatrixSizeX dst1)) (Z.to_nat (Image.getMatrixSizeY dst1))
              (voxels (Z.to_nat (Image.getMatrixSizeX dst1))
                      (Z.to_nat (Image.getMatrixSizeY dst1))
                      (Z.to_nat (Image.getMatrixSizeZ dst1))
                      (Z.to_nat (Image.getNumberOfChannels dst1))) dst1) as [out Hout].
  { intros x y z ch (Hx & Hy & Hz & Hch)%elem_of_voxels.
    rewrite Hdx in Hx. rewrite Hdy in Hy. rewrite Hdz in Hz. rewrite Hdc in Hch.
    split; [|split].
    - apply read_lt. rewrite Hdx, Hdy. by apply source_offset_lt.
    - apply read_lt. rewrite Hlen. apply offset_lt; by rewrite ?Hcx, ?Hcy, ?Hcz.
    - pose proof (offset_lt dst1 x y z ch) as Ho.
      rewrite Hdx, Hdy, Hdz, Hdc in Ho. specialize (Ho Hx Hy Hz Hch).
      assert (Hn : Image.getNumberOfDataElements dst1 =
                   Image.getNumberOfDataElements
                     (Image.mk (ImageHeader.with_channels (Image.getNumberOfChannels cm)
                                  (Image.head dst0)) (Image.data dst0))).
      { unfold Image.getNumberOfDataElements, Image.getMatrixSizeX, Image.getMatrixSizeY,
          Image.getMatrixSizeZ, Image.getNumberOfChannels.
        unfold dst1, Image.setNumberOfChannels. by rewrite make_consistent_head. }
      unfold dst1 at 2, Image.setNumberOfChannels.
      rewrite make_consistent_length; lia. }
  exists out. split; [reflexivity|]. cbv zeta. fold dst0. fold dst1.
  unfold run. by rewrite Hout.
Qed.

Lemma coilchannels_from_combined_image_returns (indeterminate : complex_float_t)
    (this combined_img s : t) :
  index_ combined_img = [] -> index_ this = [] ->
  Forall complex_float (images_ combined_img) ->
  Forall single_channel (images_ combined_img) ->
  Forall complex_float (images_ this) ->
  Forall (has_map this) (images_ combined_img) ->
  exists s', coilchannels_from_combined_image indeterminate this combined_img s = (Ok tt, s').
Proof.
  intros Hix Hixm Hcf Hsc Hcfm Hmaps. unfold coilchannels_from_combined_image.
  match goal with |- exists s', for_each ?l ?body s = _ =>
    destruct (for_each_total (fun _ => True) l body s) as (s' & Hs' & _);
      [done| |by exists s'] end.
  intros i s0 Hi%elem_of_seq _.
  assert (Hlt : i < length (images_ combined_img)) by (unfold items in Hi; lia).
  apply lookup_lt_is_Some_2 in Hlt as [iw Hiw].
  pose proof (list_elem_of_lookup_2 _ _ _ Hiw) as Hin.
  rewrite Forall_forall in Hcf, Hsc, Hmaps.
  destruct (Hcf iw Hin) as [Htype Hstore]. pose proof (Hsc iw Hin) as Hone.
  destruct (get_csm_as_cfimage_returns this iw i Hixm Hcfm (Hmaps iw Hin))
    as (m & Hm & Hmin & Hmatch).
  rewrite Forall_forall in Hcfm. destruct (Hcfm m Hmin) as [_ Hmstore].
  destruct (Hmaps iw Hin) as [_ Hsizes]. rewrite Forall_forall in Hsizes.
  pose proof (Hsizes m Hmin Hmatch) as Hsize.
  destruct (distribute_one_returns indeterminate (ImageWrap.image iw) (ImageWrap.image m)
              Hstore Hone Hmstore Hsize) as (dst0 & out & Hhead & Hrun).
  cbv zeta in Hrun.
  pose proof (image_wrap_fresh combined_img i iw Hix Hiw) as Hw.
  assert (Hcast : ImageWrap.as_CFImage iw = Ok (ImageWrap.image iw)).
  { unfold ImageWrap.as_CFImage. unfold ImageWrap.type in Htype. by rewrite Htype. }
  monad_unfold. rewrite Hw, Hcast, Hm, Hhead, Hrun.
  eexists. split; [reflexivity|done].
Qed.

(** With as many stored maps as combined images, all of them complex
    float images with consistent storage, every combined image of one
    channel and with a stored map, and a destination on which the meta
    data can be set, [forward()] returns. *)
Lemma forward_returns (indeterminate : complex_float_t) (this combined_img dst : t) :
  items combined_img = items this -> 0 < items combined_img ->
  index_ combined_img = [] -> index_ this = [] ->
  Forall complex_float (images_ combined_img) ->
  Forall single_channel (images_ combined_img) ->
  Forall complex_float (images_ this) ->
  Forall (has_map this) (images_ combined_img) ->
  (set_meta_data (get_meta_data combined_img) dst).1 = Ok tt ->
  exists dst', forward indeterminate this combined_img dst = (Ok tt, dst').
Proof.
  intros Hitems Hpos Hix Hixm Hcf Hsc Hcfm Hmaps Hmeta. unfold forward.
  rewrite Hitems, Nat.eqb_refl. cbn [negb].
  assert (Hlt : 0 < length (images_ combined_img)) by (unfold items in Hpos; lia).
  apply lookup_lt_is_Some_2 in Hlt as [iw0 Hiw0].
  pose proof (image_wrap_fresh combined_img 0 iw0 Hix Hiw0) as Hw0.
  assert (Hdims : get_image_dimensions combined_img 0 = Ok (ImageWrap.get_dim iw0)).
  { unfold get_image_dimensions. monad_unfold. by rewrite Hw0. }
  pose proof (check_dimension_consistency_first combined_img _ Hdims) as Hcheck.
  assert (Hch : dimensions_c combined_img = Ok 1%Z).
  { unfold dimensions_c. monad_unfold. rewrite Hw0. f_equal.
    rewrite Forall_forall in Hsc. apply (Hsc iw0). by eapply list_elem_of_lookup_2. }
  destruct (set_meta_data (get_meta_data combined_img) dst) as [[[]|e] s0] eqn:Hset;
    [|discriminate].
  destruct (coilchannels_from_combined_image_returns indeterminate this combined_img
              (with_images_ [] s0) Hix Hixm Hcf Hsc Hcfm Hmaps) as [dst' Hloop].
  exists dst'. unfold clear_data. monad_unfold. rewrite Hcheck, Hch. cbn [negb Z.eqb Pos.eqb].
  by rewrite Hset.
Qed.

(** An image 0 of several channels is refused. *)
Lemma forward_refuses_channels (indeterminate : complex_float_t)
    (this combined_img dst : t) (iw0 : ImageWrap.t) :
  items combined_img = items this -> index_ combined_img = [] ->
  images_ combined_img !! 0 = Some iw0 ->
  Image.getNumberOfChannels (ImageWrap.image iw0) <> 1%Z ->
  forward indeterminate this combined_img dst =
  (Throw (LocalisedException "The source image has more than one channel."), dst).
Proof.
  intros Hitems Hix Hiw0 Hne. unfold forward.
  rewrite Hitems, Nat.eqb_refl. cbn [negb].
  pose proof (image_wrap_fresh combined_img 0 iw0 Hix Hiw0) as Hw0.
  assert (Hdims : get_image_dimensions combined_img 0 = Ok (ImageWrap.get_dim iw0)).
  { unfold get_image_dimensions. monad_unfold. by rewrite Hw0. }
  pose proof (check_dimension_consistency_first combined_img _ Hdims) as Hcheck.
  assert (Hch : dimensions_c combined_img =
                Ok (Image.getNumberOfChannels (ImageWrap.image iw0))).
  { unfold dimensions_c. monad_unfold. by rewrite Hw0. }
  monad_unfold. rewrite Hcheck, Hch. cbn [negb].
  replace (Image.getNumberOfChannels (ImageWrap.image iw0) =? 1)%Z with false
    by (symmetry; by apply Z.eqb_neq).
  done.
Qed.
End ForwardReturns.

Section Distribute.
Import GadgetronImagesVector CoilSensitivitiesVector.

(** C9, as the code has it.  [forward()] throws unless there are as many
    stored maps as combined images, and it throws when image 0 has a
    number of channels other than one.  It returns when, besides, maps
    and images are complex float images with consistent storage, every
    combined image has one channel and a stored map of its slice and of
    contrast 0, the maps accepted for an image have its matrix size, and
    the meta data can be set on the destination.  Whenever it returns, the
    destination holds one image per combined image; the image at position
    [i] is the combined image [i] multiplied voxel by voxel, channel by
    channel, by the first stored map in the cyclic order starting at
    position [i] that has the slice of the image and contrast 0, and it
    carries the header of the combined image with the channels of the
    map. *)
Theorem forward_distributes (indeterminate : complex_float_t)
    (this combined_img dst : GadgetronImagesVector.t) :
  (items combined_img <> items this ->
   forward indeterminate this combined_img dst =
   (Throw (LocalisedException
      "The number of coilmaps does not equal the number of images to which they should be applied to."),
    dst)) /\
  (forall iw0,
     items combined_img = items this -> index_ combined_img = [] ->
     images_ combined_img !! 0 = Some iw0 ->
     Image.getNumberOfChannels (ImageWrap.image iw0) <> 1%Z ->
     forward indeterminate this combined_img dst =
     (Throw (LocalisedException "The source image has more than one channel."), dst)) /\
  (items combined_img = items this -> 0 < items combined_img ->
   index_ combined_img = [] -> index_ this = [] ->
   Forall complex_float (images_ combined_img) ->
   Forall single_channel (images_ combined_img) ->
   Forall complex_float (images_ this) ->
   Forall (has_map this) (images_ combined_img) ->
   (set_meta_data (get_meta_data combined_img) dst).1 = Ok tt ->
   exists dst', forward indeterminate this combined_img dst = (Ok tt, dst')) /\
  (forall dst', forward indeterminate this combined_img dst = (Ok tt, dst') ->
     items combined_img = items this /\
     length (images_ dst') = items combined_img /\
     forall i, i < items combined_img ->
       exists iw_src src coilmap out,
         image_wrap combined_img i = Ok iw_src /\
         ImageWrap.as_CFImage iw_src = Ok src /\
         found_by_cyclic_search this src i coilmap /\
         images_ dst' !! i = Some (ImageWrap.mk ISMRMRD_CXFLOAT out) /\
         distributed src coilmap out).
Proof.
  split; [apply forward_result|].
  split; [intros iw0; apply forward_refuses_channels|].
  split; [apply forward_returns|apply forward_result].
Qed.

Lemma forward_distributes_witness :
  exists dst',
    forward (pixel 0) one_map one_image (images []) = (Ok tt, dst') /\
    length (images_ dst') = 1 /\
    exists iw_src src coilmap out,
      image_wrap one_image 0 = Ok iw_src /\
      ImageWrap.as_CFImage iw_src = Ok src /\
      found_by_cyclic_search one_map src 0 coilmap /\
      images_ dst' !! 0 = Some (ImageWrap.mk ISMRMRD_CXFLOAT out) /\
      distributed src coilmap out.
Proof.
  destruct (forward_distributes (pixel 0) one_map one_image (images []))
    as (_ & _ & Hret & Hres).
  destruct Hret as [dst' H].
  - reflexivity.
  - vm_compute; lia.
  - reflexivity.
  - reflexivity.
  - repeat constructor; vm_compute; congruence.
  - repeat constructor.
  - repeat constructor; vm_compute; congruence.
  - repeat constructor.
  - reflexivity.
  - exists dst'. split; [exact H|].
    destruct (Hres dst' H) as (_ & Hlen & Hall).
    split; [exact Hlen|]. apply (Hall 0). vm_compute; lia.
Defined.
End Distribute.
